(** * Zip extractor and CSV/PDF collector: a shallow embedding of [main.py]

    The program stages the sub-folders and [.zip] files of a selected folder
    into [Extracted/], unpacks every archive found there (also the nested
    ones, through an explicit stack of directories), and copies every
    [.csv] and [.pdf] file into [Merged/All_CSVs] and [Merged/All_PDFs].

    The file system is a finite tree; a directory is an association list in
    listing order ([os.listdir] returns the names in that order, a new entry
    is listed last; the library promises no order, and what depends on the
    place of a new entry in the listing is stated with the listing given).
    A member of an archive may be damaged, so that [extractall] raises
    [BadZipFile] after the members before it were written.  The procedures
    of [main.py] are written in a small
    state-and-exception monad over the file system, the log pane, the
    progress bar and the message boxes. *)

From Stdlib Require Import List String Ascii Bool Arith Lia Permutation.
Import ListNotations.
Open Scope string_scope.
Open Scope list_scope.
Local Set Warnings "-register-all".

(** ** Strings: [str.endswith] and [os.path.splitext] *)

Definition endswith (s suffix : string) : bool :=
  let n := String.length s in
  let k := String.length suffix in
  Nat.leb k n && String.eqb (substring (n - k) k s) suffix.

(** [os.path.join(folder, item)] as a string.  The procedures below hold
    paths as lists of names; a test on the joined string is written on the
    last name, see [full_path_endswith_zip]. *)
Definition os_path_join (folder item : string) : string :=
  (folder ++ "/" ++ item)%string.

(** Index of the last ["."] of a name ([str.rfind]). *)
Fixpoint last_dot (s : string) : option nat :=
  match s with
  | EmptyString => None
  | String c t =>
      match last_dot t with
      | Some i => Some (S i)
      | None => if Ascii.eqb c "." then Some 0 else None
      end
  end.

Fixpoint all_dots (s : string) : bool :=
  match s with
  | EmptyString => true
  | String c t => Ascii.eqb c "." && all_dots t
  end.

(** [os.path.splitext(name)[0]] for a name without separator: the name up to
    its last dot, unless only dots come before that dot. *)
Definition splitext_root (name : string) : string :=
  match last_dot name with
  | Some i =>
      let pre := substring 0 i name in
      if all_dots pre then name else pre
  | None => name
  end.

(** ** The file system *)

(** A regular file is either [File] (bytes that are not a readable zip
    container) or [Archive] (bytes that open as a zip container with these
    members, directories being listed before their content).  Whether a
    file is treated as an archive by the program depends on its name only.
    A member of an archive may be [Damaged]: its stored data fails a check
    of [zipfile] when the member is read, the check of its header before the
    target is opened ([written] is [None]), or its checksum after [data] was
    written to the target ([written] is [Some data]).  No extraction writes
    a [Damaged] node; in a directory it is a regular file that is no zip
    container. *)
Inductive node : Type :=
| File (data : string)
| Archive (members : list (string * node))
| Dir (entries : list (string * node))
| Damaged (written : option string).

Abbreviation path := (list string).

Abbreviation entries_t := (list (string * node)).

Definition is_dir (n : node) : bool :=
  match n with Dir _ => true | _ => false end.

Definition is_file (n : node) : bool := negb (is_dir n).

Fixpoint assoc (x : string) (es : entries_t) : option node :=
  match es with
  | [] => None
  | (y, n) :: es' => if String.eqb x y then Some n else assoc x es'
  end.

(** Replace the entry [x] where it stands. *)
Fixpoint set_entry (x : string) (v : node) (es : entries_t) : entries_t :=
  match es with
  | [] => []
  | (y, n) :: es' =>
      if String.eqb x y then (y, v) :: es' else (y, n) :: set_entry x v es'
  end.

(** Replace the entry [x], or list it last when it is new. *)
Definition upsert (x : string) (v : node) (es : entries_t) : entries_t :=
  match assoc x es with
  | Some _ => set_entry x v es
  | None => es ++ [(x, v)]
  end.

Definition names (es : entries_t) : list string := map fst es.

Fixpoint lookup (n : node) (p : path) : option node :=
  match p with
  | [] => Some n
  | x :: p' =>
      match n with
      | Dir es =>
          match assoc x es with
          | Some c => lookup c p'
          | None => None
          end
      | _ => None
      end
  end.

(** [put n p v]: the tree [n] with [v] at [p]; the parent of [p] has to be a
    directory of [n]. *)
Fixpoint put (n : node) (p : path) (v : node) : option node :=
  match p with
  | [] => Some v
  | x :: p' =>
      match n with
      | Dir es =>
          match assoc x es with
          | Some c =>
              match put c p' v with
              | Some c' => Some (Dir (set_entry x c' es))
              | None => None
              end
          | None =>
              match p' with
              | [] => Some (Dir (es ++ [(x, v)]))
              | _ => None
              end
          end
      | _ => None
      end
  end.

(** [os.makedirs]: every missing directory along [p] is created; [None] when
    a component of [p] is a regular file. *)
Fixpoint mkdirs (n : node) (p : path) : option node :=
  match n with
  | Dir es =>
      match p with
      | [] => Some n
      | x :: p' =>
          match assoc x es with
          | Some c =>
              match mkdirs c p' with
              | Some c' => Some (Dir (set_entry x c' es))
              | None => None
              end
          | None =>
              match mkdirs (Dir []) p' with
              | Some c' => Some (Dir (es ++ [(x, c')]))
              | None => None
              end
          end
      end
  | _ => None
  end.

(** ** Exceptions, log lines and the state of a run *)

(** The exceptions the modelled library calls raise.  [FileNotFoundError]
    keeps its [filename], which one handler prints; [ShutilError] is
    [shutil.Error] with the number of collected failures, [SameFileError] is
    its subclass. *)
Inductive exn : Type :=
| FileNotFoundError (filename : path)
| NotADirectoryError
| IsADirectoryError
| FileExistsError
| SameFileError
| ShutilError (failures : nat)
| BadZipFile.

(** One constructor per [log_message] call of [main.py]. *)
Inductive log_entry : Type :=
| CopiedFolder (src dst : path)
| CopiedZip (src dst : path)
| CopyFailed (src dst : path) (e : exn)
| Extracted (zip dst : path)
| NotFound (filename : path)
| BadZip (zip : path)
| Unexpected (e : exn) (p : path)
| CopiedCSV (file folder : path)
| CopiedPDF (file folder : path)
| SortFailed (file : path) (e : exn)
| Completed.

Inductive dialog : Type :=
| ShowWarning
| ShowInfo.

(** The file system and the widgets the procedures write to: [log_text]
    (oldest line first), the value and maximum of [progress_bar], and the
    message boxes shown so far. *)
Record state : Type := mkState {
  fs : node;
  log_text : list log_entry;
  progress_value : nat;
  progress_maximum : nat;
  dialogs : list dialog
}.

Definition with_fs (s : state) (t : node) : state :=
  mkState t (log_text s) (progress_value s) (progress_maximum s) (dialogs s).

(** A computation returns, raises, or runs out of fuel (the fuel only bounds
    the loops of the model, the program has none). *)
Inductive outcome (A : Type) : Type :=
| Ret (a : A)
| Raise (e : exn)
| OutOfFuel.
Arguments Ret {A} a.
Arguments Raise {A} e.
Arguments OutOfFuel {A}.

Definition M (A : Type) : Type := state -> outcome A * state.

Definition ret {A} (a : A) : M A := fun s => (Ret a, s).

Definition raise {A} (e : exn) : M A := fun s => (Raise e, s).

Definition out_of_fuel {A} : M A := fun s => (OutOfFuel, s).

Definition bind {A B} (m : M A) (k : A -> M B) : M B :=
  fun s =>
    match m s with
    | (Ret a, s') => k a s'
    | (Raise e, s') => (Raise e, s')
    | (OutOfFuel, s') => (OutOfFuel, s')
    end.

(** [try: m except Exception as e: h e]. *)
Definition try_except {A} (m : M A) (h : exn -> M A) : M A :=
  fun s =>
    match m s with
    | (Raise e, s') => h e s'
    | r => r
    end.

Declare Scope monad_scope.
Delimit Scope monad_scope with monad.
Notation "x <- m ;; k" := (bind m (fun x => k))
  (at level 61, m at next level, right associativity) : monad_scope.
Notation "m ;; k" := (bind m (fun _ => k))
  (at level 61, right associativity) : monad_scope.
Open Scope monad_scope.

(** [for x in xs: body x], the loop variable [acc] carried along. *)
Fixpoint for_each {A B} (xs : list A) (body : A -> B -> M B) (acc : B) : M B :=
  match xs with
  | [] => ret acc
  | x :: xs' => acc' <- body x acc ;; for_each xs' body acc'
  end.

Definition when (b : bool) (m : M unit) : M unit :=
  if b then m else ret tt.

(** ** The widgets *)

Definition log_message (message : log_entry) : M unit :=
  fun s =>
    (Ret tt, mkState (fs s) (log_text s ++ [message]) (progress_value s)
                     (progress_maximum s) (dialogs s)).

Definition update_progress : M unit :=
  fun s =>
    (Ret tt, mkState (fs s) (log_text s) (progress_value s + 1)
                     (progress_maximum s) (dialogs s)).

Definition set_progress_maximum (n : nat) : M unit :=
  fun s =>
    (Ret tt, mkState (fs s) (log_text s) (progress_value s) n (dialogs s)).

Definition show (d : dialog) : M unit :=
  fun s =>
    (Ret tt, mkState (fs s) (log_text s) (progress_value s)
                     (progress_maximum s) (dialogs s ++ [d])).

(** ** The library calls: [os], [shutil], [zipfile] *)

Definition os_path_exists (p : path) : M bool :=
  fun s =>
    (Ret (match lookup (fs s) p with Some _ => true | None => false end), s).

Definition os_path_isdir (p : path) : M bool :=
  fun s =>
    (Ret (match lookup (fs s) p with Some n => is_dir n | None => false end), s).

Definition os_path_isfile (p : path) : M bool :=
  fun s =>
    (Ret (match lookup (fs s) p with Some n => is_file n | None => false end), s).

(** [os.makedirs(p, exist_ok=...)]. *)
Definition os_makedirs (exist_ok : bool) (p : path) : M unit :=
  fun s =>
    match lookup (fs s) p with
    | Some (Dir _) => if exist_ok then (Ret tt, s) else (Raise FileExistsError, s)
    | Some _ => (Raise FileExistsError, s)
    | None =>
        match mkdirs (fs s) p with
        | Some t => (Ret tt, with_fs s t)
        | None => (Raise NotADirectoryError, s)
        end
    end.

(** [os.listdir(p)]: the names in the order the directory stores them. *)
Definition os_listdir (p : path) : M (list string) :=
  fun s =>
    match lookup (fs s) p with
    | Some (Dir es) => (Ret (names es), s)
    | Some _ => (Raise NotADirectoryError, s)
    | None => (Raise (FileNotFoundError p), s)
    end.

Definition basename (p : path) : path :=
  match rev p with
  | [] => []
  | x :: _ => [x]
  end.

Definition path_eqb (p q : path) : bool :=
  if list_eq_dec string_dec p q then true else false.

(** [shutil.copyfile]: the bytes of the regular file [src] are written to
    [dst], over the regular file that may be there. *)
Definition shutil_copyfile (src dst : path) : M unit :=
  fun s =>
    match lookup (fs s) src with
    | None => (Raise (FileNotFoundError src), s)
    | Some (Dir _) => (Raise IsADirectoryError, s)
    | Some f =>
        if path_eqb src dst then (Raise SameFileError, s)
        else
          match lookup (fs s) dst with
          | Some (Dir _) => (Raise IsADirectoryError, s)
          | _ =>
              match put (fs s) dst f with
              | Some t => (Ret tt, with_fs s t)
              | None =>
                  match lookup (fs s) (removelast dst) with
                  | Some _ => (Raise NotADirectoryError, s)
                  | None => (Raise (FileNotFoundError dst), s)
                  end
              end
          end
    end.

(** [shutil.copy] and [shutil.copy2] (the model keeps no metadata): a
    destination that is a directory receives the file under its own name. *)
Definition shutil_copy (src dst : path) : M unit :=
  d <- os_path_isdir dst ;;
  shutil_copyfile src (if d then dst ++ basename src else dst).

(** [shutil.copytree(src, dst, dirs_exist_ok=True)]: the entries of [src] are
    listed, [dst] is made, then every entry is copied, a directory by a
    nested call on the file system as it is by then; failures are collected
    and raised together at the end. *)
Fixpoint shutil_copytree (fuel : nat) (src dst : path) : M unit :=
  match fuel with
  | O => out_of_fuel
  | S fuel' =>
      entries <- os_listdir src ;;
      os_makedirs true dst ;;
      errors <- for_each entries
        (fun name errors =>
           let srcname := src ++ [name] in
           let dstname := dst ++ [name] in
           try_except
             (d <- os_path_isdir srcname ;;
              (if d then shutil_copytree fuel' srcname dstname
               else shutil_copy srcname dstname) ;;
              ret errors)
             (fun e =>
                match e with
                | ShutilError k => ret (errors + k)
                | _ => ret (errors + 1)
                end))
        0 ;;
      match errors with
      | O => ret tt
      | _ => raise (ShutilError errors)
      end
  end.

(** [ZipFile._extract_member] on the entries of the target directory: a
    directory member is made unless it is there, a file member is written
    over the regular file that may be there, a damaged member raises
    [BadZipFile], with its header or after its data was written; the first
    failure stops the extraction and keeps what was written. *)
Fixpoint extract_member (name : string) (m : node) (es : entries_t)
  {struct m} : entries_t * option exn :=
  match m with
  | Dir sub =>
      let into :=
        fix all (ms : entries_t) (ces : entries_t) {struct ms}
          : entries_t * option exn :=
          match ms with
          | [] => (ces, None)
          | (n, x) :: ms' =>
              match extract_member n x ces with
              | (ces1, None) => all ms' ces1
              | r => r
              end
          end in
      match assoc name es with
      | Some (Dir ces) =>
          let (ces', r) := into sub ces in (set_entry name (Dir ces') es, r)
      | Some _ => (es, Some FileExistsError)
      | None =>
          let (ces', r) := into sub [] in (es ++ [(name, Dir ces')], r)
      end
  | Damaged None => (es, Some BadZipFile)
  | Damaged (Some data) =>
      match assoc name es with
      | Some (Dir _) => (es, Some IsADirectoryError)
      | _ => (upsert name (File data) es, Some BadZipFile)
      end
  | _ =>
      match assoc name es with
      | Some (Dir _) => (es, Some IsADirectoryError)
      | _ => (upsert name m es, None)
      end
  end.

Fixpoint extract_members (ms : entries_t) (es : entries_t)
  : entries_t * option exn :=
  match ms with
  | [] => (es, None)
  | (n, x) :: ms' =>
      match extract_member n x es with
      | (es1, None) => extract_members ms' es1
      | r => r
      end
  end.

Arguments extract_members : simpl never.

(** [zipfile.ZipFile(p, 'r')]: the members of a file that opens as a zip
    container. *)
Definition ZipFile (p : path) : M entries_t :=
  fun s =>
    match lookup (fs s) p with
    | Some (Archive ms) => (Ret ms, s)
    | Some (File _) | Some (Damaged _) => (Raise BadZipFile, s)
    | Some (Dir _) => (Raise IsADirectoryError, s)
    | None => (Raise (FileNotFoundError p), s)
    end.

(** [zip_ref.extractall(target)]; an archive without members touches
    nothing; at a damaged member [BadZipFile] is raised, and what was
    written before it stays. *)
Definition extractall (ms : entries_t) (target : path) : M unit :=
  fun s =>
    match ms with
    | [] => (Ret tt, s)
    | _ =>
        match lookup (fs s) target with
        | Some (Dir es) =>
            let (es', r) := extract_members ms es in
            match put (fs s) target (Dir es') with
            | Some t =>
                (match r with None => Ret tt | Some e => Raise e end,
                 with_fs s t)
            | None => (Raise NotADirectoryError, s)
            end
        | Some _ => (Raise NotADirectoryError, s)
        | None =>
            match mkdirs (fs s) target with
            | Some t0 =>
                let (es', r) := extract_members ms [] in
                match put t0 target (Dir es') with
                | Some t =>
                    (match r with None => Ret tt | Some e => Raise e end,
                     with_fs s t)
                | None => (Raise NotADirectoryError, s)
                end
            | None => (Raise NotADirectoryError, s)
            end
        end
    end.

(** [os.walk(top)], top-down: a directory with its regular files, then its
    sub-directories in listing order; nothing when [top] is no directory. *)
Fixpoint walk_node (root : path) (n : node) {struct n}
  : list (path * list string) :=
  match n with
  | Dir es =>
      (root, names (filter (fun e => is_file (snd e)) es))
      :: (fix subdirs (l : entries_t) : list (path * list string) :=
            match l with
            | [] => []
            | (x, c) :: l' =>
                (if is_dir c then walk_node (root ++ [x]) c else [])
                ++ subdirs l'
            end) es
  | _ => []
  end.

Definition os_walk (top : path) : M (list (path * list string)) :=
  fun s =>
    (Ret (match lookup (fs s) top with
          | Some n => walk_node top n
          | None => []
          end), s).

(** ** The procedures of [main.py] *)

(** One turn of the loop of [copy_to_extracted_folder]. *)
Definition stage_item (fuel : nat) (source_folder extraction_base_path : path)
  (item : string) : M unit :=
  let full_path := source_folder ++ [item] in
  let destination_path := extraction_base_path ++ [item] in
  try_except
    (d <- os_path_isdir full_path ;;
     if d then
       shutil_copytree fuel full_path destination_path ;;
       log_message (CopiedFolder full_path destination_path) ;;
       update_progress
     else
       f <- os_path_isfile full_path ;;
       if f && endswith item ".zip" then
         shutil_copy full_path destination_path ;;
         log_message (CopiedZip full_path destination_path) ;;
         update_progress
       else ret tt)
    (fun e => log_message (CopyFailed full_path destination_path e)).

Definition copy_to_extracted_folder (fuel : nat)
  (source_folder extraction_base_path : path) : M unit :=
  e <- os_path_exists extraction_base_path ;;
  when (negb e) (os_makedirs false extraction_base_path) ;;
  items <- os_listdir source_folder ;;
  for_each items
    (fun item _ => stage_item fuel source_folder extraction_base_path item) tt.

(** One turn of the inner loop of [find_and_extract_zip_files]; the stack is
    the Python list with its last element first.  ([full_path] ends with
    [".zip"] exactly when [item] does: [full_path_endswith_zip].) *)
Definition extract_item (current_path : path) (item : string)
  (stack : list path) : M (list path) :=
  let full_path := current_path ++ [item] in
  try_except
    (f <- os_path_isfile full_path ;;
     if f && endswith item ".zip" then
       let extract_to_folder := current_path ++ [splitext_root item] in
       e <- os_path_exists extract_to_folder ;;
       when (negb e) (os_makedirs false extract_to_folder) ;;
       zip_ref <- ZipFile full_path ;;
       extractall zip_ref extract_to_folder ;;
       log_message (Extracted full_path extract_to_folder) ;;
       update_progress ;;
       ret (extract_to_folder :: stack)
     else
       d <- os_path_isdir full_path ;;
       if d then ret (full_path :: stack) else ret stack)
    (fun e =>
       match e with
       | FileNotFoundError filename =>
           log_message (NotFound filename) ;; ret stack
       | BadZipFile => log_message (BadZip full_path) ;; ret stack
       | _ => log_message (Unexpected e full_path) ;; ret stack
       end).

(** The [while stack:] loop. *)
Fixpoint drain (fuel : nat) (stack : list path) : M unit :=
  match stack with
  | [] => ret tt
  | current_path :: rest =>
      match fuel with
      | O => out_of_fuel
      | S fuel' =>
          items <- os_listdir current_path ;;
          stack' <- for_each items (extract_item current_path) rest ;;
          drain fuel' stack'
      end
  end.

Definition find_and_extract_zip_files (fuel : nat)
  (extraction_base_path : path) : M unit :=
  drain fuel [extraction_base_path].

(** One turn of the inner loop of [organize_files_by_extension]. *)
Definition sort_file (csv_folder pdf_folder root : path) (file_name : string)
  : M unit :=
  let file_path := root ++ [file_name] in
  try_except
    (if endswith file_name ".csv" then
       shutil_copy file_path csv_folder ;;
       log_message (CopiedCSV file_path csv_folder) ;;
       update_progress
     else if endswith file_name ".pdf" then
       shutil_copy file_path pdf_folder ;;
       log_message (CopiedPDF file_path pdf_folder) ;;
       update_progress
     else ret tt)
    (fun e =>
       match e with
       | FileNotFoundError filename => log_message (NotFound filename)
       | SameFileError | ShutilError _ => log_message (SortFailed file_path e)
       | _ => log_message (Unexpected e file_path)
       end).

(** The walk is taken from the tree as it is when the loop starts: the
    program calls this procedure with [merged_path] outside
    [extraction_base_path], so that no copy changes what is walked. *)
Definition organize_files_by_extension (extraction_base_path merged_path : path)
  : M unit :=
  let csv_folder := merged_path ++ ["All_CSVs"] in
  let pdf_folder := merged_path ++ ["All_PDFs"] in
  e <- os_path_exists csv_folder ;;
  when (negb e) (os_makedirs false csv_folder) ;;
  e <- os_path_exists pdf_folder ;;
  when (negb e) (os_makedirs false pdf_folder) ;;
  dirs <- os_walk extraction_base_path ;;
  for_each dirs
    (fun '(root, files) _ =>
       for_each files
         (fun file_name _ => sort_file csv_folder pdf_folder root file_name) tt)
    tt.

Definition counted (file_name : string) : bool :=
  endswith file_name ".zip" || endswith file_name ".csv"
  || endswith file_name ".pdf".

Definition calculate_total_tasks (extraction_base_path : path) : M nat :=
  dirs <- os_walk extraction_base_path ;;
  ret (fold_left
         (fun total_tasks '(_, files) =>
            fold_left
              (fun total_tasks file_name =>
                 if counted file_name then total_tasks + 1 else total_tasks)
              files total_tasks)
         dirs 0).

(** [select_folder_and_process]; [folder_path] is what the folder dialog
    returned, [None] when it was dismissed. *)
Definition select_folder_and_process (fuel : nat) (folder_path : option path)
  : M unit :=
  match folder_path with
  | None => show ShowWarning
  | Some folder_path =>
      let extraction_base_path := folder_path ++ ["Extracted"] in
      let merged_path := folder_path ++ ["Merged"] in
      e <- os_path_exists merged_path ;;
      when (negb e) (os_makedirs false merged_path) ;;
      copy_to_extracted_folder fuel folder_path extraction_base_path ;;
      total_tasks <- calculate_total_tasks extraction_base_path ;;
      set_progress_maximum total_tasks ;;
      find_and_extract_zip_files fuel extraction_base_path ;;
      organize_files_by_extension extraction_base_path merged_path ;;
      show ShowInfo ;;
      log_message Completed
  end.

(** A run starts with an empty log pane and progress bar. *)
Definition initial (t : node) : state := mkState t [] 0 0 [].

(** ** Predicates and measures of the statements *)

(** A list of names without repetition. *)
Fixpoint nodupb (l : list string) : bool :=
  match l with
  | [] => true
  | x :: l' => negb (existsb (String.eqb x) l') && nodupb l'
  end.

(** Every directory of the tree lists every name once. *)
Fixpoint wf (n : node) : bool :=
  match n with
  | Dir es => nodupb (names es) && forallb (fun e => wf (snd e)) es
  | _ => true
  end.

(** No regular file below [n] has a name that ends with [".zip"]. *)
Fixpoint zip_free (n : node) : bool :=
  match n with
  | Dir es =>
      forallb
        (fun e => if is_dir (snd e) then zip_free (snd e)
                  else negb (endswith (fst e) ".zip")) es
  | _ => true
  end.

(** The number of directories of a tree, itself included. *)
Fixpoint dirs (n : node) : nat :=
  match n with
  | Dir es => S (list_sum (map (fun e => dirs (snd e)) es))
  | _ => 0
  end.

(** A regular file whose name does not end with [".zip"]. *)
Definition plain_file (e : string * node) : bool :=
  is_file (snd e) && negb (endswith (fst e) ".zip").

(** The log lines that report an extraction, and their number. *)
Definition is_extraction (e : log_entry) : bool :=
  match e with Extracted _ _ => true | _ => false end.

Definition extractions (l : list log_entry) : nat :=
  List.length (filter is_extraction l).

(** The log lines that report a failure. *)
Definition is_error (e : log_entry) : bool :=
  match e with
  | CopyFailed _ _ _ | NotFound _ | BadZip _ | Unexpected _ _
  | SortFailed _ _ => true
  | _ => false
  end.

(** Nothing is deleted and nothing changes its kind from [t] to [t']:
    every path of [t] is a path of [t'], to a directory when it was one and
    to a regular file when it was one. *)
Definition kinds_kept (t t' : node) : Prop :=
  forall p n,
    lookup t p = Some n ->
    exists n', lookup t' p = Some n' /\ is_dir n' = is_dir n.








(** ** Trees the statements are about *)


(** The members of an archive. *)
Definition members_of (a : node) : entries_t :=
  match a with
  | Archive ms => ms
  | _ => []
  end.



(** The folder of the first scenario: [a.zip] around [b.zip] around
    [report.pdf] and [data.csv], and the loose file [notes.csv], listed in
    either order. *)
Definition inner_zip : node :=
  Archive [("report.pdf", File "pdf bytes"); ("data.csv", File "csv bytes")].

Definition outer_zip : node := Archive [("b.zip", inner_zip)].

Definition scenario_folder (notes_first : bool) : node :=
  Dir (if notes_first
       then [("notes.csv", File "notes"); ("a.zip", outer_zip)]
       else [("a.zip", outer_zip); ("notes.csv", File "notes")]).

(** A folder with one plain file. *)
Definition only_notes : node := Dir [("notes.txt", File "n")].

(** A folder with one archive, for a second run of the unpacking. *)
Definition one_archive : node :=
  Dir [("a.zip", Archive [("x.txt", File "x")])].



(** A working area with two files of the same name in two sub-folders, and
    the selected folder that holds it next to a fresh [Merged/]. *)
Definition same_name_tree : node :=
  Dir [("d1", Dir [("x.csv", File "1")]);
       ("d2", Dir [("x.csv", File "2")]);
       ("y.txt", File "y")].

Definition same_name_twice : node :=
  Dir [("Extracted", same_name_tree); ("Merged", Dir [])].

(** A sub-folder that holds a regular file [a] next to an archive [a.zip]
    without members. *)
Definition stem_is_a_file : node :=
  Dir [("d", Dir [("a", File "plain"); ("a.zip", Archive [])])].

(** A folder that holds a directory [a] with a file, and a file [a.zip]
    that is no zip container. *)
Definition bad_archive_next_to_folder : node :=
  Dir [("a", Dir [("keep.txt", File "k")]); ("a.zip", File "garbage")].

(** A folder that holds only a file [a.zip] that is no zip container. *)
Definition bad_archive_alone : node := Dir [("a.zip", File "garbage")].

(** A folder that holds only an archive [a.zip] whose second member is
    damaged. *)
Definition damaged_archive_alone : node :=
  Dir [("a.zip",
        Archive [("ok.txt", File "1"); ("bad.bin", Damaged None);
                 ("late.txt", File "2")])].

(** A regular file that [zipfile.ZipFile] cannot open. *)
Definition no_zip_container (f : node) : bool :=
  match f with
  | File _ | Damaged _ => true
  | _ => false
  end.

(** What a file named [*.zip] for which [zipfile] raises [BadZipFile] leaves
    in its target directory, which held [old]: nothing new when the file is
    no zip container and [ZipFile] cannot open it; the members that were
    written before the damaged one when [extractall] meets a damaged member.
    [None] for a file that is not corrupt in one of these ways. *)
Definition bad_zip_leaves (f : node) (old : entries_t) : option entries_t :=
  match f with
  | File _ | Damaged _ => Some old
  | Archive ms =>
      match extract_members ms old with
      | (kept, Some BadZipFile) => Some kept
      | _ => None
      end
  | Dir _ => None
  end.

(** ** Devices of the proofs *)

(** Induction on trees, with the property at hand for every member of an
    archive and every entry of a directory. *)
Section node_induction.
Variable P : node -> Prop.
Hypothesis P_File : forall data, P (File data).
Hypothesis P_Archive :
  forall ms, Forall (fun e => P (snd e)) ms -> P (Archive ms).
Hypothesis P_Dir : forall es, Forall (fun e => P (snd e)) es -> P (Dir es).
Hypothesis P_Damaged : forall written, P (Damaged written).

Fixpoint node_induction (n : node) : P n :=
  let all :=
    fix all (l : entries_t) : Forall (fun e => P (snd e)) l :=
      match l with
      | [] => Forall_nil _
      | e :: l' => Forall_cons e (node_induction (snd e)) (all l')
      end in
  match n with
  | File data => P_File data
  | Archive ms => P_Archive ms (all ms)
  | Dir es => P_Dir es (all es)
  | Damaged written => P_Damaged written
  end.
End node_induction.

(** The sub-directories of the directory at [cur], with their paths. *)
Definition subdirs (cur : path) (es : entries_t) : list (path * node) :=
  map (fun e => (cur ++ [fst e], snd e)) (filter (fun e => is_dir (snd e)) es).

(** [e] is a directory of [t] with its path, well formed and without a file
    named as an archive. *)
Definition plain_dir_at (t : node) (e : path * node) : Prop :=
  lookup t (fst e) = Some (snd e) /\ is_dir (snd e) = true /\
  wf (snd e) = true /\ zip_free (snd e) = true.

(** The log pane, the progress bar and the dialogs are the same in both
    states. *)
Definition same_widgets (s s' : state) : Prop :=
  log_text s' = log_text s /\ progress_value s' = progress_value s /\
  progress_maximum s' = progress_maximum s /\ dialogs s' = dialogs s.

(** A computation that deletes nothing, however it ends. *)
Definition keeps {A} (m : M A) : Prop :=
  forall st, kinds_kept (fs st) (fs (snd (m st))).

(** ** Paths that part ways *)

(** [p] and [q] differ at a name before either ends: neither is a prefix of
    the other. *)
Fixpoint diverge (p q : path) : bool :=
  match p, q with
  | x :: p', y :: q' => if String.eqb x y then diverge p' q' else true
  | _, _ => false
  end.

(** A computation that writes below [base] only: what lies on a path that
    parts from [base] is as before, however the computation ends. *)
Definition writes_under {A} (base : path) (m : M A) : Prop :=
  forall st p,
    diverge base p = true -> lookup (fs (snd (m st))) p = lookup (fs st) p.


(** ** The height of a tree *)

(** The longest chain of nesting below a node, through directories and
    through archives alike: an archive counts as the directory it is
    extracted to. *)
Fixpoint height (n : node) : nat :=
  match n with
  | File _ | Damaged _ => 1
  | Archive ms => S (list_max (map (fun e => height (snd e)) ms))
  | Dir es => S (list_max (map (fun e => height (snd e)) es))
  end.

Definition children_le (k : nat) (es : entries_t) : Prop :=
  Forall (fun e => height (snd e) <= k) es.

(** A computation that leaves what lies at [p] as it is. *)
Definition untouched {A} (p : path) (m : M A) : Prop :=
  forall st, lookup (fs (snd (m st))) p = lookup (fs st) p.

(** A selected folder with an archive and a sub-folder. *)
Definition small_folder : node :=
  Dir [("a.zip", outer_zip); ("docs", Dir [("x.csv", File "1")])].

(** [copy_to_extracted_folder] with the list that [os.listdir] returns for
    the source given: the order of that list is not the program's choice. *)
Definition copy_to_extracted_folder_listed (listing : list string)
  (fuel : nat) (source_folder extraction_base_path : path) : M unit :=
  e <- os_path_exists extraction_base_path ;;
  when (negb e) (os_makedirs false extraction_base_path) ;;
  for_each listing
    (fun item _ => stage_item fuel source_folder extraction_base_path item) tt.

(** ** The log and the progress bar *)

(** The log lines that are followed by a step of the progress bar. *)
Definition is_success (l : log_entry) : bool :=
  match l with
  | CopiedFolder _ _ | CopiedZip _ _ | Extracted _ _ | CopiedCSV _ _
  | CopiedPDF _ _ => true
  | _ => false
  end.

Definition successes (l : list log_entry) : nat :=
  List.length (filter is_success l).

(** A computation that only appends to the log, steps the progress bar once
    for every success line it appends, writes no completion line and shows
    no dialog, however it ends. *)
Definition ledger {A} (m : M A) : Prop :=
  forall st, exists l,
    log_text (snd (m st)) = log_text st ++ l /\
    progress_value (snd (m st)) = progress_value st + successes l /\
    dialogs (snd (m st)) = dialogs st /\
    ~ In Completed l.

(** A computation that writes to no widget. *)
Definition silent {A} (m : M A) : Prop :=
  forall st, same_widgets st (snd (m st)).

(** A computation that only appends to the log and steps the progress bar
    once for every success line it appends. *)
Definition tally {A} (m : M A) : Prop :=
  forall st, exists l,
    log_text (snd (m st)) = log_text st ++ l /\
    progress_value (snd (m st)) = progress_value st + successes l.

(** A computation that ends with the completion dialog and the completion
    line when it returns, and shows and writes neither when it does not. *)
Definition reports {A} (m : M A) : Prop :=
  forall st, exists l,
    ~ In Completed l /\
    match fst (m st) with
    | Ret _ =>
        dialogs (snd (m st)) = dialogs st ++ [ShowInfo] /\
        log_text (snd (m st)) = log_text st ++ l ++ [Completed]
    | _ =>
        dialogs (snd (m st)) = dialogs st /\
        log_text (snd (m st)) = log_text st ++ l
    end.

(** ** What staging takes *)

(** The entries [copy_to_extracted_folder] copies: directories, and regular
    files whose name ends with [".zip"]. *)
Definition staged (e : string * node) : bool :=
  is_dir (snd e) || endswith (fst e) ".zip".

(** The success line of a staged entry. *)
Definition staging_line (source_folder extraction_base_path : path)
  (e : string * node) : log_entry :=
  if is_dir (snd e)
  then CopiedFolder (source_folder ++ [fst e]) (extraction_base_path ++ [fst e])
  else CopiedZip (source_folder ++ [fst e]) (extraction_base_path ++ [fst e]).

(** One turn of the loop of [shutil.copytree]. *)
Definition copytree_entry (fuel : nat) (src dst : path) (name : string)
  (errors : nat) : M nat :=
  try_except
    (d <- os_path_isdir (src ++ [name]) ;;
     (if d then shutil_copytree fuel (src ++ [name]) (dst ++ [name])
      else shutil_copy (src ++ [name]) (dst ++ [name])) ;;
     ret errors)
    (fun e =>
       match e with
       | ShutilError k => ret (errors + k)
       | _ => ret (errors + 1)
       end).

(** With [fuel] turns, [shutil.copytree] copies every well-formed tree of
    that height to a new name in a directory it does not read from. *)
Definition copies_trees (fuel : nat) : Prop :=
  forall (src dst : path) (x : string) (es des : entries_t) (st : state),
    height (Dir es) <= fuel ->
    wf (Dir es) = true ->
    lookup (fs st) src = Some (Dir es) ->
    lookup (fs st) dst = Some (Dir des) ->
    assoc x des = None ->
    diverge src (dst ++ [x]) = true ->
    exists t,
      put (fs st) (dst ++ [x]) (Dir es) = Some t /\
      shutil_copytree fuel src (dst ++ [x]) st = (Ret tt, with_fs st t).

(** ** The paths the stack loop scans *)




(** ** Archives that are served *)

(** The archive [x] of the directory [q] is served by a stack and a tree:
    [q] lies at or below a path of the stack and is still to be scanned, or
    the directory named by the stem of [x] stands next to [x], or the path
    of that directory is on the stack. *)
Definition served (stack : list path) (t : node) (q : path) (x : string)
  : Prop :=
  (exists s r, In s stack /\ q = s ++ r) \/
  (exists es, lookup t (q ++ [splitext_root x]) = Some (Dir es)) \/
  In (q ++ [splitext_root x]) stack.

(** The archive [x] of the directory [q] is awaited by the scan of [cur]:
    it is an item of [cur] the scan has not reached, or it lies below such
    an item. *)
Definition awaited (cur : path) (todo : list string) (q : path) (x : string)
  : Prop :=
  (q = cur /\ In x todo) \/ (exists c r, In c todo /\ q = cur ++ c :: r).

(** What the stack loop keeps while [cur] is scanned: every file named
    [*.zip] below [base] that is an archive is served or awaited. *)
Definition scan_inv (base cur : path) (todo : list string)
  (stack : list path) (t : node) : Prop :=
  forall r x ms,
    lookup t ((base ++ r) ++ [x]) = Some (Archive ms) ->
    endswith x ".zip" = true ->
    served stack t (base ++ r) x \/ awaited cur todo (base ++ r) x.

(** * Properties *)

(** ** Strings *)

Example endswith_zip : endswith "a.zip" ".zip" = true.
Proof. reflexivity. Qed.

Example endswith_short : endswith "zip" ".zip" = false.
Proof. reflexivity. Qed.

Example endswith_case : endswith "A.ZIP" ".zip" = false.
Proof. reflexivity. Qed.

Example splitext_root_zip : splitext_root "a.zip" = "a".
Proof. reflexivity. Qed.

Example splitext_root_two_dots : splitext_root "a.tar.zip" = "a.tar".
Proof. reflexivity. Qed.

Example splitext_root_leading_dot : splitext_root ".zip" = ".zip".
Proof. reflexivity. Qed.

Lemma length_append (s1 s2 : string) :
  String.length (s1 ++ s2)%string = String.length s1 + String.length s2.
Proof.
  induction s1 as [|c s1 IH]; simpl; [reflexivity|]. rewrite IH. reflexivity.
Qed.

Lemma substring_all (s : string) : substring 0 (String.length s) s = s.
Proof.
  induction s as [|c s IH]; simpl; [reflexivity|]. rewrite IH. reflexivity.
Qed.

Lemma substring_append (pre s : string) (m : nat) :
  substring (String.length pre) m (pre ++ s)%string = substring 0 m s.
Proof. induction pre as [|c pre IH]; simpl; [reflexivity|exact IH]. Qed.

Lemma substring_split (s : string) :
  forall i, i <= String.length s ->
    s = (substring 0 i s ++ substring i (String.length s - i) s)%string.
Proof.
  induction s as [|c s IH]; intros i Hi; simpl in *.
  - destruct i; reflexivity.
  - destruct i as [|i]; simpl.
    + rewrite substring_all. reflexivity.
    + rewrite <- (IH i) by lia. reflexivity.
Qed.

Lemma endswith_iff (s suffix : string) :
  endswith s suffix = true <-> exists pre, s = (pre ++ suffix)%string.
Proof.
  unfold endswith. split.
  - intros H. apply andb_true_iff in H. destruct H as [Hle Heq].
    apply Nat.leb_le in Hle. apply String.eqb_eq in Heq.
    exists (substring 0 (String.length s - String.length suffix) s).
    pose proof (substring_split s (String.length s - String.length suffix))
      as H.
    replace (String.length s - (String.length s - String.length suffix))
      with (String.length suffix) in H by lia.
    rewrite Heq in H. apply H. lia.
  - intros [pre ->]. rewrite length_append. apply andb_true_iff. split.
    + apply Nat.leb_le. lia.
    + replace (String.length pre + String.length suffix - String.length suffix)
        with (String.length pre) by lia.
      rewrite substring_append, substring_all. apply String.eqb_refl.
Qed.

Lemma list_ascii_of_string_app (s1 s2 : string) :
  list_ascii_of_string (s1 ++ s2)%string =
  list_ascii_of_string s1 ++ list_ascii_of_string s2.
Proof.
  induction s1 as [|c s1 IH]; simpl; [reflexivity|]. rewrite IH. reflexivity.
Qed.

Lemma string_of_list_ascii_app (l1 l2 : list ascii) :
  string_of_list_ascii (l1 ++ l2) =
  (string_of_list_ascii l1 ++ string_of_list_ascii l2)%string.
Proof.
  induction l1 as [|c l1 IH]; simpl; [reflexivity|]. rewrite IH. reflexivity.
Qed.

Lemma append_assoc (a b c : string) :
  ((a ++ b) ++ c = a ++ (b ++ c))%string.
Proof.
  induction a as [|x a IH]; simpl; [reflexivity|]. rewrite IH. reflexivity.
Qed.

(** [full_path.endswith('.zip')] is [item.endswith('.zip')]. *)
Lemma full_path_endswith_zip (folder item : string) :
  endswith (os_path_join folder item) ".zip" = endswith item ".zip".
Proof.
  unfold os_path_join.
  destruct (endswith item ".zip") eqn:E.
  - apply endswith_iff in E. destruct E as [pre ->].
    apply endswith_iff. exists (folder ++ "/" ++ pre)%string.
    rewrite !append_assoc. reflexivity.
  - destruct (endswith (folder ++ "/" ++ item) ".zip") eqn:F; [|reflexivity].
    apply endswith_iff in F. destruct F as [pre F].
    assert (E' : endswith item ".zip" = true); [|congruence].
    apply endswith_iff.
    apply (f_equal list_ascii_of_string) in F.
    rewrite !list_ascii_of_string_app in F. simpl in F.
    apply (f_equal (@rev ascii)) in F.
    rewrite !rev_app_distr in F. simpl in F.
    rewrite <- (string_of_list_ascii_of_string item).
    rewrite <- (rev_involutive (list_ascii_of_string item)).
    destruct (rev (list_ascii_of_string item)) as [|a [|b [|c [|d l]]]];
      simpl in F; try (inversion F; fail).
    inversion F. subst.
    exists (string_of_list_ascii (rev l)).
    simpl. rewrite <- !app_assoc. simpl.
    rewrite string_of_list_ascii_app. reflexivity.
Qed.

(** ** Association lists *)

Lemma assoc_app (x : string) (es es' : entries_t) :
  assoc x (es ++ es') =
  match assoc x es with Some n => Some n | None => assoc x es' end.
Proof.
  induction es as [|[y n] es IH]; simpl; [reflexivity|].
  destruct (String.eqb x y); [reflexivity|exact IH].
Qed.

Lemma assoc_set_entry_same (x : string) (v : node) (es : entries_t) :
  assoc x (set_entry x v es) =
  match assoc x es with Some _ => Some v | None => None end.
Proof.
  induction es as [|[y n] es IH]; simpl; [reflexivity|].
  destruct (String.eqb x y) eqn:E; simpl; rewrite E; [reflexivity|exact IH].
Qed.

Lemma assoc_set_entry_other (x y : string) (v : node) (es : entries_t) :
  x <> y -> assoc y (set_entry x v es) = assoc y es.
Proof.
  intros N. induction es as [|[z n] es IH]; simpl; [reflexivity|].
  destruct (String.eqb x z) eqn:E; simpl.
  - apply String.eqb_eq in E. subst z.
    destruct (String.eqb y x) eqn:E'; [|reflexivity].
    apply String.eqb_eq in E'. congruence.
  - destruct (String.eqb y z); [reflexivity|exact IH].
Qed.

Lemma set_entry_same (x : string) (c : node) (es : entries_t) :
  assoc x es = Some c -> set_entry x c es = es.
Proof.
  induction es as [|[y n] es IH]; simpl; [reflexivity|].
  destruct (String.eqb x y) eqn:E; intros H.
  - inversion H. reflexivity.
  - rewrite IH by exact H. reflexivity.
Qed.

Lemma set_entry_twice (x : string) (v w : node) (es : entries_t) :
  set_entry x w (set_entry x v es) = set_entry x w es.
Proof.
  induction es as [|[y n] es IH]; simpl; [reflexivity|].
  destruct (String.eqb x y) eqn:E; simpl; rewrite E; [reflexivity|].
  rewrite IH. reflexivity.
Qed.

Lemma set_entry_app_new (x : string) (v w : node) (es : entries_t) :
  assoc x es = None -> set_entry x w (es ++ [(x, v)]) = es ++ [(x, w)].
Proof.
  induction es as [|[y n] es IH]; simpl; intros H.
  - rewrite String.eqb_refl. reflexivity.
  - destruct (String.eqb x y); [discriminate|].
    rewrite IH by exact H. reflexivity.
Qed.


Lemma assoc_In (x : string) (n : node) (es : entries_t) :
  assoc x es = Some n -> In (x, n) es.
Proof.
  induction es as [|[y m] es IH]; simpl; [discriminate|].
  destruct (String.eqb x y) eqn:E; intros H.
  - apply String.eqb_eq in E. inversion H. subst. left. reflexivity.
  - right. apply IH. exact H.
Qed.

Lemma assoc_None_names (x : string) (es : entries_t) :
  assoc x es = None <-> ~ In x (names es).
Proof.
  induction es as [|[y m] es IH]; simpl.
  - split; [intros _ H; exact H|reflexivity].
  - destruct (String.eqb x y) eqn:E.
    + apply String.eqb_eq in E. subst y.
      split; [discriminate|]. intros H. exfalso. apply H. left. reflexivity.
    + apply String.eqb_neq in E. rewrite IH. split.
      * intros H [H'|H']; [congruence|exact (H H')].
      * intros H H'. apply H. right. exact H'.
Qed.

(** ** Paths *)

Lemma lookup_app (n : node) (p q : path) :
  lookup n (p ++ q) =
  match lookup n p with Some m => lookup m q | None => None end.
Proof.
  revert n. induction p as [|x p IH]; intros n; simpl; [reflexivity|].
  destruct n as [d|ms|es|?]; try reflexivity.
  destruct (assoc x es) as [c|]; [apply IH|reflexivity].
Qed.

Lemma put_app (n m : node) (p q : path) (v : node) :
  lookup n p = Some m ->
  put n (p ++ q) v =
  match put m q v with Some m' => put n p m' | None => None end.
Proof.
  revert n. induction p as [|x p IH]; intros n; simpl.
  - intros H. inversion H. destruct (put m q v); reflexivity.
  - destruct n as [d|ms|es|?]; try discriminate.
    destruct (assoc x es) as [c|] eqn:E; [|discriminate].
    intros H. rewrite (IH c H).
    destruct (put m q v) as [m'|]; reflexivity.
Qed.

Lemma put_defined (n m : node) (p : path) (v : node) :
  lookup n p = Some m -> exists n', put n p v = Some n'.
Proof.
  revert n. induction p as [|x p IH]; intros n; simpl.
  - intros _. eexists. reflexivity.
  - destruct n as [d|ms|es|?]; try discriminate.
    destruct (assoc x es) as [c|] eqn:E; [|discriminate].
    intros H. destruct (IH c H) as [c' Hc']. rewrite Hc'.
    eexists. reflexivity.
Qed.

Lemma lookup_put_same (n n' : node) (p : path) (v : node) :
  put n p v = Some n' -> lookup n' p = Some v.
Proof.
  revert n n'. induction p as [|x p IH]; intros n n'; simpl.
  - intros H. symmetry. exact H.
  - destruct n as [d|ms|es|?]; try discriminate.
    destruct (assoc x es) as [c|] eqn:E.
    + destruct (put c p v) as [c'|] eqn:Ec; [|discriminate].
      intros H. inversion H. rewrite assoc_set_entry_same, E.
      apply (IH c c' Ec).
    + destruct p; [|discriminate].
      intros H. inversion H. rewrite assoc_app, E. simpl.
      rewrite String.eqb_refl. reflexivity.
Qed.

Lemma put_put (n n' : node) (p : path) (v w : node) :
  put n p v = Some n' -> put n' p w = put n p w.
Proof.
  revert n n'. induction p as [|x p IH]; intros n n'; simpl.
  - reflexivity.
  - destruct n as [d|ms|es|?]; try discriminate.
    destruct (assoc x es) as [c|] eqn:E.
    + destruct (put c p v) as [c'|] eqn:Ec; [|discriminate].
      intros H. inversion H. rewrite assoc_set_entry_same, E.
      rewrite (IH c c' Ec).
      destruct (put c p w); [rewrite set_entry_twice|]; reflexivity.
    + destruct p; [|discriminate].
      intros H. inversion H. rewrite assoc_app, E. simpl.
      rewrite String.eqb_refl. simpl.
      rewrite set_entry_app_new by exact E. reflexivity.
Qed.

Lemma put_same (n m : node) (p : path) :
  lookup n p = Some m -> put n p m = Some n.
Proof.
  revert n. induction p as [|x p IH]; intros n; simpl.
  - intros H. inversion H. reflexivity.
  - destruct n as [d|ms|es|?]; try discriminate.
    destruct (assoc x es) as [c|] eqn:E; [|discriminate].
    intros H. rewrite (IH c H). rewrite set_entry_same by exact E.
    reflexivity.
Qed.

Lemma mkdirs_app (n m : node) (p q : path) :
  lookup n p = Some m ->
  mkdirs n (p ++ q) =
  match mkdirs m q with Some m' => put n p m' | None => None end.
Proof.
  revert n. induction p as [|x p IH]; intros n; simpl.
  - intros H. inversion H. destruct (mkdirs m q); reflexivity.
  - destruct n as [d|ms|es|?]; try discriminate.
    destruct (assoc x es) as [c|] eqn:E; [|discriminate].
    intros H. rewrite (IH c H).
    destruct (mkdirs m q) as [m'|]; reflexivity.
Qed.

(** ** One archive, extracted to a directory that is not there yet *)

Lemma mkdirs_new_child (es : entries_t) (x : string) :
  assoc x es = None -> mkdirs (Dir es) [x] = Some (Dir (es ++ [(x, Dir [])])).
Proof. intros H. simpl. rewrite H. reflexivity. Qed.


(** ** Nested archives *)






(** ** Unpacking a tree without archives *)

Lemma nodupb_assoc (es : entries_t) (x : string) (c : node) :
  nodupb (names es) = true -> In (x, c) es -> assoc x es = Some c.
Proof.
  induction es as [|[y m] es IH]; simpl; [intros _ []|].
  intros H [E|Hin]; apply andb_true_iff in H; destruct H as [Hy Hes].
  - inversion E. subst. rewrite String.eqb_refl. reflexivity.
  - destruct (String.eqb x y) eqn:E; [|exact (IH Hes Hin)].
    apply String.eqb_eq in E. subst y.
    apply negb_true_iff in Hy.
    assert (existsb (String.eqb x) (names es) = true); [|congruence].
    apply existsb_exists. exists x. split; [|apply String.eqb_refl].
    apply (in_map fst _ _ Hin).
Qed.

(** A turn on a directory, or on a file that is not named as an archive,
    changes nothing but the stack. *)
Lemma extract_item_plain (cur : path) (x : string) (c : node)
  (stack : list path) (st : state) :
  lookup (fs st) (cur ++ [x]) = Some c ->
  (if is_dir c then true else negb (endswith x ".zip")) = true ->
  extract_item cur x stack st =
  (Ret (if is_dir c then (cur ++ [x]) :: stack else stack), st).
Proof.
  intros Hc Hplain.
  unfold extract_item, try_except, bind, os_path_isfile, os_path_isdir.
  rewrite Hc. unfold is_file.
  destruct (is_dir c) eqn:Ed; simpl.
  - rewrite Hc, Ed. reflexivity.
  - apply negb_true_iff in Hplain. rewrite Hplain, Hc, Ed. reflexivity.
Qed.

Lemma scan_plain (cur : path) (st : state) (l : entries_t) :
  forall stack,
    (forall x c, In (x, c) l ->
       lookup (fs st) (cur ++ [x]) = Some c /\
       (if is_dir c then true else negb (endswith x ".zip")) = true) ->
    for_each (names l) (extract_item cur) stack st =
    (Ret (map fst (rev (subdirs cur l)) ++ stack), st).
Proof.
  induction l as [|[x c] l IH]; intros stack H; [reflexivity|].
  simpl. unfold bind.
  destruct (H x c (or_introl eq_refl)) as [Hc Hplain].
  rewrite (extract_item_plain cur x c stack st Hc Hplain).
  rewrite IH by (intros y d Hin; apply H; right; exact Hin).
  unfold subdirs. simpl. destruct (is_dir c); simpl; [|reflexivity].
  rewrite map_app, <- app_assoc. reflexivity.
Qed.

Lemma subdirs_plain (t : node) (cur : path) (es : entries_t) :
  plain_dir_at t (cur, Dir es) ->
  Forall (plain_dir_at t) (subdirs cur es).
Proof.
  intros [Hcur [_ [Hwf Hfree]]]. simpl in *.
  apply andb_true_iff in Hwf. destruct Hwf as [Hnd Hwf].
  apply Forall_forall. intros [q c] Hin.
  apply in_map_iff in Hin. destruct Hin as [[x d] [E Hin]].
  inversion E. subst q c. apply filter_In in Hin. destruct Hin as [Hin Hd].
  simpl in Hd.
  rewrite forallb_forall in Hwf, Hfree.
  specialize (Hwf _ Hin). specialize (Hfree _ Hin). simpl in Hwf, Hfree.
  rewrite Hd in Hfree.
  repeat split; simpl; try assumption.
  rewrite lookup_app, Hcur. simpl.
  rewrite (nodupb_assoc es x d Hnd Hin). reflexivity.
Qed.

Lemma subdirs_dirs (cur : path) (es : entries_t) :
  list_sum (map (fun e => dirs (snd e)) (subdirs cur es)) =
  list_sum (map (fun e => dirs (snd e)) es).
Proof.
  induction es as [|[x c] es IH]; [reflexivity|].
  unfold subdirs in *. simpl. destruct c; simpl; try exact IH.
  rewrite IH. reflexivity.
Qed.

Lemma list_sum_rev (l : list nat) : list_sum (rev l) = list_sum l.
Proof.
  induction l as [|a l IH]; [reflexivity|].
  simpl. rewrite list_sum_app, IH. simpl. lia.
Qed.

(** The stack loop on directories without archives: with one unit of fuel
    per directory it returns, and the state is as before. *)
Lemma drain_plain (fuel : nat) :
  forall (todo : list (path * node)) (st : state),
    Forall (plain_dir_at (fs st)) todo ->
    list_sum (map (fun e => dirs (snd e)) todo) <= fuel ->
    drain fuel (map fst todo) st = (Ret tt, st).
Proof.
  induction fuel as [|fuel IH]; intros todo st Hall Hfuel.
  - destruct todo as [|[p n] todo]; [reflexivity|].
    inversion Hall as [|? ? [_ [Hd _]] _]. simpl in *.
    destruct n; try discriminate. simpl in Hfuel. lia.
  - destruct todo as [|[p n] todo]; [reflexivity|].
    inversion Hall as [|? ? Hp Hrest]. subst.
    assert (Hp' := Hp). destruct Hp' as [Hl [Hd [Hwf Hfree]]]. simpl in *.
    destruct n as [d|ms|es|?]; try discriminate.
    unfold bind at 1. unfold os_listdir. rewrite Hl.
    unfold bind at 1.
    rewrite (scan_plain p st es).
    + rewrite <- map_app. apply IH.
      * apply Forall_app. split; [|exact Hrest].
        apply Forall_rev. apply (subdirs_plain _ _ _ Hp).
      * rewrite map_app, list_sum_app, map_rev, list_sum_rev, subdirs_dirs.
        simpl in Hfuel. lia.
    + intros x c Hin. split.
      * rewrite lookup_app, Hl. simpl.
        apply andb_true_iff in Hwf. destruct Hwf as [Hnd _].
        rewrite (nodupb_assoc es x c Hnd Hin). reflexivity.
      * simpl in Hfree. rewrite forallb_forall in Hfree.
        specialize (Hfree _ Hin). simpl in Hfree.
        destruct (is_dir c); [reflexivity|exact Hfree].
Qed.

(** ** Whole runs on the scenarios *)

(** C1 as stated fails: after the run on the scenario folder there is no
    [notes.csv] in [Merged/All_CSVs]. *)
Lemma C1_notes_csv_is_not_collected :
  ~ (exists f,
       lookup
         (fs (snd (select_folder_and_process 20 (Some [])
                     (initial (scenario_folder false)))))
         ["Merged"; "All_CSVs"; "notes.csv"] = Some f).
Proof. vm_compute. intros [f H]. discriminate H. Qed.

(** C1 (amended): on the folder with [a.zip] (around [b.zip], around
    [report.pdf] and [data.csv]) and the loose [notes.csv], in either listing
    order, the run ends with the completion dialog; [Extracted/a/b/report.pdf]
    and [Extracted/a/b/data.csv] are there, [Merged/All_PDFs] holds
    [report.pdf] and [Merged/All_CSVs] holds [data.csv] only: the loose
    [notes.csv] is not staged (staging takes folders and [.zip] files); it
    and [a.zip] stay in the selected folder. *)
Theorem C1_scenario_run (notes_first : bool) :
  let r := select_folder_and_process 20 (Some [])
             (initial (scenario_folder notes_first)) in
  fst r = Ret tt /\
  dialogs (snd r) = [ShowInfo] /\
  lookup (fs (snd r)) ["Extracted"; "a"; "b"; "report.pdf"] =
    Some (File "pdf bytes") /\
  lookup (fs (snd r)) ["Extracted"; "a"; "b"; "data.csv"] =
    Some (File "csv bytes") /\
  lookup (fs (snd r)) ["Merged"; "All_PDFs"] =
    Some (Dir [("report.pdf", File "pdf bytes")]) /\
  lookup (fs (snd r)) ["Merged"; "All_CSVs"] =
    Some (Dir [("data.csv", File "csv bytes")]) /\
  lookup (fs (snd r)) ["Extracted"; "notes.csv"] = None /\
  lookup (fs (snd r)) ["a.zip"] = Some outer_zip /\
  lookup (fs (snd r)) ["notes.csv"] = Some (File "notes").
Proof. destruct notes_first; vm_compute; repeat split. Qed.

(** C7 (the run the code does not survive): a staged folder holds a regular
    file [a] next to an archive [a.zip] without members.  The extraction
    succeeds without touching [a], the path of [a] is pushed, and
    [os.listdir] of it, outside every [try], raises: the run ends with
    [NotADirectoryError], nothing is sorted, no dialog is shown. *)
Theorem C7_listdir_error_ends_the_run :
  let r := select_folder_and_process 20 (Some []) (initial stem_is_a_file) in
  fst r = Raise NotADirectoryError /\
  dialogs (snd r) = [] /\
  lookup (fs (snd r)) ["Merged"; "All_CSVs"] = None /\
  existsb is_error (log_text (snd r)) = false.
Proof. vm_compute. repeat split. Qed.

(** C8 as stated fails: after the run on an empty folder [Extracted/] is not
    empty and the log is not empty. *)
Lemma C8_empty_folder_is_not_left_empty :
  let r := select_folder_and_process 20 (Some []) (initial (Dir [])) in
  lookup (fs (snd r)) ["Extracted"] <> Some (Dir []) /\
  log_text (snd r) <> [].
Proof. vm_compute. split; intros H; discriminate H. Qed.

(** C8 (amended): on an empty folder the run ends with the completion
    dialog; [Merged/] holds the two empty folders [All_CSVs] and [All_PDFs],
    [Extracted/] is a directory without any regular file below it, the
    progress maximum is 0, and the log has no error line and ends with the
    completion line. *)
Theorem C8_empty_folder_run :
  let r := select_folder_and_process 20 (Some []) (initial (Dir [])) in
  fst r = Ret tt /\
  dialogs (snd r) = [ShowInfo] /\
  lookup (fs (snd r)) ["Merged"] =
    Some (Dir [("All_CSVs", Dir []); ("All_PDFs", Dir [])]) /\
  (exists es,
     lookup (fs (snd r)) ["Extracted"] = Some (Dir es) /\
     flat_map snd (walk_node ["Extracted"] (Dir es)) = []) /\
  progress_maximum (snd r) = 0 /\
  existsb is_error (log_text (snd r)) = false /\
  last (log_text (snd r)) Completed = Completed /\
  extractions (log_text (snd r)) = 0.
Proof.
  vm_compute. repeat split; try (eexists; split; reflexivity).
Qed.

(** ** A second run of the unpacking *)

(** C4 as stated fails: the first run on a folder with one archive returns,
    and the second run on the tree it left extracts that archive again. *)
Lemma C4_second_run_extracts_again :
  exists st1 st2,
    find_and_extract_zip_files 3 [] (initial one_archive) = (Ret tt, st1) /\
    find_and_extract_zip_files 3 [] (initial (fs st1)) = (Ret tt, st2) /\
    extractions (log_text st2) = 1.
Proof. do 2 eexists. vm_compute. repeat split. Qed.

(** C4 (amended): a run of the unpacking performs no extraction on a tree
    in which no file is named [*.zip] (every directory listing a name once):
    it returns, with one turn of the loop per directory, and the tree, the
    log and the progress bar are as before.  (An unpacked tree that still
    holds its archives is no such tree: a second run extracts them again.) *)
Theorem C4_no_archive_no_extraction (fuel : nat) (p : path) (n : node)
  (st : state) :
  lookup (fs st) p = Some n ->
  is_dir n = true ->
  wf n = true ->
  zip_free n = true ->
  dirs n <= fuel ->
  find_and_extract_zip_files fuel p st = (Ret tt, st).
Proof.
  intros Hp Hd Hwf Hfree Hfuel.
  unfold find_and_extract_zip_files.
  apply (drain_plain fuel [(p, n)] st).
  - constructor; [|constructor]. repeat split; assumption.
  - simpl. lia.
Qed.

(** A folder with a sub-folder and two files, none named as an archive. *)
Lemma C4_no_archive_no_extraction_witness :
  let t := Dir [("d", Dir [("x.txt", File "x")]); ("y.csv", File "y")] in
  find_and_extract_zip_files 2 [] (initial t) = (Ret tt, initial t).
Proof.
  intros t.
  apply (C4_no_archive_no_extraction 2 [] t (initial t));
    solve [reflexivity | simpl; lia].
Defined.

(** ** Staging a folder of plain files *)

Lemma for_each_app {A B} (xs ys : list A) (body : A -> B -> M B) (acc : B)
  (st : state) :
  for_each (xs ++ ys) body acc st =
  (acc' <- for_each xs body acc ;; for_each ys body acc') st.
Proof.
  revert acc st. induction xs as [|x xs IH]; intros acc st; simpl.
  - reflexivity.
  - unfold bind in *. destruct (body x acc st) as [[a|e|] st1];
      [apply IH|reflexivity|reflexivity].
Qed.

Lemma stage_item_plain (fuel : nat) (item : string) (c : node) (st : state) :
  lookup (fs st) [item] = Some c ->
  plain_file (item, c) = true ->
  stage_item fuel [] ["Extracted"] item st = (Ret tt, st).
Proof.
  intros Hc Hplain. apply andb_true_iff in Hplain.
  destruct Hplain as [Hf Hz]. simpl in Hf, Hz.
  apply negb_true_iff in Hz.
  unfold stage_item, try_except, bind, os_path_isdir, os_path_isfile.
  cbv zeta. change ([] ++ [item]) with [item].
  rewrite Hc. unfold is_file in *.
  apply negb_true_iff in Hf. rewrite Hf, Hc, Hf. simpl. rewrite Hz.
  reflexivity.
Qed.

Lemma stage_plain_files (fuel : nat) (st : state) (l : entries_t) :
  (forall x c, In (x, c) l ->
     exists d, lookup (fs st) [x] = Some d /\ plain_file (x, d) = true) ->
  for_each (names l)
    (fun item _ => stage_item fuel [] ["Extracted"] item) tt st = (Ret tt, st).
Proof.
  induction l as [|[x c] l IH]; intros H; [reflexivity|].
  simpl. unfold bind.
  destruct (H x c (or_introl eq_refl)) as [d [Hd Hplain]].
  rewrite (stage_item_plain fuel x d st Hd Hplain).
  apply IH. intros y e Hin. apply (H y e). right. exact Hin.
Qed.

Lemma assoc_names (x : string) (es : entries_t) :
  In x (names es) -> exists c, assoc x es = Some c /\ In (x, c) es.
Proof.
  intros Hin. destruct (assoc x es) as [c|] eqn:E.
  - exists c. split; [reflexivity|exact (assoc_In _ _ _ E)].
  - apply assoc_None_names in E. contradiction.
Qed.

Lemma copytree_empty (fuel : nat) (src dst : path) (st : state) (t : node) :
  lookup (fs st) src = Some (Dir []) ->
  lookup (fs st) dst = None ->
  mkdirs (fs st) dst = Some t ->
  shutil_copytree (S fuel) src dst st = (Ret tt, with_fs st t).
Proof.
  intros Hsrc Hdst Ht. simpl.
  unfold bind, os_listdir. rewrite Hsrc. simpl.
  unfold os_makedirs. rewrite Hdst, Ht. reflexivity.
Qed.

(** C2 (amended): when the selected folder holds only regular files, none
    named [*.zip] (and none named [Extracted]), staging copies none of them:
    the working area is made, listed with the folder, and receives only the
    empty copy of itself; unpacking the working area then returns and leaves
    the tree, the log and the progress bar unchanged. *)
Theorem C2_plain_files_are_not_staged (es : entries_t) (fuel : nat)
  (st : state) :
  fs st = Dir es ->
  forallb plain_file es = true ->
  assoc "Extracted" es = None ->
  2 <= fuel ->
  let st' :=
    mkState (Dir (es ++ [("Extracted", Dir [("Extracted", Dir [])])]))
      (log_text st ++ [CopiedFolder ["Extracted"] ["Extracted"; "Extracted"]])
      (progress_value st + 1) (progress_maximum st) (dialogs st) in
  copy_to_extracted_folder fuel [] ["Extracted"] st = (Ret tt, st') /\
  find_and_extract_zip_files fuel ["Extracted"] st' = (Ret tt, st').
Proof.
  intros Hfs Hplain Hnew Hfuel st'. split.
  - unfold copy_to_extracted_folder.
    unfold bind at 1. unfold os_path_exists. rewrite Hfs. simpl lookup.
    rewrite Hnew. simpl negb. unfold when.
    unfold bind at 1. unfold os_makedirs. rewrite Hfs. simpl lookup.
    rewrite Hnew. simpl mkdirs. rewrite Hnew.
    unfold bind at 1. unfold os_listdir, with_fs. simpl fs. simpl lookup.
    unfold names. rewrite map_app. simpl map.
    rewrite for_each_app. unfold bind at 1.
    rewrite (stage_plain_files fuel _ es).
    + destruct fuel as [|fuel]; [lia|].
      cbn [for_each]. unfold stage_item, try_except.
      unfold bind at 1. unfold bind at 1. unfold bind at 1.
      unfold os_path_isdir. cbn [lookup fs app]. rewrite assoc_app, Hnew.
      cbn [assoc String.eqb Ascii.eqb Bool.eqb is_dir].
      rewrite (copytree_empty fuel ["Extracted"] ["Extracted"; "Extracted"] _
                 (Dir (es ++ [("Extracted", Dir [("Extracted", Dir [])])]))).
      * reflexivity.
      * simpl. rewrite assoc_app, Hnew. reflexivity.
      * simpl. rewrite assoc_app, Hnew. reflexivity.
      * simpl. rewrite assoc_app, Hnew. simpl.
        rewrite set_entry_app_new by exact Hnew. reflexivity.
    + intros x c Hin. simpl fs. simpl lookup.
      destruct (assoc_names x es (in_map fst _ _ Hin)) as [d [Hd Hind]].
      exists d. rewrite assoc_app, Hd. split; [reflexivity|].
      rewrite forallb_forall in Hplain. exact (Hplain _ Hind).
  - unfold find_and_extract_zip_files.
    apply (drain_plain fuel [(["Extracted"], Dir [("Extracted", Dir [])])]).
    + constructor; [|constructor]. repeat split; try reflexivity.
      simpl. rewrite assoc_app, Hnew. simpl. reflexivity.
    + simpl. lia.
Qed.

(** C2 as stated fails: staging a folder that holds only [notes.txt] leaves
    no [notes.txt] in the working area. *)
Lemma C2_plain_file_is_not_copied :
  ~ (exists f,
       lookup
         (fs (snd (copy_to_extracted_folder 5 [] ["Extracted"]
                     (initial only_notes))))
         ["Extracted"; "notes.txt"] = Some f).
Proof. vm_compute. intros [f H]. discriminate H. Qed.

(** The folder with the one file [notes.txt]. *)
Lemma C2_plain_files_are_not_staged_witness :
  let st' :=
    mkState
      (Dir [("notes.txt", File "n"); ("Extracted", Dir [("Extracted", Dir [])])])
      [CopiedFolder ["Extracted"] ["Extracted"; "Extracted"]] 1 0 [] in
  copy_to_extracted_folder 2 [] ["Extracted"] (initial only_notes) =
    (Ret tt, st') /\
  find_and_extract_zip_files 2 ["Extracted"] st' = (Ret tt, st').
Proof.
  apply (C2_plain_files_are_not_staged [("notes.txt", File "n")] 2
           (initial only_notes));
    solve [reflexivity | simpl; lia].
Defined.

(** ** What one turn of the scan pushes *)


Ltac break_match :=
  repeat match goal with
         | |- context [match ?x with _ => _ end] => destruct x; simpl
         end.

Lemma os_makedirs_widgets (b : bool) (p : path) (st : state) :
  same_widgets st (snd (os_makedirs b p st)) /\
  fst (os_makedirs b p st) <> OutOfFuel.
Proof.
  unfold os_makedirs, same_widgets. break_match;
    (split; [repeat split|discriminate]).
Qed.

Lemma ZipFile_widgets (p : path) (st : state) :
  snd (ZipFile p st) = st /\ fst (ZipFile p st) <> OutOfFuel.
Proof.
  unfold ZipFile. break_match; (split; [reflexivity|discriminate]).
Qed.

Lemma extractall_widgets (ms : entries_t) (p : path) (st : state) :
  same_widgets st (snd (extractall ms p st)) /\
  fst (extractall ms p st) <> OutOfFuel.
Proof.
  unfold extractall, same_widgets. break_match;
    (split; [repeat split|discriminate]).
Qed.

(** The body of the [try] for a file named as an archive: it ends with the
    extraction logged and the target pushed, or it raises with the log pane
    and the progress bar as they were. *)
Lemma archive_branch (cur : path) (item : string) (stack : list path)
  (st : state) :
  let full_path := cur ++ [item] in
  let target := cur ++ [splitext_root item] in
  let r :=
    (e <- os_path_exists target ;;
     when (negb e) (os_makedirs false target) ;;
     zip_ref <- ZipFile full_path ;;
     extractall zip_ref target ;;
     log_message (Extracted full_path target) ;;
     update_progress ;;
     ret (target :: stack)) st in
  (fst r = Ret (target :: stack) /\
   log_text (snd r) = log_text st ++ [Extracted full_path target] /\
   progress_value (snd r) = progress_value st + 1)
  \/
  (exists e, fst r = Raise e /\ same_widgets st (snd r)).
Proof.
  intros full_path target r. subst r.
  unfold bind, os_path_exists.
  assert (Hmk : same_widgets st
                  (snd (when (negb match lookup (fs st) target with
                                   | Some _ => true
                                   | None => false
                                   end)
                          (os_makedirs false target) st)) /\
                fst (when (negb match lookup (fs st) target with
                                | Some _ => true
                                | None => false
                                end)
                       (os_makedirs false target) st) <> OutOfFuel).
  { destruct (lookup (fs st) target); simpl.
    - split; [repeat split|discriminate].
    - apply os_makedirs_widgets. }
  destruct (when _ _ st) as [[[]|e|] s1]; simpl in Hmk;
    destruct Hmk as [[Hl1 [Hp1 [Hm1 Hd1]]] Hf1];
    [|right; exists e; split; [reflexivity|repeat split; assumption]
     |congruence].
  destruct (ZipFile_widgets full_path s1) as [Hs Hf2].
  destruct (ZipFile full_path s1) as [[ms|e|] s2]; simpl in Hs, Hf2; subst s2;
    [|right; exists e; split; [reflexivity|repeat split; assumption]
     |congruence].
  destruct (extractall_widgets ms target s1) as [[Hl3 [Hp3 [Hm3 Hd3]]] Hf3].
  destruct (extractall ms target s1) as [[[]|e|] s3]; simpl in *;
    [|right; exists e; split; [reflexivity|repeat split; congruence]
     |congruence].
  left. unfold log_message, update_progress, ret. simpl.
  repeat split; congruence.
Qed.



(** ** A file named as an archive that is none *)

(** C10 as stated fails: with the directory [a] already there, the turn on
    the bad [a.zip] creates nothing, and the directory left for it is not
    empty; and an [a.zip] that opens but has a damaged member leaves the new
    directory [a] with the member that was written before the damaged
    one. *)
Lemma C10_bad_archive_next_to_its_folder :
  let r := find_and_extract_zip_files 5 [] (initial bad_archive_next_to_folder) in
  let r' := find_and_extract_zip_files 5 [] (initial damaged_archive_alone) in
  (fst r = Ret tt /\
   log_text (snd r) = [BadZip ["a.zip"]] /\
   fs (snd r) = bad_archive_next_to_folder /\
   lookup (fs (snd r)) ["a"] <> Some (Dir [])) /\
  (fst r' = Ret tt /\
   log_text (snd r') = [BadZip ["a.zip"]] /\
   lookup (fs (snd r')) ["a"] = Some (Dir [("ok.txt", File "1")])).
Proof. vm_compute. repeat split. intros H. discriminate H. Qed.

(** ** Unpacking deletes nothing *)

Lemma kinds_kept_refl (t : node) : kinds_kept t t.
Proof. intros p n H. exists n. split; [exact H|reflexivity]. Qed.

Lemma kinds_kept_trans (t1 t2 t3 : node) :
  kinds_kept t1 t2 -> kinds_kept t2 t3 -> kinds_kept t1 t3.
Proof.
  intros H12 H23 p n H.
  destruct (H12 p n H) as [n2 [H2 E2]].
  destruct (H23 p n2 H2) as [n3 [H3 E3]].
  exists n3. split; [exact H3|congruence].
Qed.

Lemma kinds_kept_dir (es es' : entries_t) :
  (forall x c, assoc x es = Some c ->
     exists c', assoc x es' = Some c' /\ kinds_kept c c') ->
  kinds_kept (Dir es) (Dir es').
Proof.
  intros H [|x q] n Hn; simpl in *.
  - inversion Hn. eexists. split; reflexivity.
  - destruct (assoc x es) as [c|] eqn:E; [|discriminate].
    destruct (H x c E) as [c' [E' Hc]]. rewrite E'. exact (Hc q n Hn).
Qed.

Lemma kinds_kept_set_entry (es : entries_t) (x : string) (c c' : node) :
  assoc x es = Some c -> kinds_kept c c' ->
  kinds_kept (Dir es) (Dir (set_entry x c' es)).
Proof.
  intros E Hc. apply kinds_kept_dir. intros y d Hy.
  destruct (string_dec x y) as [->|N].
  - rewrite assoc_set_entry_same, Hy. exists c'. split; [reflexivity|].
    rewrite E in Hy. inversion Hy. subst d. exact Hc.
  - rewrite (assoc_set_entry_other x y c' es N). exists d.
    split; [exact Hy|apply kinds_kept_refl].
Qed.

Lemma kinds_kept_app (es : entries_t) (l : entries_t) :
  kinds_kept (Dir es) (Dir (es ++ l)).
Proof.
  apply kinds_kept_dir. intros y d Hy. rewrite assoc_app, Hy.
  exists d. split; [reflexivity|apply kinds_kept_refl].
Qed.

Lemma kinds_kept_file (c v : node) :
  is_dir c = false -> is_dir v = false -> kinds_kept c v.
Proof.
  intros Hc Hv [|x q] n Hn.
  - simpl in *. inversion Hn. subst n. exists v. split; [reflexivity|].
    congruence.
  - destruct c; simpl in *; discriminate.
Qed.

Lemma kinds_kept_put (p : path) :
  forall t t' v,
    put t p v = Some t' ->
    (forall m, lookup t p = Some m -> kinds_kept m v) ->
    kinds_kept t t'.
Proof.
  induction p as [|x p IH]; intros t t' v Hput Hold; simpl in *.
  - inversion Hput. subst t'. apply Hold. reflexivity.
  - destruct t as [d|ms|es|?]; try discriminate.
    destruct (assoc x es) as [c|] eqn:E.
    + destruct (put c p v) as [c'|] eqn:Ec; [|discriminate].
      inversion Hput. apply (kinds_kept_set_entry es x c c' E).
      exact (IH c c' v Ec Hold).
    + destruct p; [|discriminate]. inversion Hput.
      apply kinds_kept_app.
Qed.

Lemma kinds_kept_mkdirs (p : path) :
  forall t t', mkdirs t p = Some t' -> kinds_kept t t'.
Proof.
  induction p as [|x p IH]; intros t t' H;
    destruct t as [d|ms|es|?]; simpl in H; try discriminate.
  - inversion H. apply kinds_kept_refl.
  - destruct (assoc x es) as [c|] eqn:E.
    + destruct (mkdirs c p) as [c'|] eqn:Ec; [|discriminate].
      inversion H. apply (kinds_kept_set_entry es x c c' E).
      exact (IH c c' Ec).
    + destruct (mkdirs (Dir []) p) as [c'|]; [|discriminate].
      inversion H. apply kinds_kept_app.
Qed.

Lemma mkdirs_lookup_new (p : path) :
  forall t t',
    mkdirs t p = Some t' ->
    lookup t p = None \/ t = Dir [] ->
    lookup t' p = Some (Dir []).
Proof.
  induction p as [|x p IH]; intros t t' H Hnew;
    destruct t as [d|ms|es|?]; simpl in H; try discriminate.
  - inversion H. subst t'. destruct Hnew as [Hnew|Hnew]; [discriminate|].
    simpl. congruence.
  - simpl. destruct (assoc x es) as [c|] eqn:E.
    + destruct (mkdirs c p) as [c'|] eqn:Ec; [|discriminate].
      inversion H. rewrite assoc_set_entry_same, E.
      apply (IH c c' Ec). left.
      destruct Hnew as [Hnew|Hnew].
      * simpl in Hnew. rewrite E in Hnew. exact Hnew.
      * inversion Hnew. subst es. discriminate.
    + destruct (mkdirs (Dir []) p) as [c'|] eqn:Ec; [|discriminate].
      inversion H. rewrite assoc_app, E. simpl. rewrite String.eqb_refl.
      apply (IH (Dir []) c' Ec). right. reflexivity.
Qed.

Lemma extract_member_dir (name : string) (sub es : entries_t) :
  extract_member name (Dir sub) es =
  match assoc name es with
  | Some (Dir ces) =>
      let (ces', r) := extract_members sub ces in
      (set_entry name (Dir ces') es, r)
  | Some _ => (es, Some FileExistsError)
  | None =>
      let (ces', r) := extract_members sub [] in
      (es ++ [(name, Dir ces')], r)
  end.
Proof. reflexivity. Qed.

Lemma extract_members_cons (n : string) (x : node) (ms es : entries_t) :
  extract_members ((n, x) :: ms) es =
  match extract_member n x es with
  | (es1, None) => extract_members ms es1
  | r => r
  end.
Proof. reflexivity. Qed.

Lemma kinds_kept_upsert (es : entries_t) (x : string) (v : node) :
  is_dir v = false ->
  match assoc x es with Some (Dir _) => False | _ => True end ->
  kinds_kept (Dir es) (Dir (upsert x v es)).
Proof.
  intros Hv Hold. unfold upsert.
  destruct (assoc x es) as [c|] eqn:E; [|apply kinds_kept_app].
  apply (kinds_kept_set_entry es x c v E).
  apply kinds_kept_file; [|exact Hv].
  destruct c; [reflexivity|reflexivity|contradiction|reflexivity].
Qed.

Lemma kinds_kept_extract_members_from (ms : entries_t) :
  Forall
    (fun e => forall name es,
       kinds_kept (Dir es) (Dir (fst (extract_member name (snd e) es)))) ms ->
  forall es, kinds_kept (Dir es) (Dir (fst (extract_members ms es))).
Proof.
  induction 1 as [|[n x] ms Hx _ IH]; intros es.
  - apply kinds_kept_refl.
  - rewrite extract_members_cons. simpl in Hx. specialize (Hx n es).
    destruct (extract_member n x es) as [es1 [e|]]; simpl in *.
    + exact Hx.
    + exact (kinds_kept_trans _ _ _ Hx (IH es1)).
Qed.

Lemma kinds_kept_extract_member (m : node) :
  forall name es,
    kinds_kept (Dir es) (Dir (fst (extract_member name m es))).
Proof.
  induction m as [data|ms _|sub IH|[data|]] using node_induction;
    intros name es.
  4: simpl; destruct (assoc name es) as [[d|l|l|?]|] eqn:E; simpl;
       try apply kinds_kept_refl;
       apply kinds_kept_upsert; try reflexivity; rewrite E; exact I.
  4: apply kinds_kept_refl.
  - simpl. destruct (assoc name es) as [[d|l|l|?]|] eqn:E; simpl;
      try apply kinds_kept_refl;
      apply kinds_kept_upsert; try reflexivity; rewrite E; exact I.
  - simpl. destruct (assoc name es) as [[d|l|l|?]|] eqn:E; simpl;
      try apply kinds_kept_refl;
      apply kinds_kept_upsert; try reflexivity; rewrite E; exact I.
  - rewrite extract_member_dir.
    destruct (assoc name es) as [[d|l|ces|?]|] eqn:E; simpl;
      try apply kinds_kept_refl.
    + pose proof (kinds_kept_extract_members_from sub IH ces) as H.
      destruct (extract_members sub ces) as [ces' r]. simpl in *.
      exact (kinds_kept_set_entry es name (Dir ces) (Dir ces') E H).
    + destruct (extract_members sub []) as [ces' r]. simpl.
      apply kinds_kept_app.
Qed.

Lemma kinds_kept_extract_members (ms es : entries_t) :
  kinds_kept (Dir es) (Dir (fst (extract_members ms es))).
Proof.
  apply kinds_kept_extract_members_from.
  apply Forall_forall. intros e _. apply kinds_kept_extract_member.
Qed.

Lemma keeps_ret {A} (a : A) : keeps (ret a).
Proof. intros st. apply kinds_kept_refl. Qed.

Lemma keeps_bind {A B} (m : M A) (k : A -> M B) :
  keeps m -> (forall a, keeps (k a)) -> keeps (bind m k).
Proof.
  intros Hm Hk st. unfold bind. specialize (Hm st).
  destruct (m st) as [[a|e|] s1]; simpl in *; try exact Hm.
  exact (kinds_kept_trans _ _ _ Hm (Hk a s1)).
Qed.

Lemma keeps_try_except {A} (m : M A) (h : exn -> M A) :
  keeps m -> (forall e, keeps (h e)) -> keeps (try_except m h).
Proof.
  intros Hm Hh st. unfold try_except. specialize (Hm st).
  destruct (m st) as [[a|e|] s1]; simpl in *; try exact Hm.
  exact (kinds_kept_trans _ _ _ Hm (Hh e s1)).
Qed.

Lemma keeps_for_each {A B} (xs : list A) (body : A -> B -> M B) :
  (forall x acc, keeps (body x acc)) ->
  forall acc, keeps (for_each xs body acc).
Proof.
  intros Hbody. induction xs as [|x xs IH]; intros acc; simpl.
  - apply keeps_ret.
  - apply keeps_bind; [apply Hbody|exact IH].
Qed.

Lemma keeps_log_message (line : log_entry) : keeps (log_message line).
Proof. intros st. apply kinds_kept_refl. Qed.

Lemma keeps_update_progress : keeps update_progress.
Proof. intros st. apply kinds_kept_refl. Qed.

Lemma keeps_os_path_exists (p : path) : keeps (os_path_exists p).
Proof. intros st. apply kinds_kept_refl. Qed.

Lemma keeps_os_path_isdir (p : path) : keeps (os_path_isdir p).
Proof. intros st. apply kinds_kept_refl. Qed.

Lemma keeps_os_path_isfile (p : path) : keeps (os_path_isfile p).
Proof. intros st. apply kinds_kept_refl. Qed.

Lemma keeps_os_listdir (p : path) : keeps (os_listdir p).
Proof.
  intros st. unfold os_listdir. break_match; apply kinds_kept_refl.
Qed.

Lemma keeps_ZipFile (p : path) : keeps (ZipFile p).
Proof.
  intros st. unfold ZipFile. break_match; apply kinds_kept_refl.
Qed.

Lemma keeps_os_makedirs (b : bool) (p : path) : keeps (os_makedirs b p).
Proof.
  intros st. unfold os_makedirs.
  destruct (lookup (fs st) p) as [[d|ms|es|?]|]; simpl;
    try apply kinds_kept_refl.
  - destruct b; apply kinds_kept_refl.
  - destruct (mkdirs (fs st) p) as [t|] eqn:E; simpl;
      [exact (kinds_kept_mkdirs p _ _ E)|apply kinds_kept_refl].
Qed.

Lemma keeps_extractall (ms : entries_t) (target : path) :
  keeps (extractall ms target).
Proof.
  intros st. unfold extractall.
  destruct ms as [|m ms]; [apply kinds_kept_refl|].
  destruct (lookup (fs st) target) as [[d|l|es|?]|] eqn:Ht;
    try apply kinds_kept_refl.
  - pose proof (kinds_kept_extract_members (m :: ms) es) as H.
    destruct (extract_members (m :: ms) es) as [es' r]. simpl in H.
    destruct (put (fs st) target (Dir es')) as [t|] eqn:Ep; simpl;
      [|apply kinds_kept_refl].
    apply (kinds_kept_put target _ _ _ Ep).
    intros n Hn. rewrite Ht in Hn. inversion Hn. exact H.
  - destruct (mkdirs (fs st) target) as [t0|] eqn:Em;
      [|apply kinds_kept_refl].
    pose proof (kinds_kept_extract_members (m :: ms) []) as H.
    destruct (extract_members (m :: ms) []) as [es' r]. simpl in H.
    destruct (put t0 target (Dir es')) as [t|] eqn:Ep; simpl;
      [|apply kinds_kept_refl].
    apply (kinds_kept_trans _ t0 _ (kinds_kept_mkdirs target _ _ Em)).
    apply (kinds_kept_put target _ _ _ Ep).
    intros n Hn.
    rewrite (mkdirs_lookup_new target _ _ Em (or_introl Ht)) in Hn.
    inversion Hn. exact H.
Qed.

Lemma keeps_extract_item (cur : path) (item : string) (stack : list path) :
  keeps (extract_item cur item stack).
Proof.
  unfold extract_item.
  apply keeps_try_except.
  - apply keeps_bind; [apply keeps_os_path_isfile|]. intros f.
    destruct (f && endswith item ".zip").
    + apply keeps_bind; [apply keeps_os_path_exists|]. intros e.
      apply keeps_bind.
      { destruct e; simpl; [apply keeps_ret|apply keeps_os_makedirs]. }
      intros _. apply keeps_bind; [apply keeps_ZipFile|]. intros ms.
      apply keeps_bind; [apply keeps_extractall|]. intros _.
      apply keeps_bind; [apply keeps_log_message|]. intros _.
      apply keeps_bind; [apply keeps_update_progress|]. intros _.
      apply keeps_ret.
    + apply keeps_bind; [apply keeps_os_path_isdir|]. intros d.
      destruct d; apply keeps_ret.
  - intros e.
    destruct e;
      (apply keeps_bind; [apply keeps_log_message|intros _; apply keeps_ret]).
Qed.

Lemma keeps_drain (fuel : nat) : forall stack, keeps (drain fuel stack).
Proof.
  induction fuel as [|fuel IH]; intros [|cur rest]; simpl;
    try apply keeps_ret.
  - intros st. apply kinds_kept_refl.
  - apply keeps_bind; [apply keeps_os_listdir|]. intros items.
    apply keeps_bind; [|exact IH].
    apply keeps_for_each. intros x acc. apply keeps_extract_item.
Qed.



(** ** Sorting *)


Lemma assoc_upsert (x y : string) (v : node) (es : entries_t) :
  assoc y (upsert x v es) = if String.eqb y x then Some v else assoc y es.
Proof.
  unfold upsert. destruct (String.eqb y x) eqn:E.
  - apply String.eqb_eq in E. subst y.
    destruct (assoc x es) eqn:Ex.
    + rewrite assoc_set_entry_same, Ex. reflexivity.
    + rewrite assoc_app, Ex. simpl. rewrite String.eqb_refl. reflexivity.
  - apply String.eqb_neq in E.
    destruct (assoc x es) eqn:Ex.
    + apply assoc_set_entry_other. congruence.
    + rewrite assoc_app. destruct (assoc y es); [reflexivity|].
      simpl. apply String.eqb_neq in E. rewrite E. reflexivity.
Qed.



Lemma put_child (es : entries_t) (x : string) (v : node) :
  put (Dir es) [x] v = Some (Dir (upsert x v es)).
Proof.
  simpl. unfold upsert. destruct (assoc x es); reflexivity.
Qed.


(** *** The walk reaches exactly the regular files *)




(** *** One copy into a destination folder *)

Lemma path_eqb_neq (p q : path) : p <> q -> path_eqb p q = false.
Proof.
  intros N. unfold path_eqb.
  destruct (list_eq_dec string_dec p q); [contradiction|reflexivity].
Qed.


Section sorting.
Variable root_es : entries_t.
Variable E : node.
Hypothesis Extracted_there : assoc "Extracted" root_es = Some E.
Hypothesis Merged_there : exists m, assoc "Merged" root_es = Some m.






End sorting.

(** *** What the destination folders collect *)





(** *** The two loops of the sorting *)









(** ** The failures the handlers contain *)



(** * Further properties of the procedures *)

(** ** Writes stay below their path *)

Lemma diverge_app (p q r r' : path) :
  diverge p q = true -> diverge (p ++ r) (q ++ r') = true.
Proof.
  revert q. induction p as [|x p IH]; intros [|y q]; simpl; try discriminate.
  destruct (String.eqb x y); [apply IH|reflexivity].
Qed.

Lemma diverge_sym (p q : path) : diverge p q = diverge q p.
Proof.
  revert q. induction p as [|x p IH]; intros [|y q]; simpl; try reflexivity.
  rewrite (String.eqb_sym y x). destruct (String.eqb x y); [apply IH|reflexivity].
Qed.

Lemma assoc_app_other (x y : string) (v : node) (es : entries_t) :
  String.eqb x y = false -> assoc y (es ++ [(x, v)]) = assoc y es.
Proof.
  intros N. rewrite assoc_app. destruct (assoc y es); [reflexivity|].
  simpl. rewrite String.eqb_sym, N. reflexivity.
Qed.

Lemma lookup_put_diverge (w : path) :
  forall t t' v p,
    put t w v = Some t' -> diverge w p = true -> lookup t' p = lookup t p.
Proof.
  induction w as [|x w IH]; intros t t' v [|y p] Hput Hd; simpl in Hd;
    try discriminate.
  simpl in Hput. destruct t as [d|ms|es|?]; try discriminate.
  destruct (String.eqb x y) eqn:E.
  - apply String.eqb_eq in E. subst y.
    destruct (assoc x es) as [c|] eqn:Ex.
    + destruct (put c w v) as [c'|] eqn:Ec; [|discriminate].
      inversion Hput. simpl. rewrite assoc_set_entry_same, Ex.
      exact (IH c c' v p Ec Hd).
    + destruct w; [discriminate Hd|discriminate Hput].
  - destruct (assoc x es) as [c|] eqn:Ex.
    + destruct (put c w v) as [c'|]; [|discriminate].
      inversion Hput. simpl.
      rewrite assoc_set_entry_other; [reflexivity|].
      apply String.eqb_neq. exact E.
    + destruct w; [|discriminate]. inversion Hput. simpl.
      rewrite (assoc_app_other x y v es E). reflexivity.
Qed.

Lemma lookup_mkdirs_diverge (w : path) :
  forall t t' p,
    mkdirs t w = Some t' -> diverge w p = true -> lookup t' p = lookup t p.
Proof.
  induction w as [|x w IH]; intros t t' [|y p] Hmk Hd; simpl in Hd;
    try discriminate.
  destruct t as [d|ms|es|?]; simpl in Hmk; try discriminate.
  destruct (String.eqb x y) eqn:E.
  - apply String.eqb_eq in E. subst y.
    destruct (assoc x es) as [c|] eqn:Ex.
    + destruct (mkdirs c w) as [c'|] eqn:Ec; [|discriminate].
      inversion Hmk. simpl. rewrite assoc_set_entry_same, Ex.
      exact (IH c c' p Ec Hd).
    + destruct (mkdirs (Dir []) w) as [c'|] eqn:Ec; [|discriminate].
      inversion Hmk. simpl. rewrite assoc_app, Ex. simpl.
      rewrite String.eqb_refl. rewrite (IH (Dir []) c' p Ec Hd).
      destruct p; [destruct w; discriminate Hd|reflexivity].
  - destruct (assoc x es) as [c|] eqn:Ex.
    + destruct (mkdirs c w) as [c'|]; [|discriminate].
      inversion Hmk. simpl.
      rewrite assoc_set_entry_other; [reflexivity|].
      apply String.eqb_neq. exact E.
    + destruct (mkdirs (Dir []) w) as [c'|]; [|discriminate].
      inversion Hmk. simpl.
      rewrite (assoc_app_other x y c' es E). reflexivity.
Qed.

Lemma writes_under_ret {A} (base : path) (a : A) : writes_under base (ret a).
Proof. intros st p _. reflexivity. Qed.

Lemma writes_under_bind {A B} (base : path) (m : M A) (k : A -> M B) :
  writes_under base m -> (forall a, writes_under base (k a)) ->
  writes_under base (bind m k).
Proof.
  intros Hm Hk st p Hd. unfold bind. specialize (Hm st p Hd).
  destruct (m st) as [[a|e|] s1]; simpl in *; try exact Hm.
  rewrite (Hk a s1 p Hd). exact Hm.
Qed.

Lemma writes_under_try_except {A} (base : path) (m : M A) (h : exn -> M A) :
  writes_under base m -> (forall e, writes_under base (h e)) ->
  writes_under base (try_except m h).
Proof.
  intros Hm Hh st p Hd. unfold try_except. specialize (Hm st p Hd).
  destruct (m st) as [[a|e|] s1]; simpl in *; try exact Hm.
  rewrite (Hh e s1 p Hd). exact Hm.
Qed.

Lemma writes_under_for_each {A B} (base : path) (xs : list A)
  (body : A -> B -> M B) :
  (forall x acc, In x xs -> writes_under base (body x acc)) ->
  forall acc, writes_under base (for_each xs body acc).
Proof.
  induction xs as [|x xs IH]; intros Hbody acc; simpl.
  - apply writes_under_ret.
  - apply writes_under_bind; [apply Hbody; left; reflexivity|].
    intros a. apply IH. intros y b Hin. apply Hbody. right. exact Hin.
Qed.

(** A computation that leaves the file system alone. *)
Lemma writes_under_read {A} (base : path) (m : M A) :
  (forall st, fs (snd (m st)) = fs st) -> writes_under base m.
Proof. intros H st p _. rewrite H. reflexivity. Qed.

Lemma writes_under_os_makedirs (base r : path) (b : bool) :
  writes_under base (os_makedirs b (base ++ r)).
Proof.
  intros st p Hd. unfold os_makedirs.
  destruct (lookup (fs st) (base ++ r)) as [[d|ms|es|?]|]; simpl;
    try reflexivity.
  - destruct b; reflexivity.
  - destruct (mkdirs (fs st) (base ++ r)) as [t|] eqn:E; simpl;
      [|reflexivity].
    apply (lookup_mkdirs_diverge _ _ _ _ E).
    rewrite <- (app_nil_r p). apply diverge_app. exact Hd.
Qed.

Lemma writes_under_extractall (base r : path) (ms : entries_t) :
  writes_under base (extractall ms (base ++ r)).
Proof.
  intros st p Hd.
  assert (Hd' : diverge (base ++ r) p = true)
    by (rewrite <- (app_nil_r p); apply diverge_app; exact Hd).
  unfold extractall.
  destruct ms as [|m ms]; [reflexivity|].
  destruct (lookup (fs st) (base ++ r)) as [[d|l|es|?]|]; try reflexivity.
  - destruct (extract_members (m :: ms) es) as [es' e].
    destruct (put (fs st) (base ++ r) (Dir es')) as [t|] eqn:E; simpl;
      [|reflexivity].
    exact (lookup_put_diverge _ _ _ _ _ E Hd').
  - destruct (mkdirs (fs st) (base ++ r)) as [t0|] eqn:Em; [|reflexivity].
    destruct (extract_members (m :: ms) []) as [es' e].
    destruct (put t0 (base ++ r) (Dir es')) as [t|] eqn:E; simpl;
      [|reflexivity].
    rewrite (lookup_put_diverge _ _ _ _ _ E Hd').
    exact (lookup_mkdirs_diverge _ _ _ _ Em Hd').
Qed.

(** ** A turn of the scan returns, and pushes below the scanned directory *)

Lemma extract_item_pushes (cur : path) (item : string) (st : state) :
  exists pushes st',
    (forall stack,
       extract_item cur item stack st = (Ret (pushes ++ stack), st')) /\
    (pushes = [] \/ exists x, pushes = [cur ++ [x]]).
Proof.
  unfold extract_item, try_except, bind, os_path_isfile, os_path_isdir,
    os_path_exists, when.
  destruct (lookup (fs st) (cur ++ [item])) as [n|] eqn:Hl;
    [|exists [], st; split;
      [intros stack; cbn [andb]; cbv beta iota; rewrite Hl; reflexivity
      |left; reflexivity]].
  destruct (is_file n && endswith item ".zip") eqn:Hz.
  - cbv beta iota.
    assert (Hmk : exists o s1,
              (if negb match lookup (fs st) (cur ++ [splitext_root item]) with
                       | Some _ => true
                       | None => false
                       end
               then os_makedirs false (cur ++ [splitext_root item])
               else ret tt) st = (o, s1) /\ o <> OutOfFuel).
    { destruct (lookup (fs st) (cur ++ [splitext_root item])); simpl.
      - exists (Ret tt), st. split; [reflexivity|discriminate].
      - pose proof (os_makedirs_widgets false (cur ++ [splitext_root item]) st)
          as [_ H].
        destruct (os_makedirs false (cur ++ [splitext_root item]) st)
          as [o s1].
        exists o, s1. split; [reflexivity|exact H]. }
    destruct Hmk as [o [s1 [Hmk Ho]]]. rewrite Hmk.
    destruct o as [[]|e|]; [| |contradiction].
    + pose proof (ZipFile_widgets (cur ++ [item]) s1) as [_ Hf2].
      destruct (ZipFile (cur ++ [item]) s1) as [[ms|e|] s2]; simpl in Hf2;
        [| |contradiction].
      * pose proof (extractall_widgets ms (cur ++ [splitext_root item]) s2)
          as [_ Hf3].
        destruct (extractall ms (cur ++ [splitext_root item]) s2)
          as [[[]|e|] s3]; simpl in Hf3; [| |contradiction].
        -- eexists [_], _. split; [intros stack; reflexivity|].
           right. eexists. reflexivity.
        -- destruct e; eexists [], _;
             (split; [intros stack; reflexivity|left; reflexivity]).
      * destruct e; eexists [], _;
          (split; [intros stack; reflexivity|left; reflexivity]).
    + destruct e; eexists [], _;
        (split; [intros stack; reflexivity|left; reflexivity]).
  - cbv beta iota. rewrite Hl. destruct (is_dir n).
    + eexists [_], _. split; [intros stack; reflexivity|].
      right. eexists. reflexivity.
    + exists [], st. split; [reflexivity|left; reflexivity].
Qed.

Lemma scan_pushes (cur : path) (items : list string) :
  forall st,
    exists pushes st',
      (forall acc,
         for_each items (extract_item cur) acc st =
         (Ret (pushes ++ acc), st')) /\
      Forall (fun p => exists x, p = cur ++ [x]) pushes.
Proof.
  induction items as [|item items IH]; intros st.
  - exists [], st. split; [reflexivity|constructor].
  - destruct (extract_item_pushes cur item st) as [ps1 [s1 [H1 Hp1]]].
    destruct (IH s1) as [ps2 [s2 [H2 Hp2]]].
    exists (ps2 ++ ps1), s2. split.
    + intros acc. simpl. unfold bind. rewrite H1, H2, app_assoc.
      reflexivity.
    + apply Forall_app. split; [exact Hp2|].
      destruct Hp1 as [->|[x ->]]; repeat constructor.
      exists x. reflexivity.
Qed.

(** ** Unpacking: what can end it, and where it writes *)




Lemma writes_under_extract_item (base r : path) (item : string)
  (stack : list path) :
  writes_under base (extract_item (base ++ r) item stack).
Proof.
  unfold extract_item. apply writes_under_try_except.
  - apply writes_under_bind; [apply writes_under_read; reflexivity|].
    intros f. destruct (f && endswith item ".zip").
    + apply writes_under_bind; [apply writes_under_read; reflexivity|].
      intros e. rewrite <- app_assoc. apply writes_under_bind.
      { destruct e; simpl;
          [apply writes_under_ret|apply writes_under_os_makedirs]. }
      intros _. apply writes_under_bind.
      { apply writes_under_read. intros st.
        rewrite (proj1 (ZipFile_widgets _ st)). reflexivity. }
      intros ms. apply writes_under_bind; [apply writes_under_extractall|].
      intros _.
      apply writes_under_bind; [apply writes_under_read; reflexivity|].
      intros _.
      apply writes_under_bind; [apply writes_under_read; reflexivity|].
      intros _. apply writes_under_ret.
    + apply writes_under_bind; [apply writes_under_read; reflexivity|].
      intros d. destruct d; apply writes_under_ret.
  - intros e. destruct e;
      (apply writes_under_bind;
       [apply writes_under_read; reflexivity
       |intros _; apply writes_under_ret]).
Qed.

Lemma writes_under_drain (base : path) (fuel : nat) :
  forall stack,
    Forall (fun p => exists r, p = base ++ r) stack ->
    writes_under base (drain fuel stack).
Proof.
  induction fuel as [|fuel IH]; intros [|cur rest] Hstack; simpl;
    try apply writes_under_ret.
  - intros st p _. reflexivity.
  - inversion Hstack as [|? ? [r Hr] Hrest]. subst.
    intros st p Hd. unfold bind at 1. unfold os_listdir.
    destruct (lookup (fs st) (base ++ r)) as [[d|ms|es|?]|]; try reflexivity.
    destruct (scan_pushes (base ++ r) (names es) st) as [ps [s1 [Hscan Hps]]].
    unfold bind. rewrite Hscan.
    assert (Hs1 : lookup (fs s1) p = lookup (fs st) p).
    { pose proof (writes_under_for_each base (names es)
                    (extract_item (base ++ r))
                    (fun x acc _ => writes_under_extract_item base r x acc)
                    rest st p Hd) as H.
      rewrite Hscan in H. exact H. }
    rewrite <- Hs1. apply IH; [|exact Hd].
    apply Forall_app. split; [|exact Hrest].
    apply Forall_forall. intros q Hq. rewrite Forall_forall in Hps.
    destruct (Hps q Hq) as [x Hx]. subst q. exists (r ++ [x]).
    rewrite app_assoc. reflexivity.
Qed.

(** Unpacking writes below its root only: whatever lies on a path that parts
    from [extraction_base_path] (the archives and files of the selected
    folder, [Merged/]) is the same after the run, however the run ends. *)
Theorem unpacking_writes_under_its_root (fuel : nat) (base : path)
  (st : state) (p : path) :
  diverge base p = true ->
  lookup (fs (snd (find_and_extract_zip_files fuel base st))) p =
  lookup (fs st) p.
Proof.
  apply writes_under_drain. constructor; [|constructor].
  exists []. rewrite app_nil_r. reflexivity.
Qed.

Lemma unpacking_writes_under_its_root_witness :
  let st := initial (Dir [("a.zip", outer_zip);
                          ("Extracted", Dir [("a.zip", outer_zip)])]) in
  lookup (fs (snd (find_and_extract_zip_files 9 ["Extracted"] st))) ["a.zip"]
  = lookup (fs st) ["a.zip"].
Proof.
  intros st.
  apply (unpacking_writes_under_its_root 9 ["Extracted"] st ["a.zip"]).
  reflexivity.
Defined.

(** ** Heights *)

Lemma height_pos (n : node) : 1 <= height n.
Proof. destruct n; simpl; lia. Qed.

Lemma height_Dir (es : entries_t) (k : nat) :
  height (Dir es) <= S k <-> children_le k es.
Proof.
  simpl. unfold children_le. rewrite <- Nat.succ_le_mono, list_max_le.
  rewrite Forall_map. reflexivity.
Qed.

Lemma height_Archive (ms : entries_t) (k : nat) :
  height (Archive ms) <= S k <-> children_le k ms.
Proof.
  simpl. unfold children_le. rewrite <- Nat.succ_le_mono, list_max_le.
  rewrite Forall_map. reflexivity.
Qed.

Lemma children_le_own (es : entries_t) :
  children_le (height (Dir es) - 1) es.
Proof. apply height_Dir. simpl. lia. Qed.

Lemma children_le_assoc (k : nat) (es : entries_t) (x : string) (c : node) :
  children_le k es -> assoc x es = Some c -> height c <= k.
Proof.
  intros H E. unfold children_le in H. rewrite Forall_forall in H.
  exact (H (x, c) (assoc_In _ _ _ E)).
Qed.

Lemma children_le_set_entry (k : nat) (es : entries_t) (x : string) (v : node) :
  children_le k es -> height v <= k -> children_le k (set_entry x v es).
Proof.
  intros H Hv. induction es as [|[y n] es IH]; simpl; [constructor|].
  inversion H as [|? ? Hn Hes]. subst.
  destruct (String.eqb x y); constructor;
    [exact Hv|exact Hes|exact Hn|exact (IH Hes)].
Qed.

Lemma children_le_app (k : nat) (es l : entries_t) :
  children_le k es -> children_le k l -> children_le k (es ++ l).
Proof. intros H1 H2. apply Forall_app. split; assumption. Qed.

Lemma children_le_upsert (k : nat) (es : entries_t) (x : string) (v : node) :
  children_le k es -> height v <= k -> children_le k (upsert x v es).
Proof.
  intros H Hv. unfold upsert. destruct (assoc x es).
  - apply children_le_set_entry; assumption.
  - apply children_le_app; [exact H|]. constructor; [exact Hv|constructor].
Qed.

(** Extraction does not raise the bound of the target's entries above that
    of the members. *)
Lemma extract_members_height_from (ms : entries_t) :
  Forall
    (fun e => forall name es k,
       height (snd e) <= k -> children_le k es ->
       children_le k (fst (extract_member name (snd e) es))) ms ->
  forall es k,
    children_le k ms -> children_le k es ->
    children_le k (fst (extract_members ms es)).
Proof.
  induction 1 as [|[n x] ms Hx _ IH]; intros es k Hms Hes.
  - exact Hes.
  - rewrite extract_members_cons. inversion Hms as [|? ? Hxk Hmsk]. subst.
    simpl in Hx, Hxk. specialize (Hx n es k Hxk Hes).
    destruct (extract_member n x es) as [es1 [e|]]; simpl in *.
    + exact Hx.
    + exact (IH es1 k Hmsk Hx).
Qed.

Lemma extract_member_height (m : node) :
  forall name es k,
    height m <= k -> children_le k es ->
    children_le k (fst (extract_member name m es)).
Proof.
  induction m as [data|ms _|sub IH|[data|]] using node_induction;
    intros name es k Hm Hes.
  4: simpl; destruct (assoc name es) as [[d|l|l|?]|]; simpl;
       try exact Hes; apply children_le_upsert; assumption.
  4: exact Hes.
  - simpl. destruct (assoc name es) as [[d|l|l|?]|]; simpl;
      try exact Hes; apply children_le_upsert; assumption.
  - simpl extract_member.
    destruct (assoc name es) as [[d|l|l|?]|]; simpl fst;
      try exact Hes; apply children_le_upsert; assumption.
  - rewrite extract_member_dir.
    destruct k as [|k]; [pose proof (height_pos (Dir sub)); lia|].
    apply height_Dir in Hm.
    destruct (assoc name es) as [[d|l|ces|?]|] eqn:E; simpl; try exact Hes.
    + assert (Hces : children_le k ces).
      { apply height_Dir. exact (children_le_assoc _ _ _ _ Hes E). }
      pose proof (extract_members_height_from sub IH ces k Hm Hces) as H.
      destruct (extract_members sub ces) as [ces' r]. simpl in *.
      apply children_le_set_entry; [exact Hes|]. apply height_Dir. exact H.
    + pose proof (extract_members_height_from sub IH [] k Hm (Forall_nil _))
        as H.
      destruct (extract_members sub []) as [ces' r]. simpl in *.
      apply children_le_app; [exact Hes|].
      constructor; [|constructor]. apply height_Dir. exact H.
Qed.

Lemma extract_members_height (ms es : entries_t) (k : nat) :
  children_le k ms -> children_le k es ->
  children_le k (fst (extract_members ms es)).
Proof.
  apply extract_members_height_from.
  apply Forall_forall. intros e _ name es' k'. apply extract_member_height.
Qed.

Lemma height_lookup (p : path) :
  forall t n, lookup t p = Some n -> List.length p + height n <= height t.
Proof.
  induction p as [|x p IH]; intros t n H; simpl in H.
  - inversion H. simpl. lia.
  - destruct t as [d|ms|es|?]; try discriminate.
    destruct (assoc x es) as [c|] eqn:E; [|discriminate].
    specialize (IH c n H).
    pose proof (children_le_assoc _ _ _ _ (children_le_own es) E).
    pose proof (height_pos (Dir es)).
    cbn [List.length]. lia.
Qed.

Lemma put_height (p : path) :
  forall t t' old v,
    put t p v = Some t' -> lookup t p = Some old ->
    height v <= height old -> height t' <= height t.
Proof.
  induction p as [|x p IH]; intros t t' old v Hput Hold Hv; simpl in *.
  - inversion Hput. inversion Hold. subst. exact Hv.
  - destruct t as [d|ms|es|?]; try discriminate.
    destruct (assoc x es) as [c|] eqn:E; [|discriminate].
    destruct (put c p v) as [c'|] eqn:Ec; [|discriminate].
    inversion Hput. subst t'.
    specialize (IH c c' old v Ec Hold Hv).
    pose proof (height_pos (Dir es)) as Hpos.
    replace (height (Dir es)) with (S (height (Dir es) - 1)) by lia.
    apply height_Dir. apply children_le_set_entry; [apply children_le_own|].
    pose proof (children_le_assoc _ _ _ _ (children_le_own es) E). lia.
Qed.

Lemma lookup_snoc (p : path) (x : string) :
  forall t n,
    lookup t (p ++ [x]) = Some n ->
    exists es, lookup t p = Some (Dir es) /\ assoc x es = Some n.
Proof.
  intros t n H. rewrite lookup_app in H.
  destruct (lookup t p) as [[d|ms|es|?]|]; simpl in H; try discriminate.
  destruct (assoc x es) as [c|] eqn:E; [|discriminate].
  inversion H. subst. exists es. split; [reflexivity|exact E].
Qed.

Lemma put_child_height (t t' : node) (cur : path) (es es' : entries_t) :
  lookup t cur = Some (Dir es) ->
  put t cur (Dir es') = Some t' ->
  children_le (height (Dir es) - 1) es' ->
  height t' <= height t.
Proof.
  intros Hcur Hput Hes'.
  apply (put_height cur t t' (Dir es) (Dir es') Hput Hcur).
  pose proof (height_pos (Dir es)).
  replace (height (Dir es)) with (S (height (Dir es) - 1)) by lia.
  apply height_Dir. exact Hes'.
Qed.

Lemma put_under_dir_height (t t' : node) (cur : path) (x : string)
  (es : entries_t) (v : node) :
  lookup t cur = Some (Dir es) ->
  height v <= height (Dir es) - 1 ->
  put t (cur ++ [x]) v = Some t' ->
  height t' <= height t.
Proof.
  intros Hcur Hv Hput.
  rewrite (put_app _ _ _ _ _ Hcur), put_child in Hput.
  apply (put_child_height t t' cur es _ Hcur Hput).
  apply children_le_upsert; [apply children_le_own|exact Hv].
Qed.

Lemma mkdirs_sibling (t : node) (cur : path) (stem : string) (es : entries_t) :
  lookup t cur = Some (Dir es) ->
  assoc stem es = None ->
  mkdirs t (cur ++ [stem]) = put t (cur ++ [stem]) (Dir []).
Proof.
  intros Hcur Hnew.
  rewrite (mkdirs_app _ _ _ _ Hcur), (put_app _ _ _ _ _ Hcur).
  rewrite mkdirs_new_child by exact Hnew. simpl. rewrite Hnew. reflexivity.
Qed.

(** Making the target next to a file or an archive does not raise the
    height. *)
Lemma os_makedirs_sibling_height (cur : path) (item stem : string)
  (n : node) (st : state) :
  lookup (fs st) (cur ++ [item]) = Some n ->
  height (fs (snd (os_makedirs false (cur ++ [stem]) st))) <= height (fs st).
Proof.
  intros Hitem. destruct (lookup_snoc _ _ _ _ Hitem) as [es [Hcur Hn]].
  unfold os_makedirs.
  destruct (lookup (fs st) (cur ++ [stem])) as [[d|ms|l|?]|] eqn:Ht;
    simpl; try lia.
  assert (Hnew : assoc stem es = None).
  { rewrite lookup_app, Hcur in Ht. simpl in Ht.
    destruct (assoc stem es); [discriminate|reflexivity]. }
  rewrite (mkdirs_sibling _ _ _ _ Hcur Hnew).
  destruct (put (fs st) (cur ++ [stem]) (Dir [])) as [t|] eqn:Hput; simpl;
    [|lia].
  apply (put_under_dir_height _ _ _ _ _ _ Hcur) in Hput; [exact Hput|].
  pose proof (children_le_assoc _ _ _ _ (children_le_own es) Hn).
  pose proof (height_pos n). simpl height at 1. lia.
Qed.

Lemma extract_into_height (t : node) (cur : path) (item stem : string)
  (ms ces : entries_t) :
  lookup t (cur ++ [item]) = Some (Archive ms) ->
  lookup t (cur ++ [stem]) = Some (Dir ces) ->
  forall t',
    put t (cur ++ [stem]) (Dir (fst (extract_members ms ces))) = Some t' ->
    height t' <= height t.
Proof.
  intros Hitem Htarget t' Hput.
  destruct (lookup_snoc _ _ _ _ Hitem) as [es [Hcur Ha]].
  destruct (lookup_snoc _ _ _ _ Htarget) as [es2 [Hcur2 Hd]].
  rewrite Hcur in Hcur2. inversion Hcur2. subst es2.
  pose proof (children_le_assoc _ _ _ _ (children_le_own es) Ha) as Hka.
  pose proof (children_le_assoc _ _ _ _ (children_le_own es) Hd) as Hkd.
  apply (put_under_dir_height _ _ _ _ _ _ Hcur) in Hput; [exact Hput|].
  destruct (height (Dir es) - 1) as [|k] eqn:Ek.
  - pose proof (height_pos (Archive ms)). lia.
  - apply height_Dir. apply extract_members_height.
    + apply height_Archive. exact Hka.
    + apply height_Dir. exact Hkd.
Qed.

Lemma extractall_height (cur : path) (item stem : string) (ms : entries_t)
  (st : state) :
  lookup (fs st) (cur ++ [item]) = Some (Archive ms) ->
  height (fs (snd (extractall ms (cur ++ [stem]) st))) <= height (fs st).
Proof.
  intros Hitem. unfold extractall.
  destruct ms as [|m ms]; [simpl; lia|].
  destruct (lookup (fs st) (cur ++ [stem])) as [[d|l|ces|?]|] eqn:Ht;
    try (simpl; lia).
  - pose proof (extract_into_height (fs st) cur item stem (m :: ms) ces
                  Hitem Ht) as H.
    destruct (extract_members (m :: ms) ces) as [es' r]. simpl fst in H.
    destruct (put (fs st) (cur ++ [stem]) (Dir es')) as [t|]; simpl;
      [apply H; reflexivity|lia].
  - destruct (lookup_snoc _ _ _ _ Hitem) as [es [Hcur Ha]].
    assert (Hnew : assoc stem es = None).
    { rewrite lookup_app, Hcur in Ht. simpl in Ht.
      destruct (assoc stem es); [discriminate|reflexivity]. }
    rewrite (mkdirs_sibling _ _ _ _ Hcur Hnew).
    destruct (put (fs st) (cur ++ [stem]) (Dir [])) as [t0|] eqn:Hput0;
      [|simpl; lia].
    assert (H0 : height t0 <= height (fs st)).
    { apply (put_under_dir_height _ _ _ _ _ _ Hcur) in Hput0; [exact Hput0|].
      pose proof (children_le_assoc _ _ _ _ (children_le_own es) Ha).
      pose proof (height_pos (Archive (m :: ms))). simpl height at 1. lia. }
    assert (Hitem0 : lookup t0 (cur ++ [item]) = Some (Archive (m :: ms))).
    { pose proof Hput0 as Hput1.
      rewrite (put_app _ _ _ _ _ Hcur), put_child in Hput1.
      rewrite lookup_app, (lookup_put_same _ _ _ _ Hput1). simpl.
      rewrite assoc_upsert.
      destruct (String.eqb item stem) eqn:E; [|rewrite Ha; reflexivity].
      apply String.eqb_eq in E. subst. congruence. }
    pose proof (extract_into_height t0 cur item stem (m :: ms) []
                  Hitem0 (lookup_put_same _ _ _ _ Hput0)) as H.
    destruct (extract_members (m :: ms) []) as [es' r]. simpl fst in H.
    destruct (put t0 (cur ++ [stem]) (Dir es')) as [t|]; simpl;
      [|lia].
    specialize (H t eq_refl). lia.
Qed.

(** A turn of the scan does not raise the height of the tree. *)
Lemma extract_item_height (cur : path) (item : string) (stack : list path)
  (st : state) :
  height (fs (snd (extract_item cur item stack st))) <= height (fs st).
Proof.
  unfold extract_item, try_except, bind, os_path_isfile, os_path_isdir,
    os_path_exists, when.
  destruct (lookup (fs st) (cur ++ [item])) as [n|] eqn:Hl;
    [|cbn [andb]; cbv beta iota; rewrite Hl; simpl; lia].
  destruct (is_file n && endswith item ".zip") eqn:Hz.
  - cbv beta iota.
    assert (Hmk : exists o s1,
              (if negb match lookup (fs st) (cur ++ [splitext_root item]) with
                       | Some _ => true
                       | None => false
                       end
               then os_makedirs false (cur ++ [splitext_root item])
               else ret tt) st = (o, s1) /\ o <> OutOfFuel /\
              height (fs s1) <= height (fs st) /\
              (o = Ret tt ->
               lookup (fs s1) (cur ++ [item]) = lookup (fs st) (cur ++ [item]))).
    { destruct (lookup (fs st) (cur ++ [splitext_root item])) eqn:Ht; simpl.
      - exists (Ret tt), st. repeat split; [discriminate|lia].
      - pose proof (os_makedirs_widgets false (cur ++ [splitext_root item]) st)
          as [_ H].
        pose proof (os_makedirs_sibling_height cur item (splitext_root item)
                      n st Hl) as Hh.
        assert (Hsame :
          lookup (fs (snd (os_makedirs false (cur ++ [splitext_root item]) st)))
            (cur ++ [item]) = lookup (fs st) (cur ++ [item])).
        { destruct (lookup_snoc _ _ _ _ Hl) as [es [Hcur Hn]].
          unfold os_makedirs. rewrite Ht.
          assert (Hnew : assoc (splitext_root item) es = None).
          { rewrite lookup_app, Hcur in Ht. simpl in Ht.
            destruct (assoc (splitext_root item) es);
              [discriminate|reflexivity]. }
          rewrite (mkdirs_sibling _ _ _ _ Hcur Hnew).
          destruct (put (fs st) (cur ++ [splitext_root item]) (Dir []))
            as [t0|] eqn:Hput0; [|reflexivity].
          simpl. rewrite (put_app _ _ _ _ _ Hcur), put_child in Hput0.
          rewrite !lookup_app, (lookup_put_same _ _ _ _ Hput0), Hcur. simpl.
          rewrite assoc_upsert.
          destruct (String.eqb item (splitext_root item)) eqn:E;
            [|destruct (assoc item es); reflexivity].
          apply String.eqb_eq in E. rewrite <- E in Hnew. congruence. }
        destruct (os_makedirs false (cur ++ [splitext_root item]) st)
          as [o s1].
        exists o, s1. repeat split; try assumption. intros _. exact Hsame. }
    destruct Hmk as [o [s1 [Hmk [Ho [Hh1 Hsame]]]]]. rewrite Hmk.
    destruct o as [[]|e|]; [| |contradiction].
    + specialize (Hsame eq_refl).
      unfold ZipFile. rewrite Hsame, Hl.
      destruct n as [d|ms|es|?]; simpl; try lia.
      pose proof (extractall_widgets ms (cur ++ [splitext_root item]) s1)
        as [_ Hf3].
      rewrite Hl in Hsame.
      pose proof (extractall_height cur item (splitext_root item) ms s1 Hsame)
        as Hh3.
      destruct (extractall ms (cur ++ [splitext_root item]) s1)
        as [[[]|e|] s3]; simpl in *; [lia| |contradiction].
      destruct e; simpl; lia.
    + destruct e; simpl; lia.
  - cbv beta iota. rewrite Hl. destruct (is_dir n); simpl; lia.
Qed.

Lemma scan_height (cur : path) (items : list string) :
  forall acc st,
    height (fs (snd (for_each items (extract_item cur) acc st))) <=
    height (fs st).
Proof.
  induction items as [|item items IH]; intros acc st; simpl; [lia|].
  unfold bind.
  pose proof (extract_item_height cur item acc st) as H.
  destruct (extract_item cur item acc st) as [[a|e|] s1]; simpl in *;
    try exact H.
  specialize (IH a s1). lia.
Qed.

(** ** Unpacking terminates *)

Lemma drain_step (fuel : nat) (cur : path) (rest : list path) (st : state) :
  drain (S fuel) (cur :: rest) st =
  match os_listdir cur st with
  | (Ret items, s0) =>
      match for_each items (extract_item cur) rest s0 with
      | (Ret stack', s1) => drain fuel stack' s1
      | (Raise e, s1) => (Raise e, s1)
      | (OutOfFuel, s1) => (OutOfFuel, s1)
      end
  | (Raise e, s0) => (Raise e, s0)
  | (OutOfFuel, s0) => (OutOfFuel, s0)
  end.
Proof. reflexivity. Qed.

(** Once the loop has ended within a bound, a larger bound changes
    nothing. *)
Lemma drain_more_fuel (fuel : nat) :
  forall stack st k,
    fst (drain fuel stack st) <> OutOfFuel ->
    drain (fuel + k) stack st = drain fuel stack st.
Proof.
  induction fuel as [|fuel IH]; intros [|cur rest] st k H;
    try (destruct k; reflexivity).
  - simpl in H. contradiction.
  - change (S fuel + k) with (S (fuel + k)).
    rewrite !drain_step. rewrite drain_step in H.
    destruct (os_listdir cur st) as [[items|e|] s0]; try reflexivity.
    destruct (scan_pushes cur items s0) as [ps [s1 [Hscan _]]].
    rewrite !Hscan. rewrite Hscan in H. apply IH. exact H.
Qed.

(** The loop on a stack in two parts: the upper part is drained first, and
    the lower part is not looked at before. *)
Lemma drain_app (f1 : nat) :
  forall s1 s2 st f2,
    match drain f1 s1 st with
    | (Ret _, st1) =>
        fst (drain f2 s2 st1) <> OutOfFuel ->
        drain (f1 + f2) (s1 ++ s2) st = drain f2 s2 st1
    | (Raise e, st1) => drain (f1 + f2) (s1 ++ s2) st = (Raise e, st1)
    | (OutOfFuel, _) => True
    end.
Proof.
  induction f1 as [|f1 IH]; intros [|cur rest] s2 st f2.
  - simpl. reflexivity.
  - simpl. exact I.
  - simpl drain at 1. cbv iota beta. unfold ret. intros H.
    rewrite Nat.add_comm. apply drain_more_fuel. exact H.
  - change (S f1 + f2) with (S (f1 + f2)).
    change ((cur :: rest) ++ s2) with (cur :: (rest ++ s2)).
    rewrite !drain_step.
    destruct (os_listdir cur st) as [[items|e|] s0];
      [|reflexivity|exact I].
    destruct (scan_pushes cur items s0) as [ps [st1 [Hscan _]]].
    rewrite !Hscan, app_assoc. apply IH.
Qed.

Lemma drain_terminates_at (H0 k : nat) :
  forall stack st,
    height (fs st) <= H0 ->
    Forall (fun p => H0 <= List.length p + k) stack ->
    exists fuel,
      fst (drain fuel stack st) <> OutOfFuel /\
      height (fs (snd (drain fuel stack st))) <= H0.
Proof.
  induction k as [|k IHk]; induction stack as [|p rest IHrest];
    intros st Hst Hstack.
  - exists 0. split; [discriminate|exact Hst].
  - exists 1. inversion Hstack as [|? ? Hp _]. subst.
    simpl. unfold bind, os_listdir.
    destruct (lookup (fs st) p) as [n|] eqn:Hl.
    + pose proof (height_lookup p _ _ Hl). pose proof (height_pos n). lia.
    + split; [discriminate|exact Hst].
  - exists 0. split; [discriminate|exact Hst].
  - inversion Hstack as [|? ? Hp Hrest]. subst.
    destruct (lookup (fs st) p) as [[d|ms|es|?]|] eqn:Hl;
      try (exists 1; rewrite drain_step; unfold os_listdir; rewrite Hl;
           split; [discriminate|exact Hst]).
    destruct (scan_pushes p (names es) st) as [ps [s1 [Hscan Hps]]].
    assert (Hs1 : height (fs s1) <= H0).
    { pose proof (scan_height p (names es) [] st) as H.
      rewrite Hscan in H. simpl in H. lia. }
    destruct (IHk ps s1 Hs1) as [f1 [Hf1 Hh1]].
    { apply Forall_forall. intros q Hq. rewrite Forall_forall in Hps.
      destruct (Hps q Hq) as [x Hx]. subst q.
      rewrite length_app. simpl. lia. }
    pose proof (drain_app f1 ps rest s1) as Happ.
    destruct (drain f1 ps s1) as [[[]|e|] s2] eqn:Hd1; simpl in Hf1, Hh1;
      [| |contradiction].
    + destruct (IHrest s2 Hh1 Hrest) as [f2 [Hf2 Hh2]].
      exists (S (f1 + f2)). rewrite drain_step.
      unfold os_listdir. rewrite Hl, Hscan.
      rewrite (Happ f2 Hf2). split; assumption.
    + exists (S (f1 + 0)). rewrite drain_step.
      unfold os_listdir. rewrite Hl, Hscan.
      rewrite (Happ 0). simpl. split; [discriminate|exact Hh1].
Qed.

(** Unpacking terminates on every tree: for every file system and every
    root there is a bound within which the stack loop ends (by returning, or
    by the exception of [os.listdir]), and every larger bound gives the same
    outcome and the same final state. *)
Theorem unpacking_terminates (base : path) (st : state) :
  exists fuel,
    fst (find_and_extract_zip_files fuel base st) <> OutOfFuel /\
    forall k,
      find_and_extract_zip_files (fuel + k) base st =
      find_and_extract_zip_files fuel base st.
Proof.
  destruct (drain_terminates_at (height (fs st)) (height (fs st)) [base] st)
    as [fuel [Hf _]].
  - lia.
  - constructor; [lia|constructor].
  - exists fuel. split; [exact Hf|].
    intros k. apply drain_more_fuel. exact Hf.
Qed.

Lemma drain_height (fuel : nat) :
  forall stack st,
    height (fs (snd (drain fuel stack st))) <= height (fs st).
Proof.
  induction fuel as [|fuel IH]; intros [|cur rest] st; try (simpl; lia).
  rewrite drain_step. unfold os_listdir.
  destruct (lookup (fs st) cur) as [[d|ms|es|?]|]; simpl; try lia.
  pose proof (scan_height cur (names es) rest st) as H.
  destruct (for_each (names es) (extract_item cur) rest st)
    as [[stack'|e|] s1]; simpl in *; try exact H.
  specialize (IH stack' s1). lia.
Qed.

(** Unpacking makes no path longer than the nesting that was there: after
    the run, however it ends, every path of the tree is shorter than the
    height of the tree before the run, in which an archive counts as the
    directory it is extracted to. *)
Theorem unpacking_bounds_the_depth (fuel : nat) (base : path) (st : state)
  (p : path) (n : node) :
  lookup (fs (snd (find_and_extract_zip_files fuel base st))) p = Some n ->
  List.length p < height (fs st).
Proof.
  intros H. pose proof (height_lookup p _ _ H) as Hp.
  pose proof (drain_height fuel [base] st) as Hd.
  pose proof (height_pos n).
  unfold find_and_extract_zip_files in *. lia.
Qed.

Lemma unpacking_bounds_the_depth_witness :
  List.length ["a"; "b"; "data.csv"] <
  height (fs (initial (Dir [("a.zip", outer_zip)]))).
Proof.
  apply (unpacking_bounds_the_depth 9 [] (initial (Dir [("a.zip", outer_zip)]))
           ["a"; "b"; "data.csv"] (File "csv bytes")).
  reflexivity.
Defined.

(** ** Copies: what they keep and where they write *)

Lemma keeps_shutil_copyfile (src dst : path) : keeps (shutil_copyfile src dst).
Proof.
  intros st. unfold shutil_copyfile.
  destruct (lookup (fs st) src) as [f|] eqn:Hs; [|apply kinds_kept_refl].
  assert (Hgo : forall g, is_dir g = false ->
    kinds_kept (fs st)
      (fs (snd (if path_eqb src dst then (Raise SameFileError, st)
                else
                  match lookup (fs st) dst with
                  | Some (Dir _) => (@Raise unit IsADirectoryError, st)
                  | _ =>
                      match put (fs st) dst g with
                      | Some t => (Ret tt, with_fs st t)
                      | None =>
                          match lookup (fs st) (removelast dst) with
                          | Some _ => (Raise NotADirectoryError, st)
                          | None => (Raise (FileNotFoundError dst), st)
                          end
                      end
                  end)))).
  { intros g Hg. destruct (path_eqb src dst); [apply kinds_kept_refl|].
    destruct (lookup (fs st) dst) as [m|] eqn:Hd.
    - destruct m as [d|ms|es|?]; try apply kinds_kept_refl;
        (destruct (put (fs st) dst g) as [t|] eqn:Hp; simpl;
         [apply (kinds_kept_put dst _ _ _ Hp); intros m Hm;
          rewrite Hd in Hm; inversion Hm;
          apply kinds_kept_file; [reflexivity|exact Hg]
         |destruct (lookup (fs st) (removelast dst));
          apply kinds_kept_refl]).
    - destruct (put (fs st) dst g) as [t|] eqn:Hp; simpl.
      + apply (kinds_kept_put dst _ _ _ Hp). intros m Hm.
        rewrite Hd in Hm. discriminate.
      + destruct (lookup (fs st) (removelast dst)); apply kinds_kept_refl. }
  destruct f as [d|ms|es|w];
    [apply (Hgo (File d)); reflexivity
    |apply (Hgo (Archive ms)); reflexivity
    |apply kinds_kept_refl
    |apply (Hgo (Damaged w)); reflexivity].
Qed.

Lemma keeps_shutil_copy (src dst : path) : keeps (shutil_copy src dst).
Proof.
  unfold shutil_copy. apply keeps_bind; [apply keeps_os_path_isdir|].
  intros d. apply keeps_shutil_copyfile.
Qed.

Lemma keeps_shutil_copytree (fuel : nat) :
  forall src dst, keeps (shutil_copytree fuel src dst).
Proof.
  induction fuel as [|fuel IH]; intros src dst; simpl.
  - intros st. apply kinds_kept_refl.
  - apply keeps_bind; [apply keeps_os_listdir|]. intros entries.
    apply keeps_bind; [apply keeps_os_makedirs|]. intros _.
    apply keeps_bind.
    + apply keeps_for_each. intros name errors.
      apply keeps_try_except.
      * apply keeps_bind; [apply keeps_os_path_isdir|]. intros d.
        apply keeps_bind; [|intros _; apply keeps_ret].
        destruct d; [apply IH|apply keeps_shutil_copy].
      * intros e. destruct e; apply keeps_ret.
    + intros errors. destruct errors; [apply keeps_ret|].
      intros st. apply kinds_kept_refl.
Qed.

Lemma writes_under_shutil_copyfile (base r src : path) :
  writes_under base (shutil_copyfile src (base ++ r)).
Proof.
  intros st p Hd.
  assert (Hd' : diverge (base ++ r) p = true)
    by (rewrite <- (app_nil_r p); apply diverge_app; exact Hd).
  unfold shutil_copyfile.
  destruct (lookup (fs st) src) as [f|]; [|reflexivity].
  assert (Hgo : forall g,
    lookup
      (fs (snd (if path_eqb src (base ++ r) then (Raise SameFileError, st)
                else
                  match lookup (fs st) (base ++ r) with
                  | Some (Dir _) => (@Raise unit IsADirectoryError, st)
                  | _ =>
                      match put (fs st) (base ++ r) g with
                      | Some t => (Ret tt, with_fs st t)
                      | None =>
                          match lookup (fs st) (removelast (base ++ r)) with
                          | Some _ => (Raise NotADirectoryError, st)
                          | None =>
                              (Raise (FileNotFoundError (base ++ r)), st)
                          end
                      end
                  end))) p = lookup (fs st) p).
  { intros g. destruct (path_eqb src (base ++ r)); [reflexivity|].
    destruct (lookup (fs st) (base ++ r)) as [[d|ms|es|?]|];
      try reflexivity;
      (destruct (put (fs st) (base ++ r) g) as [t|] eqn:Hp; simpl;
       [exact (lookup_put_diverge _ _ _ _ _ Hp Hd')
       |destruct (lookup (fs st) (removelast (base ++ r))); reflexivity]). }
  destruct f as [d|ms|es|w];
    [apply (Hgo (File d))|apply (Hgo (Archive ms))|reflexivity
    |apply (Hgo (Damaged w))].
Qed.

Lemma writes_under_shutil_copy (base r src : path) :
  writes_under base (shutil_copy src (base ++ r)).
Proof.
  unfold shutil_copy.
  apply writes_under_bind; [apply writes_under_read; reflexivity|].
  intros d. destruct d; [|apply writes_under_shutil_copyfile].
  rewrite <- app_assoc. apply writes_under_shutil_copyfile.
Qed.

Lemma writes_under_shutil_copytree (base : path) (fuel : nat) :
  forall src r, writes_under base (shutil_copytree fuel src (base ++ r)).
Proof.
  induction fuel as [|fuel IH]; intros src r; simpl.
  - intros st p _. reflexivity.
  - apply writes_under_bind.
    { apply writes_under_read. intros st. unfold os_listdir.
      destruct (lookup (fs st) src) as [[d|ms|es|?]|]; reflexivity. }
    intros entries.
    apply writes_under_bind; [apply writes_under_os_makedirs|]. intros _.
    apply writes_under_bind.
    + apply writes_under_for_each. intros name errors _.
      apply writes_under_try_except.
      * apply writes_under_bind; [apply writes_under_read; reflexivity|].
        intros d.
        apply writes_under_bind; [|intros _; apply writes_under_ret].
        rewrite <- app_assoc.
        destruct d; [apply IH|apply writes_under_shutil_copy].
      * intros e. destruct e; apply writes_under_ret.
    + intros errors. destruct errors; [apply writes_under_ret|].
      intros st p _. reflexivity.
Qed.

(** ** The three phases: what they keep, where they write, what ends them *)

Lemma keeps_stage_item (fuel : nat) (source dest : path) (item : string) :
  keeps (stage_item fuel source dest item).
Proof.
  unfold stage_item. apply keeps_try_except.
  - apply keeps_bind; [apply keeps_os_path_isdir|]. intros d. destruct d.
    + apply keeps_bind; [apply keeps_shutil_copytree|]. intros _.
      apply keeps_bind; [apply keeps_log_message|]. intros _.
      apply keeps_update_progress.
    + apply keeps_bind; [apply keeps_os_path_isfile|]. intros f.
      destruct (f && endswith item ".zip"); [|apply keeps_ret].
      apply keeps_bind; [apply keeps_shutil_copy|]. intros _.
      apply keeps_bind; [apply keeps_log_message|]. intros _.
      apply keeps_update_progress.
  - intros e. apply keeps_log_message.
Qed.

Lemma keeps_when (b : bool) (m : M unit) : keeps m -> keeps (when b m).
Proof. intros H. destruct b; [exact H|apply keeps_ret]. Qed.

Lemma keeps_copy_to_extracted_folder (fuel : nat) (source dest : path) :
  keeps (copy_to_extracted_folder fuel source dest).
Proof.
  unfold copy_to_extracted_folder.
  apply keeps_bind; [apply keeps_os_path_exists|]. intros e.
  apply keeps_bind; [apply keeps_when; apply keeps_os_makedirs|]. intros _.
  apply keeps_bind; [apply keeps_os_listdir|]. intros items.
  apply keeps_for_each. intros item acc. apply keeps_stage_item.
Qed.

Lemma keeps_sort_file (csv_folder pdf_folder root : path) (name : string) :
  keeps (sort_file csv_folder pdf_folder root name).
Proof.
  unfold sort_file. apply keeps_try_except.
  - destruct (endswith name ".csv");
      [|destruct (endswith name ".pdf"); [|apply keeps_ret]];
      (apply keeps_bind; [apply keeps_shutil_copy|]; intros _;
       apply keeps_bind; [apply keeps_log_message|]; intros _;
       apply keeps_update_progress).
  - intros e. destruct e; apply keeps_log_message.
Qed.

Lemma keeps_os_walk (top : path) : keeps (os_walk top).
Proof. intros st. apply kinds_kept_refl. Qed.

Lemma keeps_organize_files_by_extension (base merged : path) :
  keeps (organize_files_by_extension base merged).
Proof.
  unfold organize_files_by_extension.
  apply keeps_bind; [apply keeps_os_path_exists|]. intros e.
  apply keeps_bind; [apply keeps_when; apply keeps_os_makedirs|]. intros _.
  apply keeps_bind; [apply keeps_os_path_exists|]. intros e'.
  apply keeps_bind; [apply keeps_when; apply keeps_os_makedirs|]. intros _.
  apply keeps_bind; [apply keeps_os_walk|]. intros dirs.
  apply keeps_for_each. intros [root files] acc.
  apply keeps_for_each. intros name acc'. apply keeps_sort_file.
Qed.

Lemma keeps_calculate_total_tasks (base : path) :
  keeps (calculate_total_tasks base).
Proof. intros st. apply kinds_kept_refl. Qed.

(** The whole run deletes nothing: whatever the folder and however the run
    ends, every path that is a regular file before it is a regular file
    after it, and every directory is still a directory. *)
Theorem run_deletes_nothing (fuel : nat) (folder_path : option path)
  (st : state) :
  kinds_kept (fs st) (fs (snd (select_folder_and_process fuel folder_path st))).
Proof.
  revert st. change (keeps (select_folder_and_process fuel folder_path)).
  destruct folder_path as [folder|]; simpl.
  - apply keeps_bind; [apply keeps_os_path_exists|]. intros e.
    apply keeps_bind; [apply keeps_when; apply keeps_os_makedirs|]. intros _.
    apply keeps_bind; [apply keeps_copy_to_extracted_folder|]. intros _.
    apply keeps_bind; [apply keeps_calculate_total_tasks|]. intros total.
    apply keeps_bind; [intros st; apply kinds_kept_refl|]. intros _.
    apply keeps_bind; [apply keeps_drain|]. intros _.
    apply keeps_bind; [apply keeps_organize_files_by_extension|]. intros _.
    apply keeps_bind; [intros st; apply kinds_kept_refl|]. intros _.
    apply keeps_log_message.
  - intros st. apply kinds_kept_refl.
Qed.

Lemma writes_under_when (base : path) (b : bool) (m : M unit) :
  writes_under base m -> writes_under base (when b m).
Proof. intros H. destruct b; [exact H|apply writes_under_ret]. Qed.

Lemma writes_under_os_listdir (base p : path) :
  writes_under base (os_listdir p).
Proof.
  apply writes_under_read. intros st. unfold os_listdir.
  destruct (lookup (fs st) p) as [[d|ms|es|?]|]; reflexivity.
Qed.

Lemma writes_under_stage_item (fuel : nat) (source dest : path)
  (item : string) :
  writes_under dest (stage_item fuel source dest item).
Proof.
  unfold stage_item. apply writes_under_try_except.
  - apply writes_under_bind; [apply writes_under_read; reflexivity|].
    intros d. destruct d.
    + apply writes_under_bind; [apply writes_under_shutil_copytree|].
      intros _.
      apply writes_under_bind; [apply writes_under_read; reflexivity|].
      intros _. apply writes_under_read. reflexivity.
    + apply writes_under_bind; [apply writes_under_read; reflexivity|].
      intros f.
      destruct (f && endswith item ".zip"); [|apply writes_under_ret].
      apply writes_under_bind; [apply writes_under_shutil_copy|]. intros _.
      apply writes_under_bind; [apply writes_under_read; reflexivity|].
      intros _. apply writes_under_read. reflexivity.
  - intros e. apply writes_under_read. reflexivity.
Qed.

Lemma writes_under_copy_to_extracted_folder (fuel : nat) (source dest : path) :
  writes_under dest (copy_to_extracted_folder fuel source dest).
Proof.
  unfold copy_to_extracted_folder.
  apply writes_under_bind; [apply writes_under_read; reflexivity|].
  intros e. apply writes_under_bind.
  { apply writes_under_when. rewrite <- (app_nil_r dest) at 2.
    apply writes_under_os_makedirs. }
  intros _. apply writes_under_bind; [apply writes_under_os_listdir|].
  intros items. apply writes_under_for_each. intros item acc _.
  apply writes_under_stage_item.
Qed.

Lemma writes_under_sort_file (merged : path) (x y : string) (root : path)
  (name : string) :
  writes_under merged (sort_file (merged ++ [x]) (merged ++ [y]) root name).
Proof.
  unfold sort_file. apply writes_under_try_except.
  - destruct (endswith name ".csv");
      [|destruct (endswith name ".pdf"); [|apply writes_under_ret]];
      (apply writes_under_bind; [apply writes_under_shutil_copy|]; intros _;
       apply writes_under_bind; [apply writes_under_read; reflexivity|];
       intros _; apply writes_under_read; reflexivity).
  - intros e. destruct e; apply writes_under_read; reflexivity.
Qed.

Lemma writes_under_organize_files_by_extension (base merged : path) :
  writes_under merged (organize_files_by_extension base merged).
Proof.
  unfold organize_files_by_extension.
  apply writes_under_bind; [apply writes_under_read; reflexivity|].
  intros e.
  apply writes_under_bind;
    [apply writes_under_when; apply writes_under_os_makedirs|]. intros _.
  apply writes_under_bind; [apply writes_under_read; reflexivity|].
  intros e'.
  apply writes_under_bind;
    [apply writes_under_when; apply writes_under_os_makedirs|]. intros _.
  apply writes_under_bind; [apply writes_under_read; reflexivity|].
  intros dirs. apply writes_under_for_each. intros [root files] acc _.
  apply writes_under_for_each. intros name acc' _.
  apply writes_under_sort_file.
Qed.

Lemma untouched_bind {A B} (p : path) (m : M A) (k : A -> M B) :
  untouched p m -> (forall a, untouched p (k a)) -> untouched p (bind m k).
Proof.
  intros Hm Hk st. unfold bind. specialize (Hm st).
  destruct (m st) as [[a|e|] s1]; simpl in *; try exact Hm.
  rewrite (Hk a s1). exact Hm.
Qed.

Lemma writes_under_untouched {A} (base p : path) (m : M A) :
  writes_under base m -> diverge base p = true -> untouched p m.
Proof. intros H Hd st. exact (H st p Hd). Qed.

(** Staging writes below the working area only: what lies on a path that
    parts from [extraction_base_path] is the same after it, however it
    ends. *)
Theorem staging_writes_under_the_working_area (fuel : nat)
  (source_folder extraction_base_path : path) (st : state) (p : path) :
  diverge extraction_base_path p = true ->
  lookup
    (fs (snd (copy_to_extracted_folder fuel source_folder
                extraction_base_path st))) p =
  lookup (fs st) p.
Proof. apply writes_under_copy_to_extracted_folder. Qed.

Lemma staging_writes_under_the_working_area_witness :
  lookup
    (fs (snd (copy_to_extracted_folder 9 [] ["Extracted"]
                (initial small_folder)))) ["docs"; "x.csv"] =
  lookup (fs (initial small_folder)) ["docs"; "x.csv"].
Proof.
  apply (staging_writes_under_the_working_area 9 [] ["Extracted"]
           (initial small_folder) ["docs"; "x.csv"]).
  reflexivity.
Defined.

(** Sorting writes below [merged_path] only: what lies on a path that parts
    from it (the walked tree, when it lies beside [merged_path]) is the same
    after it. *)
Theorem sorting_writes_under_merged (extraction_base_path merged_path : path)
  (st : state) (p : path) :
  diverge merged_path p = true ->
  lookup
    (fs (snd (organize_files_by_extension extraction_base_path merged_path
                st))) p =
  lookup (fs st) p.
Proof. apply writes_under_organize_files_by_extension. Qed.

Lemma sorting_writes_under_merged_witness :
  lookup
    (fs (snd (organize_files_by_extension ["Extracted"] ["Merged"]
                (initial same_name_twice)))) ["Extracted"] =
  lookup (fs (initial same_name_twice)) ["Extracted"].
Proof.
  apply (sorting_writes_under_merged ["Extracted"] ["Merged"]
           (initial same_name_twice) ["Extracted"]).
  reflexivity.
Defined.

(** The run leaves the selected folder's own content alone: what lies on a
    path that parts from both [Extracted] and [Merged] of the selected
    folder (every file and sub-folder the user had there) is the same after
    the run, however the run ends. *)
Theorem run_leaves_the_originals (fuel : nat) (folder_path : path)
  (st : state) (p : path) :
  diverge (folder_path ++ ["Extracted"]) p = true ->
  diverge (folder_path ++ ["Merged"]) p = true ->
  lookup (fs (snd (select_folder_and_process fuel (Some folder_path) st))) p =
  lookup (fs st) p.
Proof.
  intros HE HM. revert st.
  change (untouched p (select_folder_and_process fuel (Some folder_path))).
  simpl.
  apply untouched_bind; [intros st; reflexivity|]. intros e.
  apply untouched_bind.
  { apply (writes_under_untouched (folder_path ++ ["Merged"])); [|exact HM].
    apply writes_under_when. rewrite <- (app_nil_r (folder_path ++ ["Merged"])) at 2.
    apply writes_under_os_makedirs. }
  intros _. apply untouched_bind.
  { exact (writes_under_untouched _ _ _
             (writes_under_copy_to_extracted_folder fuel folder_path
                (folder_path ++ ["Extracted"])) HE). }
  intros _. apply untouched_bind; [intros st; reflexivity|]. intros total.
  apply untouched_bind; [intros st; reflexivity|]. intros _.
  apply untouched_bind.
  { apply (writes_under_untouched (folder_path ++ ["Extracted"]));
      [|exact HE].
    apply writes_under_drain. constructor; [|constructor].
    exists []. rewrite app_nil_r. reflexivity. }
  intros _. apply untouched_bind.
  { exact (writes_under_untouched _ _ _
             (writes_under_organize_files_by_extension
                (folder_path ++ ["Extracted"]) (folder_path ++ ["Merged"]))
             HM). }
  intros _. apply untouched_bind; [intros st; reflexivity|]. intros _.
  intros st. reflexivity.
Qed.

Lemma run_leaves_the_originals_witness :
  lookup
    (fs (snd (select_folder_and_process 20 (Some []) (initial small_folder))))
    ["a.zip"] =
  lookup (fs (initial small_folder)) ["a.zip"].
Proof.
  apply (run_leaves_the_originals 20 [] (initial small_folder) ["a.zip"]);
    reflexivity.
Defined.

(** ** What can end the phases *)

Lemma kinds_kept_dir_at (t t' : node) (p : path) (es : entries_t) :
  kinds_kept t t' -> lookup t p = Some (Dir es) ->
  exists es', lookup t' p = Some (Dir es').
Proof.
  intros H Hl. destruct (H p _ Hl) as [n' [Hn' Hd]].
  destruct n' as [d|ms|es'|?]; try discriminate. exists es'. exact Hn'.
Qed.














(** ** The log and the progress bar *)

Lemma successes_app (l l' : list log_entry) :
  successes (l ++ l') = successes l + successes l'.
Proof. unfold successes. rewrite filter_app, length_app. reflexivity. Qed.

Lemma silent_ledger {A} (m : M A) : silent m -> ledger m.
Proof.
  intros H st. destruct (H st) as [Hl [Hp [_ Hd]]]. exists [].
  rewrite app_nil_r. unfold successes. simpl. rewrite Nat.add_0_r.
  repeat split; try assumption. intros [].
Qed.

Lemma ledger_ret {A} (a : A) : ledger (ret a).
Proof. apply silent_ledger. intros st. repeat split. Qed.

Lemma ledger_bind {A B} (m : M A) (k : A -> M B) :
  ledger m -> (forall a, ledger (k a)) -> ledger (bind m k).
Proof.
  intros Hm Hk st. unfold bind. destruct (Hm st) as [l [Hl [Hp [Hd Hc]]]].
  destruct (m st) as [[a|e|] s1]; simpl in *;
    try (exists l; repeat split; assumption).
  destruct (Hk a s1) as [l' [Hl' [Hp' [Hd' Hc']]]].
  exists (l ++ l'). rewrite Hl', Hp', Hd', Hl, Hp, Hd, successes_app.
  repeat split; try (rewrite <- ?app_assoc; reflexivity); try lia.
  intros Hin. apply in_app_or in Hin. tauto.
Qed.

Lemma ledger_try_except {A} (m : M A) (h : exn -> M A) :
  ledger m -> (forall e, ledger (h e)) -> ledger (try_except m h).
Proof.
  intros Hm Hh st. unfold try_except.
  destruct (Hm st) as [l [Hl [Hp [Hd Hc]]]].
  destruct (m st) as [[a|e|] s1]; simpl in *;
    try (exists l; repeat split; assumption).
  destruct (Hh e s1) as [l' [Hl' [Hp' [Hd' Hc']]]].
  exists (l ++ l'). rewrite Hl', Hp', Hd', Hl, Hp, Hd, successes_app.
  repeat split; try (rewrite <- ?app_assoc; reflexivity); try lia.
  intros Hin. apply in_app_or in Hin. tauto.
Qed.

Lemma ledger_for_each {A B} (xs : list A) (body : A -> B -> M B) :
  (forall x acc, ledger (body x acc)) ->
  forall acc, ledger (for_each xs body acc).
Proof.
  intros Hbody. induction xs as [|x xs IH]; intros acc; simpl.
  - apply ledger_ret.
  - apply ledger_bind; [apply Hbody|]. intros acc'. apply IH.
Qed.

Lemma ledger_when (b : bool) (m : M unit) : ledger m -> ledger (when b m).
Proof. destruct b; simpl; [tauto|intros _; apply ledger_ret]. Qed.

(** A success line and the step that follows it. *)
Lemma ledger_success (line : log_entry) :
  is_success line = true -> ledger (log_message line ;; update_progress).
Proof.
  intros Hs st. exists [line]. unfold successes. simpl. rewrite Hs. simpl.
  repeat split. intros [H|[]]. subst. discriminate.
Qed.

(** A line that comes without a step. *)
Lemma ledger_other (line : log_entry) :
  is_success line = false -> line <> Completed -> ledger (log_message line).
Proof.
  intros Hs Hc st. exists [line]. unfold successes. simpl. rewrite Hs. simpl.
  rewrite Nat.add_0_r. repeat split. intros [H|[]]. congruence.
Qed.

Lemma silent_os_path_exists (p : path) : silent (os_path_exists p).
Proof. intros st. repeat split. Qed.

Lemma silent_os_path_isdir (p : path) : silent (os_path_isdir p).
Proof. intros st. repeat split. Qed.

Lemma silent_os_path_isfile (p : path) : silent (os_path_isfile p).
Proof. intros st. repeat split. Qed.

Lemma silent_os_walk (p : path) : silent (os_walk p).
Proof. intros st. repeat split. Qed.

Lemma silent_os_listdir (p : path) : silent (os_listdir p).
Proof. intros st. unfold os_listdir. break_match; repeat split. Qed.

Lemma silent_os_makedirs (b : bool) (p : path) : silent (os_makedirs b p).
Proof. intros st. apply os_makedirs_widgets. Qed.

Lemma silent_ZipFile (p : path) : silent (ZipFile p).
Proof. intros st. rewrite (proj1 (ZipFile_widgets p st)). repeat split. Qed.

Lemma silent_extractall (ms : entries_t) (p : path) : silent (extractall ms p).
Proof. intros st. apply extractall_widgets. Qed.

Lemma silent_shutil_copyfile (src dst : path) :
  silent (shutil_copyfile src dst).
Proof. intros st. unfold shutil_copyfile. break_match; repeat split. Qed.

Lemma ledger_shutil_copy (src dst : path) : ledger (shutil_copy src dst).
Proof.
  unfold shutil_copy. apply ledger_bind.
  - apply silent_ledger, silent_os_path_isdir.
  - intros d. apply silent_ledger, silent_shutil_copyfile.
Qed.

Lemma ledger_shutil_copytree (fuel : nat) :
  forall src dst, ledger (shutil_copytree fuel src dst).
Proof.
  induction fuel as [|fuel IH]; intros src dst; simpl.
  - apply silent_ledger. intros st. repeat split.
  - apply ledger_bind; [apply silent_ledger, silent_os_listdir|].
    intros entries. apply ledger_bind;
      [apply silent_ledger, silent_os_makedirs|].
    intros _. apply ledger_bind.
    + apply ledger_for_each. intros name errors. apply ledger_try_except.
      * apply ledger_bind; [apply silent_ledger, silent_os_path_isdir|].
        intros d. apply ledger_bind; [|intros _; apply ledger_ret].
        destruct d; [apply IH|apply ledger_shutil_copy].
      * intros e. destruct e; apply ledger_ret.
    + intros errors. destruct errors; [apply ledger_ret|].
      apply silent_ledger. intros st. repeat split.
Qed.

Lemma ledger_stage_item (fuel : nat) (source dest : path) (item : string) :
  ledger (stage_item fuel source dest item).
Proof.
  unfold stage_item. apply ledger_try_except.
  - apply ledger_bind; [apply silent_ledger, silent_os_path_isdir|].
    intros d. destruct d.
    + apply ledger_bind; [apply ledger_shutil_copytree|].
      intros _. apply ledger_success. reflexivity.
    + apply ledger_bind; [apply silent_ledger, silent_os_path_isfile|].
      intros f. destruct (f && endswith item ".zip"); [|apply ledger_ret].
      apply ledger_bind; [apply ledger_shutil_copy|].
      intros _. apply ledger_success. reflexivity.
  - intros e. apply ledger_other; [reflexivity|discriminate].
Qed.

Lemma ledger_copy_to_extracted_folder (fuel : nat) (source dest : path) :
  ledger (copy_to_extracted_folder fuel source dest).
Proof.
  unfold copy_to_extracted_folder.
  apply ledger_bind; [apply silent_ledger, silent_os_path_exists|].
  intros e. apply ledger_bind;
    [apply ledger_when, silent_ledger, silent_os_makedirs|].
  intros _. apply ledger_bind; [apply silent_ledger, silent_os_listdir|].
  intros items. apply ledger_for_each. intros x acc. apply ledger_stage_item.
Qed.

Lemma ledger_success_then {A} (line : log_entry) (k : M A) :
  is_success line = true -> ledger k ->
  ledger (log_message line ;; update_progress ;; k).
Proof.
  intros Hs Hk st. unfold bind, log_message, update_progress.
  match goal with
  | |- context [k ?s] => destruct (Hk s) as [l [Hl [Hp [Hd Hc]]]]
  end.
  simpl in *. exists (line :: l). rewrite Hl, Hp, Hd.
  unfold successes. simpl. rewrite Hs. simpl.
  repeat split; try (rewrite <- ?app_assoc; reflexivity); try lia.
  intros [H|H]; [subst; discriminate|tauto].
Qed.

Lemma ledger_extract_item (cur : path) (item : string) (stack : list path) :
  ledger (extract_item cur item stack).
Proof.
  unfold extract_item. apply ledger_try_except.
  - apply ledger_bind; [apply silent_ledger, silent_os_path_isfile|].
    intros f. destruct (f && endswith item ".zip").
    + apply ledger_bind; [apply silent_ledger, silent_os_path_exists|].
      intros e. apply ledger_bind;
        [apply ledger_when, silent_ledger, silent_os_makedirs|].
      intros _. apply ledger_bind; [apply silent_ledger, silent_ZipFile|].
      intros ms. apply ledger_bind; [apply silent_ledger, silent_extractall|].
      intros _. apply ledger_success_then; [reflexivity|apply ledger_ret].
    + apply ledger_bind; [apply silent_ledger, silent_os_path_isdir|].
      intros d. destruct d; apply ledger_ret.
  - intros e. destruct e;
      (apply ledger_bind;
       [apply ledger_other; [reflexivity|discriminate]
       |intros _; apply ledger_ret]).
Qed.

Lemma ledger_drain (fuel : nat) : forall stack, ledger (drain fuel stack).
Proof.
  induction fuel as [|fuel IH]; intros [|cur rest]; simpl;
    try apply ledger_ret.
  - apply silent_ledger. intros st. repeat split.
  - apply ledger_bind; [apply silent_ledger, silent_os_listdir|].
    intros items. apply ledger_bind; [|intros stack'; apply IH].
    apply ledger_for_each. intros x acc. apply ledger_extract_item.
Qed.

Lemma ledger_sort_file (csv_folder pdf_folder root : path) (name : string) :
  ledger (sort_file csv_folder pdf_folder root name).
Proof.
  unfold sort_file. apply ledger_try_except.
  - destruct (endswith name ".csv").
    + apply ledger_bind; [apply ledger_shutil_copy|].
      intros _. apply ledger_success. reflexivity.
    + destruct (endswith name ".pdf"); [|apply ledger_ret].
      apply ledger_bind; [apply ledger_shutil_copy|].
      intros _. apply ledger_success. reflexivity.
  - intros e. destruct e; apply ledger_other; try reflexivity; discriminate.
Qed.

Lemma ledger_organize_files_by_extension (base merged : path) :
  ledger (organize_files_by_extension base merged).
Proof.
  unfold organize_files_by_extension.
  apply ledger_bind; [apply silent_ledger, silent_os_path_exists|].
  intros e. apply ledger_bind;
    [apply ledger_when, silent_ledger, silent_os_makedirs|].
  intros _. apply ledger_bind; [apply silent_ledger, silent_os_path_exists|].
  intros e'. apply ledger_bind;
    [apply ledger_when, silent_ledger, silent_os_makedirs|].
  intros _. apply ledger_bind; [apply silent_ledger, silent_os_walk|].
  intros dirs. apply ledger_for_each. intros [root files] acc.
  apply ledger_for_each. intros x acc'. apply ledger_sort_file.
Qed.

Lemma ledger_set_progress_maximum (n : nat) : ledger (set_progress_maximum n).
Proof.
  intros st. exists []. simpl. rewrite app_nil_r. unfold successes. simpl.
  rewrite Nat.add_0_r. repeat split. intros [].
Qed.

Lemma ledger_calculate_total_tasks (base : path) :
  ledger (calculate_total_tasks base).
Proof.
  unfold calculate_total_tasks. apply ledger_bind;
    [apply silent_ledger, silent_os_walk|].
  intros dirs. apply ledger_ret.
Qed.

Lemma tally_ledger {A} (m : M A) : ledger m -> tally m.
Proof.
  intros H st. destruct (H st) as [l [Hl [Hp _]]]. exists l. tauto.
Qed.

Lemma tally_bind {A B} (m : M A) (k : A -> M B) :
  tally m -> (forall a, tally (k a)) -> tally (bind m k).
Proof.
  intros Hm Hk st. unfold bind. destruct (Hm st) as [l [Hl Hp]].
  destruct (m st) as [[a|e|] s1]; simpl in *;
    try (exists l; split; assumption).
  destruct (Hk a s1) as [l' [Hl' Hp']].
  exists (l ++ l'). rewrite Hl', Hp', Hl, Hp, successes_app.
  split; [rewrite <- app_assoc; reflexivity|lia].
Qed.

Lemma tally_show (d : dialog) : tally (show d).
Proof.
  intros st. exists []. simpl. rewrite app_nil_r. unfold successes. simpl.
  rewrite Nat.add_0_r. split; reflexivity.
Qed.

Lemma tally_select_folder_and_process (fuel : nat) (folder_path : option path) :
  tally (select_folder_and_process fuel folder_path).
Proof.
  destruct folder_path as [folder_path|]; simpl; [|apply tally_show].
  apply tally_bind; [apply tally_ledger, silent_ledger, silent_os_path_exists|].
  intros e. apply tally_bind;
    [apply tally_ledger, ledger_when, silent_ledger, silent_os_makedirs|].
  intros _. apply tally_bind;
    [apply tally_ledger, ledger_copy_to_extracted_folder|].
  intros _. apply tally_bind;
    [apply tally_ledger, ledger_calculate_total_tasks|].
  intros n. apply tally_bind;
    [apply tally_ledger, ledger_set_progress_maximum|].
  intros _. apply tally_bind; [apply tally_ledger, ledger_drain|].
  intros _. apply tally_bind;
    [apply tally_ledger, ledger_organize_files_by_extension|].
  intros _. apply tally_bind; [apply tally_show|].
  intros _ st. exists [Completed]. split; [reflexivity|].
  unfold successes. simpl. rewrite Nat.add_0_r. reflexivity.
Qed.

(** The progress bar counts the success lines of the log: whatever folder is
    selected and however the run ends, the run only appends lines to the
    log, and the value of the bar grows by exactly the number of appended
    lines that report a copied folder, a copied or extracted archive, or a
    sorted file.  Error lines and the completion line move nothing. *)
Theorem progress_counts_the_success_lines (fuel : nat)
  (folder_path : option path) (st : state) :
  exists l,
    log_text (snd (select_folder_and_process fuel folder_path st)) =
      log_text st ++ l /\
    progress_value (snd (select_folder_and_process fuel folder_path st)) =
      progress_value st + successes l.
Proof. apply tally_select_folder_and_process. Qed.

Lemma reports_bind {A B} (m : M A) (k : A -> M B) :
  ledger m -> (forall a, reports (k a)) -> reports (bind m k).
Proof.
  intros Hm Hk st. unfold bind. destruct (Hm st) as [l [Hl [_ [Hd Hc]]]].
  destruct (m st) as [[a|e|] s1]; simpl in *;
    try (exists l; repeat split; assumption).
  destruct (Hk a s1) as [l' [Hc' H]].
  exists (l ++ l'). split.
  { intros Hin. apply in_app_or in Hin. tauto. }
  rewrite Hl, Hd in H. rewrite <- !app_assoc in *.
  destruct (fst (k a s1)); exact H.
Qed.

Lemma reports_select_folder_and_process (fuel : nat) (folder_path : path) :
  reports (select_folder_and_process fuel (Some folder_path)).
Proof.
  simpl.
  apply reports_bind; [apply silent_ledger, silent_os_path_exists|].
  intros e. apply reports_bind;
    [apply ledger_when, silent_ledger, silent_os_makedirs|].
  intros _. apply reports_bind; [apply ledger_copy_to_extracted_folder|].
  intros _. apply reports_bind; [apply ledger_calculate_total_tasks|].
  intros n. apply reports_bind; [apply ledger_set_progress_maximum|].
  intros _. apply reports_bind; [apply ledger_drain|].
  intros _. apply reports_bind; [apply ledger_organize_files_by_extension|].
  intros _ st. exists []. simpl. split; [intros []|]. split; reflexivity.
Qed.

(** Completion is reported exactly when the run reaches its end.  For a
    selected folder, a run that returns has shown the completion dialog as
    its only dialog and has written the completion line as its last line; a
    run that is ended by an exception has shown no dialog and has written no
    completion line.  No earlier line of the run is a completion line. *)
Theorem completion_is_reported_on_return (fuel : nat) (folder_path : path)
  (st : state) :
  exists l,
    ~ In Completed l /\
    match fst (select_folder_and_process fuel (Some folder_path) st) with
    | Ret _ =>
        dialogs (snd (select_folder_and_process fuel (Some folder_path) st)) =
          dialogs st ++ [ShowInfo] /\
        log_text (snd (select_folder_and_process fuel (Some folder_path) st)) =
          log_text st ++ l ++ [Completed]
    | _ =>
        dialogs (snd (select_folder_and_process fuel (Some folder_path) st)) =
          dialogs st /\
        log_text (snd (select_folder_and_process fuel (Some folder_path) st)) =
          log_text st ++ l
    end.
Proof. apply reports_select_folder_and_process. Qed.

(** ** What staging copies *)

Lemma with_fs_same (st : state) : with_fs st (fs st) = st.
Proof. destruct st; reflexivity. Qed.

Lemma diverge_irrefl (p : path) : diverge p p = false.
Proof.
  induction p as [|x p IH]; simpl; [reflexivity|].
  rewrite String.eqb_refl. exact IH.
Qed.

Lemma nodupb_middle (l1 l2 : list string) (x : string) :
  nodupb (l1 ++ x :: l2) = true -> ~ In x l1 /\ ~ In x l2.
Proof.
  induction l1 as [|y l1 IH]; simpl; intros H;
    apply andb_true_iff in H; destruct H as [Hy Hl].
  - split; [tauto|]. intros Hin. apply negb_true_iff in Hy.
    assert (existsb (String.eqb x) l2 = true).
    { apply existsb_exists. exists x. split; [exact Hin|apply String.eqb_refl]. }
    congruence.
  - destruct (IH Hl) as [H1 H2]. split; [|exact H2].
    intros [E|Hin]; [|tauto]. subst y. apply negb_true_iff in Hy.
    assert (existsb (String.eqb x) (l1 ++ x :: l2) = true).
    { apply existsb_exists. exists x. split; [|apply String.eqb_refl].
      apply in_or_app. right. left. reflexivity. }
    congruence.
Qed.

Lemma shutil_copytree_S (fuel : nat) (src dst : path) :
  shutil_copytree (S fuel) src dst =
  (entries <- os_listdir src ;;
   os_makedirs true dst ;;
   errors <- for_each entries (copytree_entry fuel src dst) 0 ;;
   match errors with
   | O => ret tt
   | _ => raise (ShutilError errors)
   end).
Proof. reflexivity. Qed.

Lemma put_new_child (t : node) (dst : path) (x : string) (c : node)
  (es1 : entries_t) :
  lookup t dst = Some (Dir es1) -> assoc x es1 = None ->
  put t (dst ++ [x]) c = put t dst (Dir (es1 ++ [(x, c)])).
Proof.
  intros Hd Hx. rewrite (put_app _ _ _ _ _ Hd). simpl. rewrite Hx.
  reflexivity.
Qed.

(** One entry of a copied tree. *)
Lemma copy_entry (fuel : nat) (src dst : path) (x : string) (c : node)
  (es1 : entries_t) (errors : nat) (st : state) :
  copies_trees fuel ->
  lookup (fs st) (src ++ [x]) = Some c ->
  wf c = true -> height c <= fuel ->
  lookup (fs st) dst = Some (Dir es1) -> assoc x es1 = None ->
  diverge (dst ++ [x]) (src ++ [x]) = true ->
  exists t,
    put (fs st) dst (Dir (es1 ++ [(x, c)])) = Some t /\
    copytree_entry fuel src dst x errors st = (Ret errors, with_fs st t).
Proof.
  intros Hrec Hc Hwf Hh Hd Hx Hdiv.
  destruct (put_defined (fs st) (Dir es1) dst (Dir (es1 ++ [(x, c)])) Hd)
    as [t Ht].
  exists t. split; [exact Ht|].
  assert (Hput : put (fs st) (dst ++ [x]) c = Some t).
  { rewrite (put_new_child _ _ _ _ _ Hd Hx). exact Ht. }
  assert (Hnone : lookup (fs st) (dst ++ [x]) = None).
  { rewrite lookup_app, Hd. simpl. rewrite Hx. reflexivity. }
  unfold copytree_entry, try_except, bind, os_path_isdir. rewrite Hc.
  destruct c as [d|ms|ces|?]; simpl.
  - unfold shutil_copy, bind, os_path_isdir, shutil_copyfile.
    rewrite Hnone. simpl. rewrite Hc, Hnone, Hput.
    rewrite path_eqb_neq; [reflexivity|].
    intros E. rewrite E, diverge_irrefl in Hdiv. discriminate.
  - unfold shutil_copy, bind, os_path_isdir, shutil_copyfile.
    rewrite Hnone. simpl. rewrite Hc, Hnone, Hput.
    rewrite path_eqb_neq; [reflexivity|].
    intros E. rewrite E, diverge_irrefl in Hdiv. discriminate.
  - rewrite diverge_sym in Hdiv.
    destruct (Hrec (src ++ [x]) dst x ces es1 st Hh Hwf Hc Hd Hx Hdiv)
      as [t' [Ht' Hrun]].
    rewrite Hrun. simpl. congruence.
  - unfold shutil_copy, bind, os_path_isdir, shutil_copyfile.
    rewrite Hnone. simpl. rewrite Hc, Hnone, Hput.
    rewrite path_eqb_neq; [reflexivity|].
    intros E. rewrite E, diverge_irrefl in Hdiv. discriminate.
Qed.

(** The loop of [shutil.copytree] over entries that are still to copy. *)
Lemma copy_entries (fuel : nat) (src dst : path) :
  copies_trees fuel ->
  forall (es2 es1 : entries_t) (st : state),
    nodupb (names (es1 ++ es2)) = true ->
    forallb (fun e => wf (snd e)) es2 = true ->
    children_le fuel es2 ->
    lookup (fs st) dst = Some (Dir es1) ->
    (forall x c, In (x, c) es2 -> lookup (fs st) (src ++ [x]) = Some c) ->
    (forall x y, In x (names es2) -> In y (names es2) ->
                 diverge (dst ++ [y]) (src ++ [x]) = true) ->
    exists t,
      put (fs st) dst (Dir (es1 ++ es2)) = Some t /\
      for_each (names es2) (copytree_entry fuel src dst) 0 st =
      (Ret 0, with_fs st t).
Proof.
  intros Hrec. induction es2 as [|[x c] es2 IH];
    intros es1 st Hnd Hwf Hle Hd Hsrc Hdiv.
  - exists (fs st). rewrite app_nil_r. split.
    + apply put_same. exact Hd.
    + simpl. rewrite with_fs_same. reflexivity.
  - unfold names in Hnd. rewrite map_app in Hnd. simpl in Hnd.
    destruct (nodupb_middle _ _ _ Hnd) as [Hx1 Hx2].
    simpl in Hwf. apply andb_true_iff in Hwf. destruct Hwf as [Hwc Hwf].
    inversion Hle as [|? ? Hhc Hle']. subst. simpl in Hhc.
    destruct (copy_entry fuel src dst x c es1 0 st Hrec) as [t1 [Ht1 Hrun]];
      try assumption.
    + apply Hsrc. left. reflexivity.
    + apply assoc_None_names. exact Hx1.
    + apply Hdiv; left; reflexivity.
    + destruct (IH (es1 ++ [(x, c)]) (with_fs st t1)) as [t2 [Ht2 Hloop]].
      * rewrite <- app_assoc. unfold names. rewrite map_app. exact Hnd.
      * exact Hwf.
      * exact Hle'.
      * simpl. exact (lookup_put_same _ _ _ _ Ht1).
      * intros y c' Hin. simpl.
        rewrite <- (put_new_child _ _ _ _ _ Hd
                      (proj2 (assoc_None_names x es1) Hx1)) in Ht1.
        rewrite (lookup_put_diverge _ _ _ _ _ Ht1).
        -- apply Hsrc. right. exact Hin.
        -- apply Hdiv; [right|left; reflexivity].
           apply in_map_iff. exists (y, c'). split; [reflexivity|exact Hin].
      * intros y z Hy Hz. apply Hdiv; right; assumption.
      * exists t2. split.
        -- simpl in Ht2. rewrite (put_put _ _ _ _ _ Ht1) in Ht2.
           rewrite <- app_assoc in Ht2. exact Ht2.
        -- simpl. unfold bind. rewrite Hrun. exact Hloop.
Qed.

Lemma copytree_copies (fuel : nat) : copies_trees fuel.
Proof.
  induction fuel as [|fuel IH];
    intros src dst x es des st Hh Hwf Hsrc Hdst Hx Hdiv.
  - pose proof (height_pos (Dir es)). lia.
  - assert (Hnone : lookup (fs st) (dst ++ [x]) = None).
    { rewrite lookup_app, Hdst. simpl. rewrite Hx. reflexivity. }
    destruct (put_defined (fs st) (Dir des) dst (Dir (des ++ [(x, Dir [])]))
                Hdst) as [t0 Ht0].
    assert (Hmk : mkdirs (fs st) (dst ++ [x]) = Some t0).
    { rewrite (mkdirs_sibling _ _ _ _ Hdst Hx),
        (put_new_child _ _ _ _ _ Hdst Hx). exact Ht0. }
    assert (Hput0 : put (fs st) (dst ++ [x]) (Dir []) = Some t0).
    { rewrite (put_new_child _ _ _ _ _ Hdst Hx). exact Ht0. }
    simpl in Hwf. apply andb_true_iff in Hwf. destruct Hwf as [Hnd Hwf].
    destruct (copy_entries fuel src (dst ++ [x]) IH es [] (with_fs st t0))
      as [t [Ht Hloop]].
    + exact Hnd.
    + exact Hwf.
    + apply height_Dir. exact Hh.
    + simpl. exact (lookup_put_same _ _ _ _ Hput0).
    + intros y c Hin. simpl.
      rewrite (lookup_put_diverge _ _ _ _ _ Hput0).
      * rewrite lookup_app, Hsrc. simpl.
        rewrite (nodupb_assoc es y c Hnd Hin). reflexivity.
      * rewrite diverge_sym. apply (diverge_app src (dst ++ [x]) [y] []) in Hdiv.
        rewrite app_nil_r in Hdiv. exact Hdiv.
    + intros y z _ _. rewrite diverge_sym. apply diverge_app. exact Hdiv.
    + exists t. split.
      * simpl in Ht. rewrite (put_put _ _ _ _ _ Hput0) in Ht. exact Ht.
      * rewrite shutil_copytree_S. unfold bind at 1. unfold os_listdir.
        rewrite Hsrc. unfold bind at 1. unfold os_makedirs.
        rewrite Hnone, Hmk. unfold bind. rewrite Hloop. reflexivity.
Qed.

Lemma diverge_prefix (p q r : path) : diverge (p ++ q) (p ++ r) = diverge q r.
Proof.
  induction p as [|x p IH]; simpl; [reflexivity|].
  rewrite String.eqb_refl. exact IH.
Qed.

Lemma put_over_child (t : node) (dst : path) (x : string) (v w : node)
  (es1 : entries_t) :
  lookup t dst = Some (Dir (es1 ++ [(x, w)])) -> assoc x es1 = None ->
  put t (dst ++ [x]) v = put t dst (Dir (es1 ++ [(x, v)])).
Proof.
  intros Hd Hx. rewrite (put_app _ _ _ _ _ Hd). simpl.
  rewrite assoc_app, Hx. simpl. rewrite String.eqb_refl. simpl.
  replace (set_entry x v (es1 ++ [(x, w)])) with (es1 ++ [(x, v)]);
    [reflexivity|].
  clear Hd. induction es1 as [|[y n] es1 IH]; simpl in *.
  - rewrite String.eqb_refl. reflexivity.
  - destruct (String.eqb x y); [discriminate|]. rewrite <- IH by exact Hx.
    reflexivity.
Qed.

Lemma nodupb_filter (f : string * node -> bool) (es : entries_t) :
  nodupb (names es) = true -> nodupb (names (filter f es)) = true.
Proof.
  induction es as [|[x c] es IH]; simpl; [reflexivity|].
  intros H. apply andb_true_iff in H. destruct H as [Hx Hes].
  destruct (f (x, c)); [|exact (IH Hes)].
  simpl. rewrite (IH Hes), andb_true_r.
  apply negb_true_iff. apply negb_true_iff in Hx.
  destruct (existsb (String.eqb x) (names (filter f es))) eqn:E;
    [|reflexivity].
  apply existsb_exists in E. destruct E as [y [Hy Hxy]].
  rewrite <- Hx. symmetry. apply existsb_exists. exists y.
  split; [|exact Hxy].
  apply in_map_iff in Hy. destruct Hy as [[z n] [Hz Hin]].
  apply filter_In in Hin. apply in_map_iff. exists (z, n). tauto.
Qed.

(** A regular file copied to a new name in a directory. *)
Lemma copy_file_new (src dst : path) (x : string) (c : node)
  (es1 : entries_t) (st : state) :
  lookup (fs st) src = Some c -> is_dir c = false ->
  lookup (fs st) dst = Some (Dir es1) -> assoc x es1 = None ->
  src <> dst ++ [x] ->
  exists t,
    put (fs st) dst (Dir (es1 ++ [(x, c)])) = Some t /\
    shutil_copy src (dst ++ [x]) st = (Ret tt, with_fs st t).
Proof.
  intros Hc Hfile Hd Hx Hne.
  destruct (put_defined (fs st) (Dir es1) dst (Dir (es1 ++ [(x, c)])) Hd)
    as [t Ht].
  exists t. split; [exact Ht|].
  assert (Hput : put (fs st) (dst ++ [x]) c = Some t).
  { rewrite (put_new_child _ _ _ _ _ Hd Hx). exact Ht. }
  assert (Hnone : lookup (fs st) (dst ++ [x]) = None).
  { rewrite lookup_app, Hd. simpl. rewrite Hx. reflexivity. }
  unfold shutil_copy, bind, os_path_isdir, shutil_copyfile.
  rewrite Hnone. simpl. rewrite Hc, Hnone, Hput, (path_eqb_neq _ _ Hne).
  destruct c; [reflexivity|reflexivity|discriminate|reflexivity].
Qed.

(** A turn of the staging loop on an entry that is taken. *)
Lemma stage_entry (fuel : nat) (source : path) (name x : string) (c : node)
  (W1 : entries_t) (st : state) :
  lookup (fs st) (source ++ [x]) = Some c ->
  wf c = true -> height c <= fuel ->
  lookup (fs st) (source ++ [name]) = Some (Dir W1) ->
  assoc x W1 = None -> x <> name ->
  staged (x, c) = true ->
  exists t,
    put (fs st) (source ++ [name]) (Dir (W1 ++ [(x, c)])) = Some t /\
    stage_item fuel source (source ++ [name]) x st =
    (Ret tt,
     mkState t
       (log_text st ++ [staging_line source (source ++ [name]) (x, c)])
       (progress_value st + 1) (progress_maximum st) (dialogs st)).
Proof.
  intros Hc Hwf Hh Hd Hx Hne Hst.
  assert (Hdiv : diverge (source ++ [x]) ((source ++ [name]) ++ [x]) = true).
  { rewrite <- app_assoc, diverge_prefix. simpl.
    destruct (String.eqb x name) eqn:E; [|reflexivity].
    apply String.eqb_eq in E. contradiction. }
  unfold stage_item, try_except, bind at 1, os_path_isdir. rewrite Hc.
  destruct (is_dir c) eqn:Edir.
  - destruct c as [d|ms|ces|?]; try discriminate.
    destruct (copytree_copies fuel (source ++ [x]) (source ++ [name]) x ces W1
                st Hh Hwf Hc Hd Hx Hdiv) as [t [Ht Hrun]].
    exists t. split.
    + rewrite <- (put_new_child _ _ _ _ _ Hd Hx). exact Ht.
    + unfold bind. rewrite Hrun. reflexivity.
  - unfold staged in Hst. simpl in Hst. rewrite Edir in Hst. simpl in Hst.
    destruct (copy_file_new (source ++ [x]) (source ++ [name]) x c W1 st
                Hc Edir Hd Hx) as [t [Ht Hrun]].
    { intros E. rewrite E, diverge_irrefl in Hdiv. discriminate. }
    exists t. split; [exact Ht|].
    unfold bind, os_path_isfile. rewrite Hc. unfold is_file. rewrite Edir, Hst.
    simpl. rewrite Hrun. unfold staging_line. simpl. rewrite Edir.
    reflexivity.
Qed.

(** A turn of the staging loop on an entry that is left. *)
Lemma stage_entry_skip (fuel : nat) (source dest : path) (x : string)
  (c : node) (st : state) :
  lookup (fs st) (source ++ [x]) = Some c ->
  staged (x, c) = false ->
  stage_item fuel source dest x st = (Ret tt, st).
Proof.
  intros Hc Hst. unfold staged in Hst. simpl in Hst.
  apply orb_false_iff in Hst. destruct Hst as [Hd Hz].
  unfold stage_item, try_except, bind, os_path_isdir, os_path_isfile.
  rewrite Hc, Hd, Hz, andb_false_r. reflexivity.
Qed.

(** The staging loop over the entries of the source that were there before
    the working area was made. *)
Lemma stage_entries (fuel : nat) (source : path) (name : string) :
  forall (es2 W1 : entries_t) (st : state),
    nodupb (names es2) = true ->
    forallb (fun e => wf (snd e)) es2 = true ->
    children_le fuel es2 ->
    lookup (fs st) (source ++ [name]) = Some (Dir W1) ->
    (forall x c, In (x, c) es2 -> lookup (fs st) (source ++ [x]) = Some c) ->
    (forall x, In x (names es2) -> x <> name /\ assoc x W1 = None) ->
    exists t,
      put (fs st) (source ++ [name]) (Dir (W1 ++ filter staged es2)) = Some t /\
      for_each (names es2)
        (fun item _ => stage_item fuel source (source ++ [name]) item) tt st =
      (Ret tt,
       mkState t
         (log_text st ++
          map (staging_line source (source ++ [name])) (filter staged es2))
         (progress_value st + List.length (filter staged es2))
         (progress_maximum st) (dialogs st)).
Proof.
  induction es2 as [|[x c] es2 IH]; intros W1 st Hnd Hwf Hle Hd Hsrc Hnew.
  - exists (fs st). simpl. rewrite !app_nil_r, Nat.add_0_r. split.
    + apply put_same. exact Hd.
    + destruct st; reflexivity.
  - simpl in Hnd. apply andb_true_iff in Hnd. destruct Hnd as [Hx Hnd].
    simpl in Hwf. apply andb_true_iff in Hwf. destruct Hwf as [Hwc Hwf].
    inversion Hle as [|? ? Hhc Hle']. subst. simpl in Hhc.
    assert (Hxs : ~ In x (names es2)).
    { intros Hin. apply negb_true_iff in Hx.
      assert (existsb (String.eqb x) (names es2) = true).
      { apply existsb_exists. exists x. split; [exact Hin|].
        apply String.eqb_refl. }
      congruence. }
    destruct (Hnew x (or_introl eq_refl)) as [Hne HxW].
    pose proof (Hsrc x c (or_introl eq_refl)) as Hc.
    simpl filter. simpl for_each. unfold bind.
    destruct (staged (x, c)) eqn:Est.
    + destruct (stage_entry fuel source name x c W1 st Hc Hwc Hhc Hd HxW Hne
                  Est) as [t1 [Ht1 Hrun]].
      rewrite Hrun.
      set (st1 := mkState t1
                    (log_text st ++
                     [staging_line source (source ++ [name]) (x, c)])
                    (progress_value st + 1) (progress_maximum st) (dialogs st)).
      destruct (IH (W1 ++ [(x, c)]) st1 Hnd Hwf Hle') as [t2 [Ht2 Hloop]].
      * simpl. exact (lookup_put_same _ _ _ _ Ht1).
      * intros y c' Hin. simpl.
        rewrite <- (put_new_child _ _ _ _ _ Hd HxW) in Ht1.
        rewrite (lookup_put_diverge _ _ _ _ _ Ht1).
        -- apply Hsrc. right. exact Hin.
        -- rewrite <- app_assoc, diverge_prefix. simpl.
           destruct (String.eqb name y) eqn:E; [|reflexivity].
           apply String.eqb_eq in E. subst y.
           destruct (Hnew name) as [N _]; [|contradiction].
           right. apply in_map_iff. exists (name, c'). split;
             [reflexivity|exact Hin].
      * intros y Hy. destruct (Hnew y (or_intror Hy)) as [N HyW].
        split; [exact N|]. rewrite assoc_app, HyW. simpl.
        destruct (String.eqb y x) eqn:E; [|reflexivity].
        apply String.eqb_eq in E. subst y. contradiction.
      * exists t2. split.
        -- simpl in Ht2. rewrite (put_put _ _ _ _ _ Ht1) in Ht2.
           rewrite <- app_assoc in Ht2. exact Ht2.
        -- rewrite Hloop. unfold st1. simpl.
           rewrite <- !app_assoc. simpl.
           replace (progress_value st + 1 +
                    List.length (filter staged es2))
             with (progress_value st + S (List.length (filter staged es2)))
             by lia.
           reflexivity.
    + rewrite (stage_entry_skip fuel source (source ++ [name]) x c st Hc Est).
      destruct (IH W1 st Hnd Hwf Hle' Hd) as [t2 [Ht2 Hloop]].
      * intros y c' Hin. apply Hsrc. right. exact Hin.
      * intros y Hy. apply Hnew. right. exact Hy.
      * exists t2. split; [exact Ht2|exact Hloop].
Qed.

Lemma children_le_filter (f : string * node -> bool) (k : nat)
  (es : entries_t) :
  children_le k es -> children_le k (filter f es).
Proof.
  unfold children_le. rewrite !Forall_forall. intros H e Hin.
  apply filter_In in Hin. apply H. tauto.
Qed.

Lemma wf_filter (f : string * node -> bool) (es : entries_t) :
  forallb (fun e => wf (snd e)) es = true ->
  forallb (fun e => wf (snd e)) (filter f es) = true.
Proof.
  rewrite !forallb_forall. intros H e Hin. apply filter_In in Hin.
  apply H. tauto.
Qed.

Lemma assoc_filter_None (f : string * node -> bool) (x : string)
  (es : entries_t) :
  assoc x es = None -> assoc x (filter f es) = None.
Proof.
  intros H. apply assoc_None_names. intros Hin.
  apply (proj1 (assoc_None_names x es) H).
  apply in_map_iff in Hin. destruct Hin as [[z n] [Hz Hin]].
  apply filter_In in Hin. apply in_map_iff. exists (z, n). tauto.
Qed.

(** The turn of the staging loop on the working area itself: its content so
    far is copied into a folder of its own name inside it. *)
Lemma stage_working_area (fuel : nat) (source : path) (name : string)
  (W : entries_t) (st : state) :
  lookup (fs st) (source ++ [name]) = Some (Dir W) ->
  nodupb (names W) = true ->
  forallb (fun e => wf (snd e)) W = true ->
  children_le fuel W ->
  assoc name W = None ->
  exists t,
    put (fs st) (source ++ [name]) (Dir (W ++ [(name, Dir W)])) = Some t /\
    stage_item (S fuel) source (source ++ [name]) name st =
    (Ret tt,
     mkState t
       (log_text st ++
        [staging_line source (source ++ [name]) (name, Dir W)])
       (progress_value st + 1) (progress_maximum st) (dialogs st)).
Proof.
  intros Hd Hnd Hwf Hle Hx.
  assert (Hnone : lookup (fs st) ((source ++ [name]) ++ [name]) = None).
  { rewrite lookup_app, Hd. simpl. rewrite Hx. reflexivity. }
  destruct (put_defined (fs st) (Dir W) (source ++ [name]) (Dir (W ++ [(name, Dir [])])) Hd)
    as [ta Hta].
  assert (Hmk : mkdirs (fs st) ((source ++ [name]) ++ [name]) = Some ta).
  { rewrite (mkdirs_sibling _ _ _ _ Hd Hx), (put_new_child _ _ _ _ _ Hd Hx).
    exact Hta. }
  assert (Hda : lookup ta (source ++ [name]) = Some (Dir (W ++ [(name, Dir [])]))).
  { exact (lookup_put_same _ _ _ _ Hta). }
  destruct (copy_entries fuel (source ++ [name]) ((source ++ [name]) ++ [name]) (copytree_copies fuel) W []
              (with_fs st ta)) as [tb [Htb Hloop]].
  - exact Hnd.
  - exact Hwf.
  - exact Hle.
  - simpl. rewrite lookup_app, Hda. simpl.
    rewrite assoc_app, Hx. simpl. rewrite String.eqb_refl. reflexivity.
  - intros x c Hin. simpl. rewrite lookup_app, Hda. simpl.
    rewrite assoc_app, (nodupb_assoc W x c Hnd Hin). reflexivity.
  - intros x y Hin _. rewrite <- app_assoc, diverge_prefix. simpl.
    destruct (String.eqb name x) eqn:E; [|reflexivity].
    apply String.eqb_eq in E. subst x.
    apply (proj1 (assoc_None_names name W) Hx) in Hin. destruct Hin.
  - exists tb. split.
    + simpl in Htb. rewrite (put_over_child _ _ _ _ _ _ Hda Hx) in Htb.
      rewrite (put_put _ _ _ _ _ Hta) in Htb. exact Htb.
    + assert (Hct : shutil_copytree (S fuel) (source ++ [name])
                      ((source ++ [name]) ++ [name]) st =
                    (Ret tt, with_fs st tb)).
      { rewrite shutil_copytree_S. unfold bind at 1. unfold os_listdir.
        rewrite Hd. unfold bind at 1. unfold os_makedirs.
        rewrite Hnone, Hmk. unfold bind. rewrite Hloop. reflexivity. }
      unfold stage_item, try_except, bind, os_path_isdir. cbv beta.
      rewrite Hd. change (is_dir (Dir W)) with true. cbv beta iota.
      rewrite Hct. reflexivity.
Qed.

Lemma nodupb_NoDup (l : list string) : nodupb l = true <-> NoDup l.
Proof.
  induction l as [|x l IH]; simpl.
  - split; [constructor|reflexivity].
  - rewrite andb_true_iff, negb_true_iff, IH. split.
    + intros [Hx Hl]. constructor; [|exact Hl]. intros Hin.
      assert (existsb (String.eqb x) l = true).
      { apply existsb_exists. exists x. split; [exact Hin|].
        apply String.eqb_refl. }
      congruence.
    + intros H. inversion H as [|? ? Hx Hl]. subst. split; [|exact Hl].
      destruct (existsb (String.eqb x) l) eqn:E; [|reflexivity].
      apply existsb_exists in E. destruct E as [y [Hy Exy]].
      apply String.eqb_eq in Exy. subst y. contradiction.
Qed.

Lemma NoDup_app_parts (l1 l2 : list string) :
  NoDup (l1 ++ l2) ->
  NoDup l1 /\ NoDup l2 /\ forall x, In x l1 -> ~ In x l2.
Proof.
  induction l1 as [|y l1 IH]; simpl; intros H.
  - repeat split; [constructor|exact H|intros x []].
  - inversion H as [|? ? Hy Hl]. subst.
    destruct (IH Hl) as [H1 [H2 Hd]]. repeat split.
    + constructor; [|exact H1]. intros Hin. apply Hy.
      apply in_or_app. left. exact Hin.
    + exact H2.
    + intros x [E|Hin]; [|apply Hd; exact Hin].
      subst x. intros Hin. apply Hy. apply in_or_app. right. exact Hin.
Qed.

Lemma In_names (x : string) (c : node) (es : entries_t) :
  In (x, c) es -> In x (names es).
Proof. intros H. apply in_map_iff. exists (x, c). split; [reflexivity|exact H]. Qed.

Lemma filter_names (f : string * node -> bool) (x : string)
  (es : entries_t) :
  In x (names (filter f es)) -> In x (names es).
Proof.
  intros Hin. apply in_map_iff in Hin. destruct Hin as [[z n] [Hz Hin]].
  apply filter_In in Hin. apply in_map_iff. exists (z, n). tauto.
Qed.

(** Staging for every order of the listing: the entries [before] are met
    before the working area itself, the entries [after] are met after it. *)
Lemma staging_result_listed (fuel : nat) (source_folder : path)
  (name : string) (es before after : entries_t) (st : state) :
  lookup (fs st) source_folder = Some (Dir es) ->
  wf (Dir es) = true ->
  assoc name es = None ->
  height (Dir es) <= fuel ->
  Permutation (before ++ after) es ->
  exists t,
    put (fs st) (source_folder ++ [name])
      (Dir (filter staged before ++
            (name, Dir (filter staged before)) :: filter staged after)) =
      Some t /\
    copy_to_extracted_folder_listed (names before ++ name :: names after)
      fuel source_folder (source_folder ++ [name]) st =
    (Ret tt,
     mkState t
       (log_text st ++
        map (staging_line source_folder (source_folder ++ [name]))
          (filter staged before ++
           (name, Dir (filter staged before)) :: filter staged after))
       (progress_value st +
        S (List.length (filter staged before) +
           List.length (filter staged after)))
       (progress_maximum st) (dialogs st)).
Proof.
  intros Hs Hwf Hx Hh Hperm.
  destruct fuel as [|fuel]; [pose proof (height_pos (Dir es)); lia|].
  simpl in Hwf. apply andb_true_iff in Hwf. destruct Hwf as [Hnd Hwf].
  assert (Hle : children_le fuel es) by (apply height_Dir; exact Hh).
  set (D := source_folder ++ [name]).
  set (Wb := filter staged before).
  set (Wa := filter staged after).
  assert (Hinb : forall e, In e before -> In e es).
  { intros e He. apply (Permutation_in _ Hperm). apply in_or_app.
    left. exact He. }
  assert (Hina : forall e, In e after -> In e es).
  { intros e He. apply (Permutation_in _ Hperm). apply in_or_app.
    right. exact He. }
  assert (Hndall : NoDup (names before ++ names after)).
  { apply nodupb_NoDup in Hnd. unfold names in *. rewrite <- map_app.
    apply (Permutation_NoDup (Permutation_sym (Permutation_map fst Hperm))).
    exact Hnd. }
  destruct (NoDup_app_parts _ _ Hndall) as [Hndb [Hnda Hdisj]].
  assert (Hwfb : forall l, (forall e, In e l -> In e es) ->
                           forallb (fun e => wf (snd e)) l = true).
  { intros l Hl. apply forallb_forall. intros e He.
    rewrite forallb_forall in Hwf. apply Hwf. apply Hl. exact He. }
  assert (Hleb : forall l k, (forall e, In e l -> In e es) -> fuel <= k ->
                             children_le k l).
  { intros l k Hl Hk. unfold children_le in *. rewrite Forall_forall in *.
    intros e He. specialize (Hle e (Hl e He)). lia. }
  assert (Hname : forall l x, (forall e, In e l -> In e es) ->
                              In x (names l) -> x <> name).
  { intros l x Hl Hin E. subst x. apply in_map_iff in Hin.
    destruct Hin as [[z c] [Hz Hin]]. simpl in Hz. subst z.
    apply (proj1 (assoc_None_names name es) Hx).
    exact (In_names _ _ _ (Hl _ Hin)). }
  assert (Hnone : lookup (fs st) D = None).
  { unfold D. rewrite lookup_app, Hs. simpl. rewrite Hx. reflexivity. }
  destruct (put_defined (fs st) (Dir es) source_folder
              (Dir (es ++ [(name, Dir [])])) Hs) as [t0 Ht0].
  assert (Hput0 : put (fs st) D (Dir []) = Some t0).
  { unfold D. rewrite (put_new_child _ _ _ _ _ Hs Hx). exact Ht0. }
  assert (Hmk : mkdirs (fs st) D = Some t0).
  { unfold D. rewrite (mkdirs_sibling _ _ _ _ Hs Hx). exact Hput0. }
  assert (Hs0 : lookup t0 source_folder = Some (Dir (es ++ [(name, Dir [])]))).
  { exact (lookup_put_same _ _ _ _ Ht0). }
  assert (Hsrc0 : forall x c, In (x, c) es ->
                              lookup t0 (source_folder ++ [x]) = Some c).
  { intros x c Hin. rewrite lookup_app, Hs0. simpl.
    rewrite assoc_app, (nodupb_assoc es x c Hnd Hin). reflexivity. }
  assert (Hfar : forall t t' v x, x <> name -> put t D v = Some t' ->
                 lookup t' (source_folder ++ [x]) =
                 lookup t (source_folder ++ [x])).
  { intros t t' v x Hne Hp. apply (lookup_put_diverge _ _ _ _ _ Hp).
    unfold D. rewrite diverge_prefix. simpl.
    destruct (String.eqb name x) eqn:E; [|reflexivity].
    apply String.eqb_eq in E. congruence. }
  (* the entries met before the working area *)
  destruct (stage_entries (S fuel) source_folder name before []
              (with_fs st t0)) as [t1 [Ht1 Hloop1]].
  { apply nodupb_NoDup. exact Hndb. }
  { exact (Hwfb before Hinb). }
  { apply (Hleb before (S fuel) Hinb). lia. }
  { simpl. exact (lookup_put_same _ _ _ _ Hput0). }
  { intros x c Hin. simpl. apply Hsrc0. apply Hinb. exact Hin. }
  { intros x Hin. split; [exact (Hname before x Hinb Hin)|reflexivity]. }
  simpl in Ht1, Hloop1. fold Wb D in Ht1, Hloop1.
  set (st1 := mkState t1
                (log_text st ++ map (staging_line source_folder D) Wb)
                (progress_value st + List.length Wb) (progress_maximum st)
                (dialogs st)) in *.
  (* the working area itself *)
  destruct (stage_working_area fuel source_folder name Wb st1)
    as [t2 [Ht2 Hself]].
  { simpl. exact (lookup_put_same _ _ _ _ Ht1). }
  { apply nodupb_filter. apply nodupb_NoDup. exact Hndb. }
  { apply wf_filter. exact (Hwfb before Hinb). }
  { apply children_le_filter. apply (Hleb before fuel Hinb). lia. }
  { apply assoc_None_names. intros Hin. apply filter_names in Hin.
    exact (Hname before name Hinb Hin eq_refl). }
  simpl in Ht2. fold D in Ht2, Hself.
  set (st2 := mkState t2
                (log_text st1 ++
                 [staging_line source_folder D (name, Dir Wb)])
                (progress_value st1 + 1) (progress_maximum st1)
                (dialogs st1)) in *.
  (* the entries met after it *)
  destruct (stage_entries (S fuel) source_folder name after
              (Wb ++ [(name, Dir Wb)]) st2) as [t3 [Ht3 Hloop3]].
  { apply nodupb_NoDup. exact Hnda. }
  { exact (Hwfb after Hina). }
  { apply (Hleb after (S fuel) Hina). lia. }
  { simpl. exact (lookup_put_same _ _ _ _ Ht2). }
  { intros x c Hin. simpl.
    assert (Hne : x <> name)
      by exact (Hname after x Hina (In_names _ _ _ Hin)).
    rewrite (Hfar _ _ _ x Hne Ht2), (Hfar _ _ _ x Hne Ht1).
    apply Hsrc0. apply Hina. exact Hin. }
  { intros x Hin.
    assert (Hne : x <> name) by exact (Hname after x Hina Hin).
    split; [exact Hne|]. rewrite assoc_app.
    replace (assoc x Wb) with (@None node).
    - simpl. destruct (String.eqb x name) eqn:E; [|reflexivity].
      apply String.eqb_eq in E. contradiction.
    - symmetry. apply assoc_None_names. intros Hb.
      apply filter_names in Hb. exact (Hdisj x Hb Hin). }
  simpl in Ht3, Hloop3. fold Wa D in Ht3, Hloop3.
  exists t3. split.
  - rewrite (put_put _ _ _ _ _ Ht2), (put_put _ _ _ _ _ Ht1),
      (put_put _ _ _ _ _ Hput0) in Ht3.
    rewrite <- app_assoc in Ht3. exact Ht3.
  - unfold copy_to_extracted_folder_listed. fold D.
    unfold bind at 1. unfold os_path_exists. rewrite Hnone.
    unfold bind at 1. simpl when. unfold os_makedirs.
    rewrite Hnone, Hmk.
    rewrite for_each_app. unfold bind at 1. rewrite Hloop1.
    simpl for_each. unfold bind at 1. rewrite Hself.
    fold st2. rewrite Hloop3. unfold st2, st1. simpl.
    rewrite map_app, <- !app_assoc. simpl.
    replace (progress_value st + List.length Wb + 1 + List.length Wa)
      with (progress_value st + S (List.length Wb + List.length Wa)) by lia.
    reflexivity.
Qed.

(** The model lists a directory in the order it stores it, a new entry last:
    there, staging is the case where every entry is met before the working
    area. *)
Lemma copy_to_extracted_folder_as_listed (fuel : nat) (source_folder : path)
  (name : string) (es : entries_t) (st : state) :
  lookup (fs st) source_folder = Some (Dir es) ->
  assoc name es = None ->
  copy_to_extracted_folder fuel source_folder (source_folder ++ [name]) st =
  copy_to_extracted_folder_listed (names es ++ [name]) fuel source_folder
    (source_folder ++ [name]) st.
Proof.
  intros Hs Hx.
  assert (Hnone : lookup (fs st) (source_folder ++ [name]) = None).
  { rewrite lookup_app, Hs. simpl. rewrite Hx. reflexivity. }
  destruct (put_defined (fs st) (Dir es) source_folder
              (Dir (es ++ [(name, Dir [])])) Hs) as [t0 Ht0].
  assert (Hmk : mkdirs (fs st) (source_folder ++ [name]) = Some t0).
  { rewrite (mkdirs_sibling _ _ _ _ Hs Hx),
      (put_new_child _ _ _ _ _ Hs Hx). exact Ht0. }
  unfold copy_to_extracted_folder, copy_to_extracted_folder_listed, bind,
    os_path_exists, when, os_makedirs, os_listdir.
  rewrite Hnone. cbn [negb]. cbv beta iota. rewrite Hnone, Hmk.
  cbn [fs with_fs]. rewrite (lookup_put_same _ _ _ _ Ht0).
  unfold names. rewrite map_app. reflexivity.
Qed.

(** What staging leaves in a working area it makes itself, for every order
    in which [os.listdir] returns the entries of the source.  The source is
    a directory that lists every name once, at every level, and has no entry
    [name]; the bound on the depth of [shutil.copytree] is at least the
    height of the source; the listing meets the entries [before], then the
    new working area, then the entries [after].  Then staging returns, and
    the working area [source_folder/name] holds an exact copy of every
    sub-directory and of every file named [*.zip] of the source, nothing of
    its other files, and a folder [name] with a copy of what was staged
    before the working area was met: the working area is listed with the
    source and staged into itself.  Nothing else changes; every copy has its
    success line, in the order of the listing, and its step of the progress
    bar. *)
Theorem staging_copies_folders_and_archives (fuel : nat)
  (source_folder : path) (name : string) (es before after : entries_t)
  (st : state) :
  lookup (fs st) source_folder = Some (Dir es) ->
  wf (Dir es) = true ->
  assoc name es = None ->
  height (Dir es) <= fuel ->
  Permutation (before ++ after) es ->
  exists t,
    put (fs st) (source_folder ++ [name])
      (Dir (filter staged before ++
            (name, Dir (filter staged before)) :: filter staged after)) =
      Some t /\
    copy_to_extracted_folder_listed (names before ++ name :: names after)
      fuel source_folder (source_folder ++ [name]) st =
    (Ret tt,
     mkState t
       (log_text st ++
        map (staging_line source_folder (source_folder ++ [name]))
          (filter staged before ++
           (name, Dir (filter staged before)) :: filter staged after))
       (progress_value st +
        S (List.length (filter staged before) +
           List.length (filter staged after)))
       (progress_maximum st) (dialogs st)).
Proof. apply staging_result_listed. Qed.

Lemma staging_copies_folders_and_archives_witness :
  exists t,
    put (Dir [("a.zip", Archive []); ("notes.txt", File "n");
              ("docs", Dir [("x.csv", File "1")])])
      ["Extracted"]
      (Dir [("a.zip", Archive []);
            ("Extracted", Dir [("a.zip", Archive [])]);
            ("docs", Dir [("x.csv", File "1")])]) = Some t /\
    copy_to_extracted_folder_listed
      ["a.zip"; "Extracted"; "notes.txt"; "docs"] 3 [] ["Extracted"]
      (initial (Dir [("a.zip", Archive []); ("notes.txt", File "n");
                     ("docs", Dir [("x.csv", File "1")])])) =
    (Ret tt,
     mkState t
       [CopiedZip ["a.zip"] ["Extracted"; "a.zip"];
        CopiedFolder ["Extracted"] ["Extracted"; "Extracted"];
        CopiedFolder ["docs"] ["Extracted"; "docs"]]
       3 0 []).
Proof.
  apply (staging_copies_folders_and_archives 3 [] "Extracted"
           [("a.zip", Archive []); ("notes.txt", File "n");
            ("docs", Dir [("x.csv", File "1")])]
           [("a.zip", Archive [])]
           [("notes.txt", File "n"); ("docs", Dir [("x.csv", File "1")])]
           (initial (Dir [("a.zip", Archive []); ("notes.txt", File "n");
                          ("docs", Dir [("x.csv", File "1")])]))).
  - reflexivity.
  - reflexivity.
  - reflexivity.
  - vm_compute. lia.
  - reflexivity.
Defined.

(** ** Unpacking serves every archive *)

Lemma diverge_false (p : path) :
  forall q, diverge p q = false ->
            (exists r, q = p ++ r) \/ (exists r, p = q ++ r).
Proof.
  induction p as [|x p IH]; intros [|y q] H; simpl in H.
  - left. exists []. reflexivity.
  - left. exists (y :: q). reflexivity.
  - right. exists (x :: p). reflexivity.
  - destruct (String.eqb x y) eqn:E; [|discriminate].
    apply String.eqb_eq in E. subst y.
    destruct (IH q H) as [[r Hr]|[r Hr]]; [left|right]; exists r;
      simpl; rewrite <- Hr; reflexivity.
Qed.

Lemma lookup_prefix_dir (t : node) (p : path) (x : string) (r : path)
  (n : node) :
  lookup t (p ++ x :: r) = Some n -> exists es, lookup t p = Some (Dir es).
Proof.
  rewrite lookup_app. destruct (lookup t p) as [[d|ms|es|?]|]; simpl;
    try discriminate.
  intros _. exists es. reflexivity.
Qed.

Lemma lookup_child_listed (t : node) (p : path) (x : string) (r : path)
  (n : node) (es : entries_t) :
  lookup t p = Some (Dir es) -> lookup t (p ++ x :: r) = Some n ->
  In x (names es).
Proof.
  intros Hp. rewrite lookup_app, Hp. simpl.
  destruct (assoc x es) as [c|] eqn:E; [|discriminate].
  intros _. apply assoc_In in E. apply in_map_iff. exists (x, c).
  split; [reflexivity|exact E].
Qed.

Lemma snoc_under (q T r : path) (x : string) :
  q ++ [x] = T ++ r -> r = [] \/ exists r', q = T ++ r'.
Proof.
  destruct r as [|y r] using rev_ind; [left; reflexivity|].
  intros H. right. rewrite app_assoc in H.
  apply app_inj_tail in H. destruct H as [H _]. exists r. exact H.
Qed.

(** An extraction that returns has written nothing, or has left a directory
    at its target. *)
Lemma extractall_ret (ms : entries_t) (target : path) (st : state) :
  fst (extractall ms target st) = Ret tt ->
  fs (snd (extractall ms target st)) = fs st \/
  exists es, lookup (fs (snd (extractall ms target st))) target =
             Some (Dir es).
Proof.
  unfold extractall. destruct ms as [|m ms]; [left; reflexivity|].
  destruct (lookup (fs st) target) as [[d|a|es|?]|] eqn:Hl; simpl;
    try discriminate.
  - destruct (extract_members (m :: ms) es) as [es' r].
    destruct (put (fs st) target (Dir es')) as [t|] eqn:Hp; simpl;
      [|discriminate].
    intros _. right. exists es'. exact (lookup_put_same _ _ _ _ Hp).
  - destruct (mkdirs (fs st) target) as [t0|]; simpl; [|discriminate].
    destruct (extract_members (m :: ms) []) as [es' r].
    destruct (put t0 target (Dir es')) as [t|] eqn:Hp; simpl; [|discriminate].
    intros _. right. exists es'. exact (lookup_put_same _ _ _ _ Hp).
Qed.

(** The body of the [try] for a file named as an archive, when it returns:
    nothing was written, or the target is a directory. *)
Lemma archive_branch_dir (cur : path) (item : string) (stack a : list path)
  (st s' : state) :
  (e <- os_path_exists (cur ++ [splitext_root item]) ;;
   when (negb e) (os_makedirs false (cur ++ [splitext_root item])) ;;
   zip_ref <- ZipFile (cur ++ [item]) ;;
   extractall zip_ref (cur ++ [splitext_root item]) ;;
   log_message (Extracted (cur ++ [item]) (cur ++ [splitext_root item])) ;;
   update_progress ;;
   ret ((cur ++ [splitext_root item]) :: stack)) st = (Ret a, s') ->
  fs s' = fs st \/
  exists es, lookup (fs s') (cur ++ [splitext_root item]) = Some (Dir es).
Proof.
  unfold bind at 1. unfold os_path_exists.
  destruct (lookup (fs st) (cur ++ [splitext_root item])) as [n|] eqn:Ht.
  - simpl negb. unfold when. unfold bind at 1. unfold ret at 1.
    unfold bind at 1.
    pose proof (ZipFile_widgets (cur ++ [item]) st) as [Hz _].
    destruct (ZipFile (cur ++ [item]) st) as [[ms|e|] s2]; simpl in Hz;
      try discriminate. subst s2.
    unfold bind at 1.
    pose proof (extractall_ret ms (cur ++ [splitext_root item]) st) as Hx.
    destruct (extractall ms (cur ++ [splitext_root item]) st)
      as [[[]|e|] s3]; simpl in Hx; try discriminate.
    unfold bind, log_message, update_progress, ret. intros H.
    inversion H. subst. simpl. apply Hx. reflexivity.
  - simpl negb. unfold when. unfold bind at 1. unfold os_makedirs.
    rewrite Ht.
    destruct (mkdirs (fs st) (cur ++ [splitext_root item])) as [t0|] eqn:Em;
      [|discriminate].
    pose proof (mkdirs_lookup_new _ _ _ Em (or_introl Ht)) as H0.
    unfold bind at 1.
    pose proof (ZipFile_widgets (cur ++ [item]) (with_fs st t0)) as [Hz _].
    destruct (ZipFile (cur ++ [item]) (with_fs st t0)) as [[ms|e|] s2];
      simpl in Hz; try discriminate. subst s2.
    unfold bind at 1.
    pose proof (keeps_extractall ms (cur ++ [splitext_root item])
                  (with_fs st t0)) as Hk.
    destruct (extractall ms (cur ++ [splitext_root item]) (with_fs st t0))
      as [[[]|e|] s3]; simpl in Hk; try discriminate.
    unfold bind, log_message, update_progress, ret. intros H.
    inversion H. subst. simpl. right.
    exact (kinds_kept_dir_at _ _ _ _ Hk H0).
Qed.

(** The three ways a turn of the scan ends: the item is no file named
    [*.zip] and nothing is written; or it is one and its extraction
    succeeds, the target is pushed; or it is one and an error line is
    written. *)
Lemma extract_item_cases (cur : path) (item : string) (acc : list path)
  (st : state) :
  exists acc' s',
    extract_item cur item acc st = (Ret acc', s') /\
    ((s' = st /\
      match lookup (fs st) (cur ++ [item]) with
      | Some n => is_file n && endswith item ".zip"
      | None => false
      end = false /\
      acc' = match lookup (fs st) (cur ++ [item]) with
             | Some (Dir _) => (cur ++ [item]) :: acc
             | _ => acc
             end) \/
     (match lookup (fs st) (cur ++ [item]) with
      | Some n => is_file n && endswith item ".zip"
      | None => false
      end = true /\
      acc' = (cur ++ [splitext_root item]) :: acc /\
      (fs s' = fs st \/
       exists es, lookup (fs s') (cur ++ [splitext_root item]) =
                  Some (Dir es))) \/
     (exists e, log_text s' = log_text st ++ [e] /\ is_error e = true)).
Proof.
  unfold extract_item, try_except. unfold bind at 1. unfold os_path_isfile.
  destruct (match lookup (fs st) (cur ++ [item]) with
            | Some n => is_file n
            | None => false
            end && endswith item ".zip") eqn:Hz.
  - assert (Hz' : match lookup (fs st) (cur ++ [item]) with
                  | Some n => is_file n && endswith item ".zip"
                  | None => false
                  end = true).
    { destruct (lookup (fs st) (cur ++ [item])); [exact Hz|discriminate]. }
    pose proof (archive_branch cur item acc st) as Hb. cbv zeta in Hb.
    pose proof (archive_branch_dir cur item acc) as Hd.
    specialize (fun a s' => Hd a st s').
    destruct ((e <- os_path_exists (cur ++ [splitext_root item]) ;;
               when (negb e) (os_makedirs false (cur ++ [splitext_root item])) ;;
               zip_ref <- ZipFile (cur ++ [item]) ;;
               extractall zip_ref (cur ++ [splitext_root item]) ;;
               log_message (Extracted (cur ++ [item])
                              (cur ++ [splitext_root item])) ;;
               update_progress ;;
               ret ((cur ++ [splitext_root item]) :: acc)) st)
      as [[a|e|] s1] eqn:Er; simpl in Hb.
    + exists a, s1. split; [reflexivity|]. right. left.
      destruct Hb as [[Ha _]|[e [He _]]]; [|discriminate].
      inversion Ha. subst a. repeat split; [exact Hz'|].
      apply (Hd _ _ eq_refl).
    + destruct Hb as [[Ha _]|[e' [_ [Hl _]]]]; [discriminate|].
      destruct e; eexists acc, _; (split; [reflexivity|]); right; right;
        eexists; simpl; rewrite Hl; (split; [reflexivity|reflexivity]).
    + destruct Hb as [[Ha _]|[e' [He _]]]; discriminate.
  - assert (Hz' : match lookup (fs st) (cur ++ [item]) with
                  | Some n => is_file n && endswith item ".zip"
                  | None => false
                  end = false).
    { destruct (lookup (fs st) (cur ++ [item])); [exact Hz|reflexivity]. }
    unfold bind, os_path_isdir.
    destruct (lookup (fs st) (cur ++ [item])) as [[d|ms|es|?]|]; simpl;
      eexists _, st; (split; [reflexivity|]); left; repeat split;
      assumption.
Qed.

Lemma writes_under_os_makedirs_at (p : path) (b : bool) :
  writes_under p (os_makedirs b p).
Proof.
  pose proof (writes_under_os_makedirs p [] b) as H.
  rewrite app_nil_r in H. exact H.
Qed.

Lemma writes_under_extractall_at (p : path) (ms : entries_t) :
  writes_under p (extractall ms p).
Proof.
  pose proof (writes_under_extractall p [] ms) as H.
  rewrite app_nil_r in H. exact H.
Qed.

(** A turn of the scan writes at or below its target only. *)
Lemma extract_item_at_target (cur : path) (item : string)
  (stack : list path) :
  writes_under (cur ++ [splitext_root item]) (extract_item cur item stack).
Proof.
  unfold extract_item. apply writes_under_try_except.
  - apply writes_under_bind; [apply writes_under_read; reflexivity|].
    intros f. destruct (f && endswith item ".zip").
    + apply writes_under_bind; [apply writes_under_read; reflexivity|].
      intros e. apply writes_under_bind.
      { destruct e; simpl;
          [apply writes_under_ret|apply writes_under_os_makedirs_at]. }
      intros _. apply writes_under_bind.
      { apply writes_under_read. intros st.
        rewrite (proj1 (ZipFile_widgets _ st)). reflexivity. }
      intros ms. apply writes_under_bind; [apply writes_under_extractall_at|].
      intros _.
      apply writes_under_bind; [apply writes_under_read; reflexivity|].
      intros _.
      apply writes_under_bind; [apply writes_under_read; reflexivity|].
      intros _. apply writes_under_ret.
    + apply writes_under_bind; [apply writes_under_read; reflexivity|].
      intros d. destruct d; apply writes_under_ret.
  - intros e. destruct e;
      (apply writes_under_bind;
       [apply writes_under_read; reflexivity
       |intros _; apply writes_under_ret]).
Qed.

(** An archive that is there after a successful turn lies below the target
    of the turn, or was there before it. *)
Lemma archives_before (cur : path) (item : string) (acc : list path)
  (st : state) (q : path) (x : string) (ms : entries_t) :
  fs (snd (extract_item cur item acc st)) = fs st \/
  (exists es, lookup (fs (snd (extract_item cur item acc st)))
                (cur ++ [splitext_root item]) = Some (Dir es)) ->
  lookup (fs (snd (extract_item cur item acc st))) (q ++ [x]) =
    Some (Archive ms) ->
  (exists r, q = (cur ++ [splitext_root item]) ++ r) \/
  lookup (fs st) (q ++ [x]) = Some (Archive ms).
Proof.
  intros Hfs Hl.
  destruct Hfs as [Hfs|[es Hdir]]; [right; rewrite <- Hfs; exact Hl|].
  destruct (diverge (cur ++ [splitext_root item]) (q ++ [x])) eqn:D.
  - right. rewrite <- Hl. symmetry.
    apply (extract_item_at_target cur item acc st). exact D.
  - destruct (diverge_false _ _ D) as [[r Hr]|[r Hr]].
    + destruct (snoc_under _ _ _ _ Hr) as [->|[r' Hr']].
      * rewrite app_nil_r in Hr. rewrite Hr in Hl. congruence.
      * left. exists r'. exact Hr'.
    + destruct r as [|y r].
      * rewrite app_nil_r in Hr. rewrite <- Hr in Hl. congruence.
      * rewrite Hr in Hdir.
        destruct (lookup_prefix_dir _ _ _ _ _ Hdir) as [es' Hes'].
        congruence.
Qed.

Lemma served_more (stack stack' : list path) (t t' : node) (q : path)
  (x : string) :
  (forall p, In p stack -> In p stack') ->
  kinds_kept t t' ->
  served stack t q x -> served stack' t' q x.
Proof.
  intros Hin Hk [[s [r [Hs Hq]]]|[[es Hes]|Hst]].
  - left. exists s, r. split; [apply Hin; exact Hs|exact Hq].
  - right. left. exact (kinds_kept_dir_at _ _ _ _ Hk Hes).
  - right. right. apply Hin. exact Hst.
Qed.

(** One turn of the scan keeps the invariant, unless it writes an error
    line. *)
Lemma scan_turn (base cur : path) (i : string) (todo : list string)
  (acc acc' : list path) (st s' : state) :
  scan_inv base cur (i :: todo) acc (fs st) ->
  extract_item cur i acc st = (Ret acc', s') ->
  existsb is_error (log_text s') = false ->
  scan_inv base cur todo acc' (fs s').
Proof.
  intros Hinv Hrun Hlog.
  pose proof (keeps_extract_item cur i acc st) as Hk.
  pose proof (archives_before cur i acc st) as Hbefore.
  destruct (extract_item_cases cur i acc st) as [a [s [E C]]].
  rewrite E in Hrun, Hk, Hbefore. inversion Hrun. subst a s. clear Hrun.
  simpl in Hk, Hbefore.
  destruct C as [[Hs [Hz Ha]]|[[Hz [Ha Hfs]]|[e [Hl He]]]].
  - subst s'. intros r x ms Hlk Hzip.
    assert (Hsub : forall p, In p acc -> In p acc').
    { intros p Hp. subst acc'.
      destruct (lookup (fs st) (cur ++ [i])) as [[d|m|es|?]|];
        try exact Hp. right. exact Hp. }
    destruct (Hinv r x ms Hlk Hzip) as [Hsv|[[Hq Hx]|[c [r' [Hc Hq]]]]].
    + left. exact (served_more _ _ _ _ _ _ Hsub Hk Hsv).
    + destruct Hx as [Hx|Hx]; [|right; left; split; assumption].
      subst x. rewrite Hq in Hlk. rewrite Hlk in Hz. simpl in Hz.
      rewrite Hzip in Hz. discriminate.
    + destruct Hc as [Hc|Hc]; [|right; right; exists c, r'; split; assumption].
      subst c. left. left. exists (cur ++ [i]), r'. split.
      * assert (Hd : exists es, lookup (fs st) (cur ++ [i]) = Some (Dir es)).
        { rewrite Hq in Hlk.
          replace ((cur ++ i :: r') ++ [x])
            with ((cur ++ [i]) ++ (r' ++ [x])) in Hlk
            by (rewrite <- !app_assoc; reflexivity).
          destruct r' as [|y r'']; simpl in Hlk;
            exact (lookup_prefix_dir _ _ _ _ _ Hlk). }
        destruct Hd as [es Hd]. subst acc'. rewrite Hd. left. reflexivity.
      * rewrite Hq, <- app_assoc. reflexivity.
  - subst acc'. intros r x ms Hlk Hzip.
    destruct (Hbefore (base ++ r) x ms Hfs Hlk) as [[r0 Hr0]|Hold].
    { left. left. exists (cur ++ [splitext_root i]), r0.
      split; [left; reflexivity|exact Hr0]. }
    assert (Hsub : forall p, In p acc ->
                             In p ((cur ++ [splitext_root i]) :: acc)).
    { intros p Hp. right. exact Hp. }
    destruct (Hinv r x ms Hold Hzip) as [Hsv|[[Hq Hx]|[c [r' [Hc Hq]]]]].
    + left. exact (served_more _ _ _ _ _ _ Hsub Hk Hsv).
    + destruct Hx as [Hx|Hx]; [|right; left; split; assumption].
      subst x. left. right. right. left. rewrite Hq. reflexivity.
    + destruct Hc as [Hc|Hc]; [|right; right; exists c, r'; split; assumption].
      subst c. exfalso. rewrite Hq in Hold.
      replace ((cur ++ i :: r') ++ [x])
        with ((cur ++ [i]) ++ (r' ++ [x])) in Hold
        by (rewrite <- !app_assoc; reflexivity).
      assert (Hd : exists es, lookup (fs st) (cur ++ [i]) = Some (Dir es)).
      { destruct r' as [|y r'']; simpl in Hold;
          exact (lookup_prefix_dir _ _ _ _ _ Hold). }
      destruct Hd as [es Hd]. rewrite Hd in Hz. discriminate.
  - rewrite Hl, existsb_app in Hlog. simpl in Hlog. rewrite He in Hlog.
    rewrite orb_true_r in Hlog. discriminate.
Qed.

Lemma no_error_prefix (l l' : list log_entry) :
  existsb is_error (l ++ l') = false -> existsb is_error l = false.
Proof.
  rewrite existsb_app. intros H. apply orb_false_iff in H. tauto.
Qed.

(** The scan of a directory keeps the invariant, unless it writes an error
    line. *)
Lemma scan_keeps (base cur : path) :
  forall (todo : list string) (acc acc' : list path) (st s' : state),
    scan_inv base cur todo acc (fs st) ->
    for_each todo (extract_item cur) acc st = (Ret acc', s') ->
    existsb is_error (log_text s') = false ->
    scan_inv base cur [] acc' (fs s').
Proof.
  induction todo as [|i todo IH]; intros acc acc' st s' Hinv Hrun Hlog.
  - simpl in Hrun. inversion Hrun. subst. exact Hinv.
  - simpl in Hrun. unfold bind in Hrun.
    destruct (extract_item_cases cur i acc st) as [a [s1 [E _]]].
    rewrite E in Hrun.
    destruct (ledger_for_each todo (extract_item cur)
                (ledger_extract_item cur) a s1) as [l [Hl _]].
    rewrite Hrun in Hl. simpl in Hl.
    apply (IH a acc' s1 s'); [|exact Hrun|exact Hlog].
    apply (scan_turn base cur i todo acc a st s1 Hinv E).
    rewrite Hl in Hlog. exact (no_error_prefix _ _ Hlog).
Qed.

(** The stack loop keeps the invariant: when it returns without an error
    line, every archive below [base] is served by the empty stack. *)
Lemma drain_serves (base : path) (fuel : nat) :
  forall (stack : list path) (st : state),
    scan_inv base [] [] stack (fs st) ->
    fst (drain fuel stack st) = Ret tt ->
    existsb is_error (log_text (snd (drain fuel stack st))) = false ->
    scan_inv base [] [] [] (fs (snd (drain fuel stack st))).
Proof.
  induction fuel as [|fuel IH]; intros [|cur rest] st Hinv Hret Hlog;
    try exact Hinv; try discriminate.
  rewrite drain_step in *. unfold os_listdir in *.
  destruct (lookup (fs st) cur) as [[d|ms|es|?]|] eqn:Hcur; try discriminate.
  destruct (scan_pushes cur (names es) st) as [ps [s1 [Hscan _]]].
  rewrite (Hscan rest) in *.
  destruct (ledger_drain fuel (ps ++ rest) s1) as [l [Hl _]].
  assert (Hlog1 : existsb is_error (log_text s1) = false).
  { rewrite Hl in Hlog. exact (no_error_prefix _ _ Hlog). }
  apply IH; [|exact Hret|exact Hlog].
  assert (Hstart : scan_inv base cur (names es) rest (fs st)).
  { intros r x ms Hlk Hzip.
    destruct (Hinv r x ms Hlk Hzip)
      as [[[s [r' [Hs Hq]]]|[[es' Hes']|Hst]]|[[_ []]|[c [r' [[] _]]]]].
    - destruct Hs as [Hs|Hs].
      + subst s. right. destruct r' as [|c r''].
        * left. rewrite app_nil_r in Hq. split; [exact Hq|].
          rewrite Hq in Hlk.
          exact (lookup_child_listed _ _ _ [] _ _ Hcur Hlk).
        * right. exists c, r''. split; [|exact Hq].
          rewrite Hq, <- app_assoc in Hlk. simpl in Hlk.
          exact (lookup_child_listed _ _ _ _ _ _ Hcur Hlk).
      + left. left. exists s, r'. split; assumption.
    - left. right. left. exists es'. exact Hes'.
    - destruct Hst as [Hst|Hst].
      + left. right. left. exists es. rewrite <- Hst. exact Hcur.
      + left. right. right. exact Hst. }
  pose proof (scan_keeps base cur (names es) rest (ps ++ rest) st s1 Hstart
                (Hscan rest) Hlog1) as Hend.
  intros r x ms Hlk Hzip.
  destruct (Hend r x ms Hlk Hzip) as [Hsv|[[_ []]|[c [r' [[] _]]]]].
  left. exact Hsv.
Qed.

(** Unpacking serves every archive.  When [find_and_extract_zip_files]
    returns and the log holds no error line, every file below the base that
    is a zip archive and is named [*.zip] has, next to it, a directory named
    by its stem: no archive is passed over, at any depth, whether it was
    there from the start or came out of another archive. *)
Theorem unpacking_serves_every_archive (fuel : nat) (base : path)
  (st : state) (r : path) (x : string) (ms : entries_t) :
  fst (find_and_extract_zip_files fuel base st) = Ret tt ->
  existsb is_error
    (log_text (snd (find_and_extract_zip_files fuel base st))) = false ->
  lookup (fs (snd (find_and_extract_zip_files fuel base st)))
    ((base ++ r) ++ [x]) = Some (Archive ms) ->
  endswith x ".zip" = true ->
  exists es,
    lookup (fs (snd (find_and_extract_zip_files fuel base st)))
      ((base ++ r) ++ [splitext_root x]) = Some (Dir es).
Proof.
  intros Hret Hlog Hlk Hzip. unfold find_and_extract_zip_files in *.
  assert (Hinit : scan_inv base [] [] [base] (fs st)).
  { intros r' x' ms' _ _. left. left. exists base, r'.
    split; [left; reflexivity|reflexivity]. }
  destruct (drain_serves base fuel [base] st Hinit Hret Hlog r x ms Hlk Hzip)
    as [[[s [r' [[] _]]]|[Hdir|[]]]|[[_ []]|[c [r' [[] _]]]]].
  exact Hdir.
Qed.

Lemma unpacking_serves_every_archive_witness :
  exists es,
    lookup (fs (snd (find_and_extract_zip_files 9 [] (initial small_folder))))
      (([] ++ ["a"]) ++ [splitext_root "b.zip"]) = Some (Dir es).
Proof.
  apply (unpacking_serves_every_archive 9 [] (initial small_folder) ["a"]
           "b.zip" (members_of inner_zip)).
  - vm_compute. reflexivity.
  - vm_compute. reflexivity.
  - vm_compute. reflexivity.
  - vm_compute. reflexivity.
Defined.

(** ** A file named as an archive that is corrupt *)

(** The rest of the [try] body after the target directory is seen to be
    there, for a corrupt file: [BadZipFile] is raised with the target holding
    what the file leaves. *)
Lemma bad_zip_rest (cur : path) (item : string) (stack : list path)
  (s : state) (f : node) (old kept : entries_t) :
  lookup (fs s) (cur ++ [item]) = Some f ->
  lookup (fs s) (cur ++ [splitext_root item]) = Some (Dir old) ->
  bad_zip_leaves f old = Some kept ->
  exists t,
    put (fs s) (cur ++ [splitext_root item]) (Dir kept) = Some t /\
    (zip_ref <- ZipFile (cur ++ [item]) ;;
     extractall zip_ref (cur ++ [splitext_root item]) ;;
     log_message (Extracted (cur ++ [item]) (cur ++ [splitext_root item])) ;;
     update_progress ;;
     ret ((cur ++ [splitext_root item]) :: stack)) s =
    (Raise BadZipFile, with_fs s t).
Proof.
  intros Hf Ht Hleft.
  destruct (put_defined (fs s) (Dir old) (cur ++ [splitext_root item])
              (Dir kept) Ht) as [t Hput].
  exists t. split; [exact Hput|].
  unfold bind at 1. unfold ZipFile. rewrite Hf.
  destruct f as [d|ms|ds|w]; simpl in Hleft.
  - inversion Hleft. subst kept.
    rewrite (put_same _ _ _ Ht) in Hput. inversion Hput.
    rewrite with_fs_same. reflexivity.
  - destruct (extract_members ms old) as [kept' [e|]] eqn:Hx;
      [|discriminate].
    destruct e; try discriminate. inversion Hleft. subst kept'.
    destruct ms as [|m ms]; [unfold extract_members in Hx; discriminate|].
    unfold bind, extractall. rewrite Ht, Hx, Hput. reflexivity.
  - discriminate.
  - inversion Hleft. subst kept.
    rewrite (put_same _ _ _ Ht) in Hput. inversion Hput.
    rewrite with_fs_same. reflexivity.
Qed.

Lemma bad_zip_is_file (f : node) (old kept : entries_t) :
  bad_zip_leaves f old = Some kept -> is_file f = true.
Proof. destruct f; simpl; [reflexivity|reflexivity|discriminate|reflexivity]. Qed.

(** The turn on a corrupt file whose target is a directory already. *)
Lemma bad_zip_into (cur : path) (item : string) (stack : list path)
  (st : state) (f : node) (old kept : entries_t) :
  lookup (fs st) (cur ++ [item]) = Some f ->
  endswith item ".zip" = true ->
  lookup (fs st) (cur ++ [splitext_root item]) = Some (Dir old) ->
  bad_zip_leaves f old = Some kept ->
  exists t,
    put (fs st) (cur ++ [splitext_root item]) (Dir kept) = Some t /\
    extract_item cur item stack st =
    (Ret stack,
     mkState t (log_text st ++ [BadZip (cur ++ [item])]) (progress_value st)
       (progress_maximum st) (dialogs st)).
Proof.
  intros Hf Hzip Ht Hleft.
  destruct (bad_zip_rest cur item stack st f old kept Hf Ht Hleft)
    as [t [Hput Hrest]].
  exists t. split; [exact Hput|].
  unfold extract_item, try_except. unfold bind at 1. unfold os_path_isfile.
  rewrite Hf, (bad_zip_is_file _ _ _ Hleft), Hzip.
  change (true && true) with true. cbv beta iota. unfold bind at 1. unfold os_path_exists. rewrite Ht.
  simpl negb. unfold when. unfold bind at 1. unfold ret at 1.
  rewrite Hrest. reflexivity.
Qed.

(** The turn on a corrupt file whose target path is free: the directory is
    made first. *)
Lemma bad_zip_fresh (cur : path) (item : string) (stack : list path)
  (st : state) (es : entries_t) (f : node) (kept : entries_t) :
  lookup (fs st) cur = Some (Dir es) ->
  assoc item es = Some f ->
  endswith item ".zip" = true ->
  assoc (splitext_root item) es = None ->
  bad_zip_leaves f [] = Some kept ->
  exists t,
    put (fs st) cur (Dir (es ++ [(splitext_root item, Dir kept)])) = Some t /\
    extract_item cur item stack st =
    (Ret stack,
     mkState t (log_text st ++ [BadZip (cur ++ [item])]) (progress_value st)
       (progress_maximum st) (dialogs st)).
Proof.
  intros Hcur Hitem Hzip Hstem Hleft.
  destruct (put_defined (fs st) (Dir es) cur
              (Dir (es ++ [(splitext_root item, Dir [])])) Hcur) as [t0 Ht0].
  assert (Hcur0 : lookup t0 cur =
                  Some (Dir (es ++ [(splitext_root item, Dir [])])))
    by exact (lookup_put_same _ _ _ _ Ht0).
  assert (Hf : lookup (fs st) (cur ++ [item]) = Some f).
  { rewrite lookup_app, Hcur. simpl. rewrite Hitem. reflexivity. }
  assert (Hnone : lookup (fs st) (cur ++ [splitext_root item]) = None).
  { rewrite lookup_app, Hcur. simpl. rewrite Hstem. reflexivity. }
  assert (Hmk : mkdirs (fs st) (cur ++ [splitext_root item]) = Some t0).
  { rewrite (mkdirs_sibling _ _ _ _ Hcur Hstem),
      (put_new_child _ _ _ _ _ Hcur Hstem). exact Ht0. }
  destruct (bad_zip_rest cur item stack (with_fs st t0) f [] kept)
    as [t [Hput Hrest]].
  - simpl. rewrite lookup_app, Hcur0. simpl. rewrite assoc_app, Hitem.
    reflexivity.
  - simpl. rewrite lookup_app, Hcur0. simpl. rewrite assoc_app, Hstem.
    simpl. rewrite String.eqb_refl. reflexivity.
  - exact Hleft.
  - exists t. split.
    + simpl in Hput. rewrite (put_over_child _ _ _ _ _ _ Hcur0 Hstem) in Hput.
      rewrite (put_put _ _ _ _ _ Ht0) in Hput. exact Hput.
    + unfold extract_item, try_except. unfold bind at 1.
      unfold os_path_isfile.
      rewrite Hf, (bad_zip_is_file _ _ _ Hleft), Hzip.
      change (true && true) with true. cbv beta iota. unfold bind at 1. unfold os_path_exists.
      rewrite Hnone. simpl negb. unfold when. unfold bind at 1.
      unfold os_makedirs. rewrite Hnone, Hmk.
      rewrite Hrest. reflexivity.
Qed.

(** C10 (amended): the turn of the scan on a corrupt file named [*.zip],
    that is a file for which [zipfile] raises [BadZipFile]: on opening it,
    when it is no zip container, or during [extractall], at a damaged
    member.  When nothing is at the target path, the target directory is
    made before the file is opened and is left behind, empty when the file
    could not be opened and with the members written before the damaged one
    otherwise.  When a directory is at the target path, nothing is made: the
    directory is left as it was when the file could not be opened, and takes
    the members written before the damaged one otherwise.  When a regular
    file is at the target path and the corrupt file cannot be opened, the
    file system is left as it was.  In every case the turn logs the bad
    archive, pushes nothing and returns. *)
Theorem C10_bad_archive_turn (cur : path) (item : string)
  (stack : list path) (st : state) (es : entries_t) (f : node) :
  lookup (fs st) cur = Some (Dir es) ->
  assoc item es = Some f ->
  endswith item ".zip" = true ->
  let stem := splitext_root item in
  let logged t :=
    mkState t (log_text st ++ [BadZip (cur ++ [item])]) (progress_value st)
      (progress_maximum st) (dialogs st) in
  match assoc stem es with
  | None =>
      forall kept,
        bad_zip_leaves f [] = Some kept ->
        (no_zip_container f = true -> kept = []) /\
        exists t,
          extract_item cur item stack st = (Ret stack, logged t) /\
          put (fs st) cur (Dir (es ++ [(stem, Dir kept)])) = Some t /\
          lookup t (cur ++ [stem]) = Some (Dir kept)
  | Some (Dir old) =>
      forall kept,
        bad_zip_leaves f old = Some kept ->
        (no_zip_container f = true -> kept = old) /\
        exists t,
          extract_item cur item stack st = (Ret stack, logged t) /\
          put (fs st) (cur ++ [stem]) (Dir kept) = Some t
  | Some _ =>
      no_zip_container f = true ->
      extract_item cur item stack st = (Ret stack, logged (fs st))
  end.
Proof.
  intros Hcur Hitem Hzip stem logged.
  assert (Hf : lookup (fs st) (cur ++ [item]) = Some f).
  { rewrite lookup_app, Hcur. simpl. rewrite Hitem. reflexivity. }
  assert (Hplain : forall g, no_zip_container f = true ->
                             bad_zip_leaves f g = Some g).
  { intros g Hn. destruct f as [d|ms|ds|w]; try reflexivity; discriminate. }
  assert (Htaken : forall c, assoc stem es = Some c -> is_dir c = false ->
            no_zip_container f = true ->
            extract_item cur item stack st = (Ret stack, logged (fs st))).
  { intros c Hc Hcd Hn.
    assert (Hd : is_dir f = false) by (destruct f; try reflexivity; discriminate).
    unfold extract_item, try_except, bind, os_path_isfile.
    rewrite Hf. unfold is_file. rewrite Hd, Hzip. simpl.
    unfold os_path_exists. fold stem. rewrite lookup_app, Hcur. simpl.
    rewrite Hc. simpl. unfold ZipFile. rewrite Hf.
    destruct f as [d|ms|ds|w]; try reflexivity; discriminate. }
  destruct (assoc stem es) as [[d|ms|old|w]|] eqn:Hstem.
  - apply (Htaken _ eq_refl eq_refl).
  - apply (Htaken _ eq_refl eq_refl).
  - intros kept Hleft. split.
    { intros Hp. rewrite (Hplain old Hp) in Hleft. inversion Hleft.
      reflexivity. }
    assert (Ht : lookup (fs st) (cur ++ [stem]) = Some (Dir old)).
    { rewrite lookup_app, Hcur. simpl. rewrite Hstem. reflexivity. }
    destruct (bad_zip_into cur item stack st f old kept Hf Hzip Ht Hleft)
      as [t [Hput Hrun]].
    exists t. split; [exact Hrun|exact Hput].
  - apply (Htaken _ eq_refl eq_refl).
  - intros kept Hleft. split.
    { intros Hp. rewrite (Hplain [] Hp) in Hleft. inversion Hleft.
      reflexivity. }
    destruct (bad_zip_fresh cur item stack st es f kept Hcur Hitem Hzip Hstem
                Hleft) as [t [Hput Hrun]].
    exists t. split; [exact Hrun|]. split; [exact Hput|].
    rewrite lookup_app, (lookup_put_same _ _ _ _ Hput). simpl.
    rewrite assoc_app, Hstem. simpl. rewrite String.eqb_refl. reflexivity.
Qed.

(** The folder with the one [a.zip] whose second member is damaged: [a] is
    made and is left behind with the first member in it. *)
Lemma C10_bad_archive_turn_witness :
  exists t,
    extract_item [] "a.zip" [] (initial damaged_archive_alone) =
      (Ret [], mkState t [BadZip ["a.zip"]] 0 0 []) /\
    put damaged_archive_alone []
      (Dir [("a.zip",
             Archive [("ok.txt", File "1"); ("bad.bin", Damaged None);
                      ("late.txt", File "2")]);
            ("a", Dir [("ok.txt", File "1")])]) = Some t /\
    lookup t ["a"] = Some (Dir [("ok.txt", File "1")]).
Proof.
  exact (proj2
           (C10_bad_archive_turn [] "a.zip" [] (initial damaged_archive_alone)
              [("a.zip",
                Archive [("ok.txt", File "1"); ("bad.bin", Damaged None);
                         ("late.txt", File "2")])]
              (Archive [("ok.txt", File "1"); ("bad.bin", Damaged None);
                        ("late.txt", File "2")])
              eq_refl eq_refl eq_refl [("ok.txt", File "1")] eq_refl)).
Defined.

(** ** Unpacking scans every directory *)









